(** * Long Range Attachments: a shallow embedding of the simulation core

    The development follows [long-range-attachments.cpp]: the particle and
    constraint records, the global state, [buildScene], [projectLocal],
    [projectLRA], [simulate] and the GLUT callbacks that drive them.

    - C++ [float] is kept abstract behind the interface [Scalar]; the code is
      written once against it.  Two instances are given: IEEE binary32
      (through [SpecFloat] with precision 24 and maximal exponent 128), which
      is what the program runs on and which computes, and the real numbers,
      the exact arithmetic the algorithm is designed over.
      Every operation rounds once: no fused multiply-add, no excess precision.
    - C++ [int] is [Z]; the sizes involved stay far below [2^31].
    - The global variables form the record [Globals]; every [void] function of
      the source is a computation in the monad [M], a state monad over
      [Globals] in which an out-of-range [operator[]] (undefined behaviour in
      C++) has no result. *)

From Stdlib Require Import ZArith List Bool Lia.
From Stdlib Require Import Reals Lra.
From Stdlib Require Import Floats.SpecFloat.
Import ListNotations.

Local Open Scope Z_scope.

(** ** The scalar interface *)

(** [frat n d] is the value the compiler gives to a literal (or to an [int]
    converted to [float]) that denotes the rational [n/d]. *)
Class Scalar (F : Type) : Type := {
  fadd : F -> F -> F;
  fsub : F -> F -> F;
  fmul : F -> F -> F;
  fdiv : F -> F -> F;
  fneg : F -> F;
  fsqrt : F -> F;
  fltb : F -> F -> bool;
  fleb : F -> F -> bool;
  frat : Z -> Z -> F
}.

(** The facts about the comparisons that the nearest-anchor scan and the
    clamp rely on.  They hold for IEEE comparisons (a comparison with a NaN
    is false) and for the reals. *)
Class ScalarOrder (F : Type) {SF : Scalar F} : Prop := {
  fltb_trans : forall a b c : F,
    fltb a b = true -> fltb b c = true -> fltb a c = true;
  fleb_fltb_trans : forall a b c : F,
    fleb a b = true -> fltb b c = true -> fltb a c = true;
  fltb_fleb : forall a b : F, fltb a b = true -> fleb a b = true;
  fltb_not_fleb : forall a b : F, fltb a b = true -> fleb b a = false
}.

Declare Scope scalar_scope.
Delimit Scope scalar_scope with fl.
Infix "+" := fadd : scalar_scope.
Infix "-" := fsub : scalar_scope.
Infix "*" := fmul : scalar_scope.
Infix "/" := fdiv : scalar_scope.
Notation "- x" := (fneg x) : scalar_scope.
Infix "<?" := fltb : scalar_scope.
Infix "<=?" := fleb : scalar_scope.

(** ** Records of the source *)

Module vec3.
Record t (F : Type) : Type := mk { x : F; y : F; z : F }.
Arguments mk {F}.
Arguments x {F}.
Arguments y {F}.
Arguments z {F}.
End vec3.

Module Particle.
Record t (F : Type) : Type := mk {
  p : vec3.t F;
  old_p : vec3.t F;
  v : vec3.t F;
  w : F;
  pinned : bool
}.
Arguments mk {F}.
Arguments p {F}.
Arguments old_p {F}.
Arguments v {F}.
Arguments w {F}.
Arguments pinned {F}.
End Particle.

Module LocalConstraint.
Record t (F : Type) : Type := mk { i : Z; j : Z; restLen : F }.
Arguments mk {F}.
Arguments i {F}.
Arguments j {F}.
Arguments restLen {F}.
End LocalConstraint.

Module LRAConstraint.
Record t (F : Type) : Type := mk {
  particleIdx : Z;
  attachmentIdx : Z;
  maxDist : F
}.
Arguments mk {F}.
Arguments particleIdx {F}.
Arguments attachmentIdx {F}.
Arguments maxDist {F}.
End LRAConstraint.

(** The simulation globals of the source: the data vectors and the three
    tunable parameters. *)
Record Globals (F : Type) : Type := mkGlobals {
  P : list (Particle.t F);
  localConstraints : list (LocalConstraint.t F);
  lraConstraints : list (LRAConstraint.t F);
  attachmentIndices : list Z;
  g_iterations : Z;
  g_useLRA : bool;
  g_lraSlack : F
}.
Arguments mkGlobals {F}.
Arguments P {F}.
Arguments localConstraints {F}.
Arguments lraConstraints {F}.
Arguments attachmentIndices {F}.
Arguments g_iterations {F}.
Arguments g_useLRA {F}.
Arguments g_lraSlack {F}.

(** ** Vectors indexed by [int] *)

Section Vector.
Context {A : Type}.

(** [v[k]] of a [std::vector]: defined for [0 <= k < v.size()] only. *)
Definition vget (l : list A) (k : Z) : option A :=
  if k <? 0 then None else nth_error l (Z.to_nat k).

Fixpoint replace_nth (l : list A) (n : nat) (a : A) : list A :=
  match l, n with
  | [], _ => []
  | _ :: t, O => a :: t
  | h :: t, S m => h :: replace_nth t m a
  end.

(** [v[k] = a]. *)
Definition vset (l : list A) (k : Z) (a : A) : option (list A) :=
  match vget l k with
  | Some _ => Some (replace_nth l (Z.to_nat k) a)
  | None => None
  end.

(** The index values of [for (int k = 0; k < n; ++k)]. *)
Definition zrange (n : Z) : list Z := map Z.of_nat (seq 0 (Z.to_nat n)).

Definition zlength (l : list A) : Z := Z.of_nat (length l).
End Vector.

(** ** The state monad of the globals *)

Section Monad.
Context {F : Type}.

Definition M (A : Type) : Type := Globals F -> option (A * Globals F).

Definition ret {A} (a : A) : M A := fun G => Some (a, G).

Definition bind {A B} (m : M A) (k : A -> M B) : M B :=
  fun G => match m G with
           | Some (a, G') => k a G'
           | None => None
           end.

Definition gets {A} (f : Globals F -> A) : M A := fun G => Some (f G, G).

Definition modify (f : Globals F -> Globals F) : M unit :=
  fun G => Some (tt, f G).

(** Final state of a [void] function. *)
Definition exec (m : M unit) (G : Globals F) : option (Globals F) :=
  match m G with
  | Some (_, G') => Some G'
  | None => None
  end.

(** Reading [P[k]]. *)
Definition particle (k : Z) : M (Particle.t F) :=
  fun G => match vget (P G) k with
           | Some q => Some (q, G)
           | None => None
           end.

Definition set_P (l : list (Particle.t F)) (G : Globals F) : Globals F :=
  mkGlobals l (localConstraints G) (lraConstraints G) (attachmentIndices G)
            (g_iterations G) (g_useLRA G) (g_lraSlack G).

(** Writing through [P[k]]: the particle is replaced by [f] of itself. *)
Definition update_particle (k : Z) (f : Particle.t F -> Particle.t F)
  : M unit :=
  fun G => match vget (P G) k with
           | Some q =>
               match vset (P G) k (f q) with
               | Some l => Some (tt, set_P l G)
               | None => None
               end
           | None => None
           end.

(** A range-based or counted [for] loop whose body is [body]. *)
Fixpoint for_each {A} (l : list A) (body : A -> M unit) : M unit :=
  match l with
  | [] => ret tt
  | a :: t => bind (body a) (fun _ => for_each t body)
  end.
End Monad.

Notation "x <- m ;; k" := (bind m (fun x => k))
  (at level 61, m at next level, right associativity).
Notation "m ;; k" := (bind m (fun _ => k))
  (at level 61, right associativity).

(** Field assignments [P[k].f = a]. *)
Section Fields.
Context {F : Type}.
Import Particle.

Definition with_p (a : vec3.t F) (q : Particle.t F) : Particle.t F :=
  mk a (old_p q) (v q) (w q) (pinned q).
Definition with_old_p (a : vec3.t F) (q : Particle.t F) : Particle.t F :=
  mk (p q) a (v q) (w q) (pinned q).
Definition with_v (a : vec3.t F) (q : Particle.t F) : Particle.t F :=
  mk (p q) (old_p q) a (w q) (pinned q).
Definition with_w (a : F) (q : Particle.t F) : Particle.t F :=
  mk (p q) (old_p q) (v q) a (pinned q).
Definition with_pinned (b : bool) (q : Particle.t F) : Particle.t F :=
  mk (p q) (old_p q) (v q) (w q) b.

Definition set_p (k : Z) (a : vec3.t F) : M unit :=
  update_particle k (with_p a).
Definition set_old_p (k : Z) (a : vec3.t F) : M unit :=
  update_particle k (with_old_p a).
Definition set_v (k : Z) (a : vec3.t F) : M unit :=
  update_particle k (with_v a).
Definition set_w (k : Z) (a : F) : M unit :=
  update_particle k (with_w a).
Definition set_pinned (k : Z) (b : bool) : M unit :=
  update_particle k (with_pinned b).
End Fields.

(** ** glm::vec3 arithmetic

    Componentwise, as glm defines it; [glm.length a] is [sqrt(dot(a, a))]
    with the products summed from left to right. *)
Module glm.
Section Ops.
Context {F : Type} {SF : Scalar F}.
Import vec3.
Local Open Scope scalar_scope.

(** [a + b] *)
Definition add (a b : vec3.t F) : vec3.t F :=
  mk (x a + x b) (y a + y b) (z a + z b).
(** [a - b] *)
Definition sub (a b : vec3.t F) : vec3.t F :=
  mk (x a - x b) (y a - y b) (z a - z b).
(** [a * s] *)
Definition scale (a : vec3.t F) (s : F) : vec3.t F :=
  mk (x a * s) (y a * s) (z a * s).
(** [s * a] *)
Definition lscale (s : F) (a : vec3.t F) : vec3.t F :=
  mk (s * x a) (s * y a) (s * z a).
(** [a / s] *)
Definition div (a : vec3.t F) (s : F) : vec3.t F :=
  mk (x a / s) (y a / s) (z a / s).
Definition dot (a b : vec3.t F) : F :=
  x a * x b + y a * y b + z a * z b.
Definition length (a : vec3.t F) : F := fsqrt (dot a a).
(** [vec3(s)] *)
Definition splat (s : F) : vec3.t F := mk s s s.
End Ops.
End glm.

(** ** Simulation core *)

Section Core.
Context {F : Type} {SF : Scalar F}.
Local Open Scope scalar_scope.

(** The [int]-to-[float] conversion and the literals of the source. *)
Definition of_int (n : Z) : F := frat n 1.
Definition f0 : F := frat 0 1.
Definition f1 : F := frat 1 1.
Definition f0_5 : F := frat 1 2.
Definition f1e30 : F := frat (10 ^ 30) 1.
Definition f1e_6 : F := frat 1 1000000.
Definition f0_99 : F := frat 99 100.

(** Simulation constants. *)
Definition dt : F := f1 / frat 60 1.
Definition g : vec3.t F := vec3.mk f0 (- frat 98 10) f0.

(** A default-constructed [Particle]; [buildScene] overwrites every field. *)
Definition Particle_default : Particle.t F :=
  Particle.mk (glm.splat f0) (glm.splat f0) (glm.splat f0) f0 false.

Section Build.
(** [clothW], [clothH] and [spacing] are compile-time constants of the source
    (30, 30 and 0.05f); they are parameters here so that other grids can be
    built too. *)
Variables clothW clothH : Z.
Variable spacing : F.

Definition idx (x y : Z) : Z := (y * clothW + x)%Z.

Definition init_particle (y x : Z) : M unit :=
  let id := idx x y in
  set_p id (vec3.mk ((of_int x - of_int (clothW - 1) * f0_5) * spacing)
                    (of_int (clothH - 1 - y) * spacing)
                    f0) ;;
  q <- particle id ;;
  set_old_p id (Particle.p q) ;;
  set_v id (glm.splat f0) ;;
  let isPinned := (y =? 0)%Z && ((x =? 0)%Z || (x =? clothW - 1)%Z) in
  if isPinned then
    set_w id f0 ;;
    set_pinned id true ;;
    modify (fun G => mkGlobals (P G) (localConstraints G) (lraConstraints G)
                               (attachmentIndices G ++ [id])
                               (g_iterations G) (g_useLRA G) (g_lraSlack G))
  else
    set_w id f1 ;;
    set_pinned id false.

Definition addEdge (a b : Z) : M unit :=
  pa <- particle a ;;
  pb <- particle b ;;
  let d := glm.length (glm.sub (Particle.p pa) (Particle.p pb)) in
  modify (fun G => mkGlobals (P G)
                             (localConstraints G ++ [LocalConstraint.mk a b d])
                             (lraConstraints G) (attachmentIndices G)
                             (g_iterations G) (g_useLRA G) (g_lraSlack G)).

Definition add_edges (y x : Z) : M unit :=
  (if (x + 1 <? clothW)%Z then addEdge (idx x y) (idx (x + 1) y)
   else ret tt) ;;
  (if (y + 1 <? clothH)%Z then addEdge (idx x y) (idx x (y + 1))
   else ret tt).

(** The scan over [attachmentIndices] for particle [q]: the pair
    [(bestAttach, minInitDist)] after the anchors in [l], in their order. *)
Fixpoint scan_attachments (q : Particle.t F) (l : list Z)
         (best : Z * F) : M (Z * F) :=
  match l with
  | [] => ret best
  | attachID :: t =>
      a <- particle attachID ;;
      let d := glm.length (glm.sub (Particle.p q) (Particle.p a)) in
      scan_attachments q t (if d <? snd best then (attachID, d) else best)
  end.

Definition add_lra (i : Z) : M unit :=
  q <- particle i ;;
  if Particle.pinned q then ret tt
  else
    anchors <- gets attachmentIndices ;;
    r <- scan_attachments q anchors ((-1)%Z, f1e30) ;;
    let (bestAttach, minInitDist) := r in
    if negb (bestAttach =? -1)%Z then
      modify (fun G => mkGlobals (P G) (localConstraints G)
                (lraConstraints G ++ [LRAConstraint.mk i bestAttach minInitDist])
                (attachmentIndices G)
                (g_iterations G) (g_useLRA G) (g_lraSlack G))
    else ret tt.

Definition buildScene : M unit :=
  modify (fun G => mkGlobals
            (repeat Particle_default (Z.to_nat (clothW * clothH))) [] [] []
            (g_iterations G) (g_useLRA G) (g_lraSlack G)) ;;
  (* 1. Init Particles *)
  for_each (zrange clothH) (fun y =>
    for_each (zrange clothW) (fun x => init_particle y x)) ;;
  (* 2. Build Local Constraints (Grid edges) *)
  for_each (zrange clothH) (fun y =>
    for_each (zrange clothW) (fun x => add_edges y x)) ;;
  (* 3. Build LRA Constraints *)
  n <- gets (fun G => zlength (P G)) ;;
  for_each (zrange n) add_lra.
End Build.

(** Projection for Local Constraints (Standard PBD).  [p1] and [p2] are
    references into [P]: the second update reads [P[c.j]] after the first one
    has been written. *)
Definition projectLocal (c : LocalConstraint.t F) : M unit :=
  p1 <- particle (LocalConstraint.i c) ;;
  p2 <- particle (LocalConstraint.j c) ;;
  let dir := glm.sub (Particle.p p1) (Particle.p p2) in
  let dist := glm.length dir in
  if dist <? f1e_6 then ret tt
  else
    let correction := (dist - LocalConstraint.restLen c) * (f1 - f0) in
    let grad := glm.div dir dist in
    let wSum := Particle.w p1 + Particle.w p2 in
    if wSum <? f1e_6 then ret tt
    else
      let dp := glm.lscale (- correction) grad in
      (if negb (Particle.pinned p1) then
         set_p (LocalConstraint.i c)
               (glm.add (Particle.p p1) (glm.scale dp (Particle.w p1 / wSum)))
       else ret tt) ;;
      p2' <- particle (LocalConstraint.j c) ;;
      (if negb (Particle.pinned p2') then
         set_p (LocalConstraint.j c)
               (glm.sub (Particle.p p2') (glm.scale dp (Particle.w p2' / wSum)))
       else ret tt).

(** Projection for LRA (The Core Algorithm). *)
Definition projectLRA (c : LRAConstraint.t F) : M unit :=
  q <- particle (LRAConstraint.particleIdx c) ;;
  attach <- particle (LRAConstraint.attachmentIdx c) ;;
  let dir := glm.sub (Particle.p q) (Particle.p attach) in
  let currentDist := glm.length dir in
  slack <- gets g_lraSlack ;;
  let limit := LRAConstraint.maxDist c * slack in
  if limit <? currentDist then
    if currentDist <? f1e_6 then ret tt
    else
      let correction := glm.scale dir (limit / currentDist) in
      set_p (LRAConstraint.particleIdx c) (glm.add (Particle.p attach) correction)
  else ret tt.

(** The bodies of the three loops of [simulate]. *)
Definition predict (k : Z) : M unit :=
  q <- particle k ;;
  if Particle.pinned q then ret tt
  else
    let v' := glm.add (Particle.v q) (glm.scale g dt) in
    set_v k v' ;;
    set_old_p k (Particle.p q) ;;
    set_p k (glm.add (Particle.p q) (glm.scale v' dt)).

Definition project_pass : M unit :=
  (* (A) Local Constraints (Edges) *)
  cs <- gets localConstraints ;;
  for_each cs projectLocal ;;
  (* (B) LRA Constraints (Global Inextensibility) *)
  useLRA <- gets g_useLRA ;;
  if useLRA then
    ls <- gets lraConstraints ;;
    for_each ls projectLRA
  else ret tt.

Definition update_velocity (k : Z) : M unit :=
  q <- particle k ;;
  if Particle.pinned q then ret tt
  else
    set_v k (glm.div (glm.sub (Particle.p q) (Particle.old_p q)) dt) ;;
    q' <- particle k ;;
    set_v k (glm.scale (Particle.v q') f0_99). (* Simple drag *)

Definition simulate : M unit :=
  (* 1. Explicit Euler Integration (Prediction) *)
  n <- gets (fun G => zlength (P G)) ;;
  for_each (zrange n) predict ;;
  (* 2. Constraint Projection *)
  iters <- gets g_iterations ;;
  for_each (zrange iters) (fun _ => project_pass) ;;
  (* 3. Velocity Update & Damping *)
  for_each (zrange n) update_velocity.
End Core.

(** ** The two scalar instances *)

(** IEEE binary32, round to nearest even.  [b32_rat n d] divides the two
    integers as unnormalised mantissas, so the quotient is rounded once. *)
Module B32.
Definition prec : Z := 24.
Definition emax : Z := 128.

Definition rat (n d : Z) : spec_float :=
  match n, d with
  | Z0, Zpos _ => S754_zero false
  | Zpos a, Zpos b =>
      SFdiv prec emax (S754_finite false a 0) (S754_finite false b 0)
  | Zneg a, Zpos b =>
      SFdiv prec emax (S754_finite true a 0) (S754_finite false b 0)
  | _, _ => S754_nan
  end.

#[export] Instance scalar : Scalar spec_float := {|
  fadd := SFadd prec emax;
  fsub := SFsub prec emax;
  fmul := SFmul prec emax;
  fdiv := SFdiv prec emax;
  fneg := SFopp;
  fsqrt := SFsqrt prec emax;
  fltb := SFltb;
  fleb := SFleb;
  frat := rat
|}.

(** The bit pattern of a (valid) binary32 value, to compare literals with
    the ones a compiler emits. *)
Definition bits (a : spec_float) : Z :=
  match a with
  | S754_zero s => if s then 2 ^ 31 else 0
  | S754_infinity s => (if s then 2 ^ 31 else 0) + 255 * 2 ^ 23
  | S754_nan => 255 * 2 ^ 23 + 2 ^ 22
  | S754_finite s m e =>
      (if s then 2 ^ 31 else 0) +
      (if (Z.pos m <? 2 ^ 23) then Z.pos m
       else (e + 150) * 2 ^ 23 + (Z.pos m - 2 ^ 23))
  end.

(** [SFcompare] orders the non-NaN values by sign class, then exponent, then
    mantissa. *)
Definition key (a : spec_float) : option (Z * Z * Z) :=
  match a with
  | S754_nan => None
  | S754_infinity true => Some (-2, 0, 0)
  | S754_infinity false => Some (2, 0, 0)
  | S754_zero _ => Some (0, 0, 0)
  | S754_finite true m e => Some (-1, - e, - Z.pos m)
  | S754_finite false m e => Some (1, e, Z.pos m)
  end.

Definition key_lt (a b : Z * Z * Z) : Prop :=
  let '(a1, a2, a3) := a in
  let '(b1, b2, b3) := b in
  a1 < b1 \/ (a1 = b1 /\ (a2 < b2 \/ (a2 = b2 /\ a3 < b3))).

(** A zero or a NaN: what the difference of a value and itself is, and what
    [glm.length] computes from three such differences. *)
Definition zero_or_nan (a : spec_float) : Prop :=
  a = S754_nan \/ exists s, a = S754_zero s.
End B32.

(** Exact real arithmetic. *)
Module RealScalar.
Definition ltb (a b : R) : bool := if Rlt_dec a b then true else false.
Definition leb (a b : R) : bool := if Rle_dec a b then true else false.

#[export] Instance scalar : Scalar R := {|
  fadd := Rplus;
  fsub := Rminus;
  fmul := Rmult;
  fdiv := Rdiv;
  fneg := Ropp;
  fsqrt := sqrt;
  fltb := ltb;
  fleb := leb;
  frat := fun n d => (IZR n / IZR d)%R
|}.
End RealScalar.


(** ** The GLUT callbacks

    What the callbacks do to the program state.  Drawing, the window title
    and [printf] write nothing back and are left out.  [idle] reads the clock
    ([glutGet(GLUT_ELAPSED_TIME)]); the value read is carried by the event. *)

Record Camera (F : Type) : Type := mkCamera {
  camDist : F;
  camYaw : F;
  camPitch : F;
  camPan_x : F;
  camPan_y : F;
  lastMouseX : Z;
  lastMouseY : Z;
  lbtn : bool;
  rbtn : bool
}.
Arguments mkCamera {F}.
Arguments camDist {F}.
Arguments camYaw {F}.
Arguments camPitch {F}.
Arguments camPan_x {F}.
Arguments camPan_y {F}.
Arguments lastMouseX {F}.
Arguments lastMouseY {F}.
Arguments lbtn {F}.
Arguments rbtn {F}.

(** The whole mutable state: the simulation globals, the camera and mouse
    globals, and the two [static] locals of [idle]. *)
Record World (F : Type) : Type := mkWorld {
  sim : Globals F;
  cam : Camera F;
  frame : Z;
  t0 : Z
}.
Arguments mkWorld {F}.
Arguments sim {F}.
Arguments cam {F}.
Arguments frame {F}.
Arguments t0 {F}.

Inductive Event : Type :=
| Display
| Idle (t : Z)
| Reshape (w h : Z)
| MouseButton (button state x y : Z)
| MouseMotion (x y : Z)
| Keyboard (key : Z).

(** Result of a callback: the program goes on, has called [exit(0)], or has
    run into undefined behaviour. *)
Inductive Outcome (F : Type) : Type :=
| Running (w : World F)
| Exited
| Undefined.
Arguments Running {F}.
Arguments Exited {F}.
Arguments Undefined {F}.

Section Callbacks.
Context {F : Type} {SF : Scalar F}.
Variables clothW clothH : Z.
Variable spacing : F.
Local Open Scope scalar_scope.

(** freeglut's constants. *)
Definition GLUT_LEFT_BUTTON : Z := 0.
Definition GLUT_RIGHT_BUTTON : Z := 2.
Definition GLUT_DOWN : Z := 0.

Definition with_sim (G : Globals F) (w : World F) : World F :=
  mkWorld G (cam w) (frame w) (t0 w).

Definition lift_sim (m : M unit) (w : World F) : Outcome F :=
  match exec m (sim w) with
  | Some G => Running (with_sim G w)
  | None => Undefined
  end.

Definition idle (t : Z) (w : World F) : Outcome F :=
  match exec simulate (sim w) with
  | Some G =>
      let frame' := (frame w + 1)%Z in
      Running (mkWorld G (cam w) frame'
                       (if (200 <? t - t0 w)%Z then t else t0 w))
  | None => Undefined
  end.

Definition mouseButton (button state x y : Z) (w : World F) : World F :=
  let c := cam w in
  let l := if (button =? GLUT_LEFT_BUTTON)%Z then (state =? GLUT_DOWN)%Z
           else lbtn c in
  let r := if (button =? GLUT_RIGHT_BUTTON)%Z then (state =? GLUT_DOWN)%Z
           else rbtn c in
  mkWorld (sim w)
          (mkCamera (camDist c) (camYaw c) (camPitch c) (camPan_x c)
                    (camPan_y c) x y l r)
          (frame w) (t0 w).

Definition mouseMotion (x y : Z) (w : World F) : World F :=
  let c := cam w in
  let dx := (x - lastMouseX c)%Z in
  let dy := (y - lastMouseY c)%Z in
  let yaw := if lbtn c then camYaw c + of_int dx * frat 5 1000
             else camYaw c in
  let pitch := if lbtn c then camPitch c + of_int dy * frat 5 1000
               else camPitch c in
  let s := frat 2 1000 * camDist c in
  let panx := if rbtn c then camPan_x c + of_int dx * s else camPan_x c in
  let pany := if rbtn c then camPan_y c - of_int dy * s else camPan_y c in
  mkWorld (sim w)
          (mkCamera (camDist c) yaw pitch panx pany x y (lbtn c) (rbtn c))
          (frame w) (t0 w).

Definition set_params (iters : Z) (useLRA : bool) (slack : F)
           (G : Globals F) : Globals F :=
  mkGlobals (P G) (localConstraints G) (lraConstraints G)
            (attachmentIndices G) iters useLRA slack.

Definition set_iterations (n : Z) (G : Globals F) : Globals F :=
  set_params n (g_useLRA G) (g_lraSlack G) G.

(** [std::max(a, b)] *)
Definition fmax (a b : F) : F := if a <? b then b else a.

(** Character codes: 'l' 108, 'L' 76, 'r' 114, 'R' 82, ']' 93, '[' 91,
    '1'..'4' 49..52, ESC 27. *)
Definition keyboard (key : Z) (w : World F) : Outcome F :=
  let G := sim w in
  if (key =? 108)%Z || (key =? 76)%Z then
    Running (with_sim (set_params (g_iterations G) (negb (g_useLRA G))
                                  (g_lraSlack G) G) w)
  else if (key =? 114)%Z || (key =? 82)%Z then
    lift_sim (buildScene clothW clothH spacing) w
  else if (key =? 93)%Z then
    Running (with_sim (set_params (g_iterations G) (g_useLRA G)
                                  (g_lraSlack G + frat 5 100) G) w)
  else if (key =? 91)%Z then
    Running (with_sim (set_params (g_iterations G) (g_useLRA G)
                                  (fmax f1 (g_lraSlack G - frat 5 100)) G) w)
  else if (key =? 49)%Z then Running (with_sim (set_iterations 1 G) w)
  else if (key =? 50)%Z then Running (with_sim (set_iterations 2 G) w)
  else if (key =? 51)%Z then Running (with_sim (set_iterations 5 G) w)
  else if (key =? 52)%Z then Running (with_sim (set_iterations 10 G) w)
  else if (key =? 27)%Z then Exited
  else Running w.

Definition handle (e : Event) (w : World F) : Outcome F :=
  match e with
  | Display => Running w
  | Idle t => idle t w
  | Reshape _ _ => Running w
  | MouseButton b s x y => Running (mouseButton b s x y w)
  | MouseMotion x y => Running (mouseMotion x y w)
  | Keyboard k => keyboard k w
  end.

(** The state in which [main] enters [glutMainLoop]: the initial values of
    the globals, then [buildScene]. *)
Definition initial_globals : Globals F := mkGlobals [] [] [] [] 5 true f1.

Definition initial_camera : Camera F :=
  mkCamera (frat 35 10) f0
           (- frat 15 1 * frat 314159265 100000000 / frat 180 1)
           f0 (- f1) 0 0 false false.

Definition main : Outcome F :=
  lift_sim (buildScene clothW clothH spacing)
           (mkWorld initial_globals initial_camera 0 0).

(** The main loop over a sequence of events, with the particle stores seen
    after each completed tick. *)
Fixpoint mainLoop (es : list Event) (w : World F)
  : list (list (Particle.t F)) * Outcome F :=
  match es with
  | [] => ([], Running w)
  | e :: t =>
      match handle e w with
      | Running w' =>
          let (tr, o) := mainLoop t w' in
          (match e with Idle _ => P (sim w') :: tr | _ => tr end, o)
      | o => ([], o)
      end
  end.

Definition run (es : list Event) : list (list (Particle.t F)) * Outcome F :=
  match main with
  | Running w => mainLoop es w
  | o => ([], o)
  end.
End Callbacks.

(** What of an event the simulation is meant to depend on: that a tick
    happened, or which key was pressed. *)
Inductive SimInput : Type :=
| Tick
| Key (key : Z).

Definition sim_input (e : Event) : option SimInput :=
  match e with
  | Idle _ => Some Tick
  | Keyboard k => Some (Key k)
  | _ => None
  end.

Fixpoint sim_inputs (es : list Event) : list SimInput :=
  match es with
  | [] => []
  | e :: t =>
      match sim_input e with
      | Some a => a :: sim_inputs t
      | None => sim_inputs t
      end
  end.

(** The part of an outcome that belongs to the simulation. *)
Inductive SimOutcome (F : Type) : Type :=
| SimRunning (G : Globals F)
| SimExited
| SimUndefined.
Arguments SimRunning {F}.
Arguments SimExited {F}.
Arguments SimUndefined {F}.

Definition sim_outcome {F : Type} (o : Outcome F) : SimOutcome F :=
  match o with
  | Running w => SimRunning (sim w)
  | Exited => SimExited
  | Undefined => SimUndefined
  end.

Section SimLoop.
Context {F : Type} {SF : Scalar F}.
Variables clothW clothH : Z.
Variable spacing : F.

(** The simulation driven by its inputs alone. *)
Definition sim_handle (a : SimInput) (G : Globals F) : SimOutcome F :=
  match a with
  | Tick =>
      match exec simulate G with
      | Some G' => SimRunning G'
      | None => SimUndefined
      end
  | Key k =>
      sim_outcome (keyboard clothW clothH spacing k
                            (mkWorld G initial_camera 0 0))
  end.

Fixpoint sim_loop (ins : list SimInput) (G : Globals F)
  : list (list (Particle.t F)) * SimOutcome F :=
  match ins with
  | [] => ([], SimRunning G)
  | a :: t =>
      match sim_handle a G with
      | SimRunning G' =>
          let (tr, o) := sim_loop t G' in
          (match a with Tick => P G' :: tr | Key _ => tr end, o)
      | o => ([], o)
      end
  end.
End SimLoop.

(** ** The tick as the specification describes it

    Three stages: predict every free particle, run the projection passes, and
    reconcile the velocity of every free particle.  These definitions follow
    the wording of the specification; [simulate] above follows the code. *)
Section TickSpec.
Context {F : Type} {SF : Scalar F}.
Import Particle.

Definition predict1 (q : Particle.t F) : Particle.t F :=
  if pinned q then q
  else
    let v' := glm.add (v q) (glm.scale g dt) in
    mk (glm.add (p q) (glm.scale v' dt)) (p q) v' (w q) (pinned q).

Definition reconcile1 (q : Particle.t F) : Particle.t F :=
  if pinned q then q
  else
    mk (p q) (old_p q)
       (glm.scale (glm.div (glm.sub (p q) (old_p q)) dt) f0_99) (w q) (pinned q).

Definition map_particles (f : Particle.t F -> Particle.t F) (G : Globals F)
  : Globals F :=
  set_P (map f (P G)) G.

(** Apply a solver to the constraints of [cs], in their order. *)
Definition apply_all {C : Type} (solver : C -> M unit) (cs : list C)
           (G : Globals F) : option (Globals F) :=
  fold_left (fun o c => match o with
                        | Some G' => exec (solver c) G'
                        | None => None
                        end) cs (Some G).

Definition pass_spec (G : Globals F) : option (Globals F) :=
  match apply_all projectLocal (localConstraints G) G with
  | Some G1 =>
      if g_useLRA G then apply_all projectLRA (lraConstraints G) G1
      else Some G1
  | None => None
  end.

Fixpoint passes_spec (n : nat) (G : Globals F) : option (Globals F) :=
  match n with
  | O => Some G
  | S m => match pass_spec G with
           | Some G' => passes_spec m G'
           | None => None
           end
  end.

Definition tick_spec (G : Globals F) : option (Globals F) :=
  option_map (map_particles reconcile1)
             (passes_spec (Z.to_nat (g_iterations G))
                          (map_particles predict1 G)).

(** The step interface: one tick with the given parameters, and a run of
    ticks. *)
Definition step (iters : Z) (useLRA : bool) (slack : F) (G : Globals F)
  : option (Globals F) :=
  exec simulate (set_params iters useLRA slack G).

Fixpoint run_ticks (ticks : list (Z * bool * F)) (G : Globals F)
  : option (Globals F) :=
  match ticks with
  | [] => Some G
  | (iters, useLRA, slack) :: t =>
      match step iters useLRA slack G with
      | Some G' => run_ticks t G'
      | None => None
      end
  end.

(** *** Well-formed scenes

    Constraint indices are in range, every LRA constraint attaches a free
    particle to a pinned one, and no particle has two LRA constraints. *)
Definition in_range {A : Type} (l : list A) (k : Z) : bool :=
  (0 <=? k) && (k <? zlength l).

Definition local_ok (l : list (Particle.t F)) (c : LocalConstraint.t F)
  : bool :=
  in_range l (LocalConstraint.i c) && in_range l (LocalConstraint.j c).

Definition lra_ok (l : list (Particle.t F)) (c : LRAConstraint.t F) : bool :=
  match vget l (LRAConstraint.particleIdx c),
        vget l (LRAConstraint.attachmentIdx c) with
  | Some q, Some a => negb (pinned q) && pinned a
  | _, _ => false
  end.

Fixpoint distinct (l : list Z) : bool :=
  match l with
  | [] => true
  | a :: t => negb (existsb (Z.eqb a) t) && distinct t
  end.

Definition scene_ok (G : Globals F) : bool :=
  forallb (local_ok (P G)) (localConstraints G)
  && forallb (lra_ok (P G)) (lraConstraints G)
  && distinct (map LRAConstraint.particleIdx (lraConstraints G)).

(** What a projection may do to a particle: change its position and nothing
    else, and not even that when the particle is pinned. *)
Definition moved (q q' : Particle.t F) : Prop := q' = with_p (p q') q.

Definition moved_free (q q' : Particle.t F) : Prop :=
  moved q q' /\ (pinned q = true -> q' = q).

(** What a tick may do to a particle: leave its mass and pin flag alone, and
    leave it alone altogether when it is pinned. *)
Definition ticked (q q' : Particle.t F) : Prop :=
  w q' = w q /\ pinned q' = pinned q /\ (pinned q = true -> q' = q).

(** The globals other than [P] are the same in both states. *)
Definition same_globals (G G' : Globals F) : Prop := G' = set_P (P G') G.

(** Relations kept by the loops over the constraints. *)
Definition frame_rel (R : Particle.t F -> Particle.t F -> Prop)
           (G G' : Globals F) : Prop :=
  same_globals G G' /\ Forall2 R (P G) (P G').

(** Distance between the particle and the anchor of an LRA constraint. *)
Definition lra_distance (l : list (Particle.t F)) (c : LRAConstraint.t F)
  : option F :=
  match vget l (LRAConstraint.particleIdx c),
        vget l (LRAConstraint.attachmentIdx c) with
  | Some q, Some a => Some (glm.length (glm.sub (p q) (p a)))
  | _, _ => None
  end.
End TickSpec.

(** ** What the builder produces

    The rest grid cell by cell, in the order of the loops (row by row), and
    the nearest-anchor scan as a function of the particle store. *)
Section BuildSpec.
Context {F : Type} {SF : Scalar F}.
Variables clothW clothH : Z.
Variable spacing : F.
Local Open Scope scalar_scope.

Definition grid_cells : list (Z * Z) :=
  flat_map (fun y => map (fun x => (y, x)) (zrange clothW)) (zrange clothH).

Definition cell_id (c : Z * Z) : Z := idx clothW (snd c) (fst c).

Definition is_corner (c : Z * Z) : bool :=
  (fst c =? 0)%Z && ((snd c =? 0)%Z || (snd c =? clothW - 1)%Z).

Definition rest_position (c : Z * Z) : vec3.t F :=
  vec3.mk ((of_int (snd c) - of_int (clothW - 1) * f0_5) * spacing)
          (of_int (clothH - 1 - fst c) * spacing)
          f0.

Definition rest_particle (c : Z * Z) : Particle.t F :=
  Particle.mk (rest_position c) (rest_position c) (glm.splat f0)
              (if is_corner c then f0 else f1) (is_corner c).
End BuildSpec.

Section NearestSpec.
Context {F : Type} {SF : Scalar F}.
Local Open Scope scalar_scope.

(** Rest distance between two stored particles. *)
Definition rest_distance (l : list (Particle.t F)) (q : Particle.t F)
           (a : Z) : option F :=
  match vget l a with
  | Some pa => Some (glm.length (glm.sub (Particle.p q) (Particle.p pa)))
  | None => None
  end.

Fixpoint nearest (l : list (Particle.t F)) (q : Particle.t F)
         (anchors : list Z) (best : Z * F) : Z * F :=
  match anchors with
  | [] => best
  | a :: t =>
      match rest_distance l q a with
      | Some d => nearest l q t (if d <? snd best then (a, d) else best)
      | None => best
      end
  end.

(** The LRA constraints added for particle [i]: none or one. *)
Definition lra_of (l : list (Particle.t F)) (anchors : list Z) (i : Z)
  : list (LRAConstraint.t F) :=
  match vget l i with
  | Some q =>
      if Particle.pinned q then []
      else
        let r := nearest l q anchors ((-1)%Z, f1e30) in
        if negb (fst r =? -1)%Z then [LRAConstraint.mk i (fst r) (snd r)]
        else []
  | None => []
  end.
End NearestSpec.
(** ** The grid edges

    The local constraints in the order of the edge loops: for each cell, the
    edge to its right neighbour, then the edge to the neighbour below. *)
Section EdgeSpec.
Context {F : Type} {SF : Scalar F}.
Variables clothW clothH : Z.
Variable spacing : F.

Definition rest_edge (c c' : Z * Z) : LocalConstraint.t F :=
  LocalConstraint.mk
    (cell_id clothW c) (cell_id clothW c')
    (glm.length (glm.sub (rest_position clothW clothH spacing c)
                         (rest_position clothW clothH spacing c'))).

Definition cell_edges (c : Z * Z) : list (LocalConstraint.t F) :=
  (if (snd c + 1 <? clothW)%Z then [rest_edge c (fst c, snd c + 1)] else [])
  ++ (if (fst c + 1 <? clothH)%Z then [rest_edge c (fst c + 1, snd c)]
      else []).

Definition grid_edges : list (LocalConstraint.t F) :=
  flat_map cell_edges (grid_cells clothW clothH).

(** The scene [buildScene] leaves behind, the parameters being those of the
    state it started from. *)
Definition built_particles : list (Particle.t F) :=
  map (rest_particle clothW clothH spacing) (grid_cells clothW clothH).

Definition built_anchors : list Z :=
  map (cell_id clothW) (filter (is_corner clothW) (grid_cells clothW clothH)).

Definition built_scene (G0 : Globals F) : Globals F :=
  mkGlobals built_particles grid_edges
            (flat_map (lra_of built_particles built_anchors)
                      (zrange (clothW * clothH)))
            built_anchors
            (g_iterations G0) (g_useLRA G0) (g_lraSlack G0).
End EdgeSpec.

(** ** The bounds of a tick

    The indices a projection pass reads: both end points of every local
    constraint and, when LRA is enabled, the particle and the anchor of every
    LRA constraint. *)
Section Bounds.
Context {F : Type}.

Definition lra_in_range (l : list (Particle.t F)) (c : LRAConstraint.t F)
  : bool :=
  in_range l (LRAConstraint.particleIdx c)
  && in_range l (LRAConstraint.attachmentIdx c).

Definition pass_in_bounds (G : Globals F) : bool :=
  forallb (fun c => in_range (P G) (LocalConstraint.i c)
                    && in_range (P G) (LocalConstraint.j c))
          (localConstraints G)
  && (negb (g_useLRA G) || forallb (lra_in_range (P G)) (lraConstraints G)).

(** No LRA constraint of [cs] has a pinned particle to move. *)
Definition lra_targets_free (l : list (Particle.t F))
           (cs : list (LRAConstraint.t F)) : Prop :=
  forall c q, In c cs -> vget l (LRAConstraint.particleIdx c) = Some q ->
              Particle.pinned q = false.

(** The state with other LRA constraints and another anchor list. *)
Definition with_lra (L : list (LRAConstraint.t F)) (A : list Z)
           (G : Globals F) : Globals F :=
  mkGlobals (P G) (localConstraints G) L A
            (g_iterations G) (g_useLRA G) (g_lraSlack G).
End Bounds.

(** ** What the main loop keeps

    The shape of the scene that [main] builds: the constraints and the anchor
    list as built, and particles that differ from the built ones by what
    ticks may change. *)
Section LoopSpec.
Context {F : Type} {SF : Scalar F}.
Variables clothW clothH : Z.
Variable spacing : F.

Definition built_shape (G : Globals F) : Prop :=
  localConstraints G = grid_edges clothW clothH spacing /\
  lraConstraints G
  = flat_map (lra_of (built_particles clothW clothH spacing)
                     (built_anchors clothW clothH))
             (zrange (clothW * clothH)) /\
  attachmentIndices G = built_anchors clothW clothH /\
  Forall2 ticked (built_particles clothW clothH spacing) (P G).

Definition loop_invariant (w : World F) : Prop :=
  scene_ok (sim w) = true /\
  In (g_iterations (sim w)) [1; 2; 5; 10] /\
  built_shape (sim w).

(** The camera as the mouse events alone move it. *)
Definition mouse_step (e : Event) (c : Camera F) : Camera F :=
  match e with
  | MouseButton b s x y =>
      cam (mouseButton b s x y (mkWorld initial_globals c 0 0))
  | MouseMotion x y => cam (mouseMotion x y (mkWorld initial_globals c 0 0))
  | _ => c
  end.

Definition is_idle (e : Event) : bool :=
  match e with Idle _ => true | _ => false end.
End LoopSpec.

(** ** Drawing

    [display] writes nothing to the program state; what it does is the
    sequence of OpenGL calls it issues, which is modelled as its result.
    Reading [P[k]] out of range has no result, as in the simulation. *)
Inductive Primitive : Type :=
| GL_LINES
| GL_POINTS.

Inductive GLCall (F : Type) : Type :=
| glClear                          (* colour and depth buffers *)
| glMatrixMode_MODELVIEW
| glLoadIdentity
| glTranslatef (x y z : F)
| glRotatef (angle x y z : F)
| glColor3f (r g b : F)
| glColor4f (r g b a : F)
| glBegin (mode : Primitive)
| glVertex3fv (v : vec3.t F)
| glEnd
| glPointSize (size : F)
| glEnable_BLEND
| glBlendFunc_SRC_ALPHA_ONE_MINUS_SRC_ALPHA
| glDisable_BLEND
| glutSwapBuffers.
Arguments glClear {F}.
Arguments glMatrixMode_MODELVIEW {F}.
Arguments glLoadIdentity {F}.
Arguments glTranslatef {F}.
Arguments glRotatef {F}.
Arguments glColor3f {F}.
Arguments glColor4f {F}.
Arguments glBegin {F}.
Arguments glVertex3fv {F}.
Arguments glEnd {F}.
Arguments glPointSize {F}.
Arguments glEnable_BLEND {F}.
Arguments glBlendFunc_SRC_ALPHA_ONE_MINUS_SRC_ALPHA {F}.
Arguments glDisable_BLEND {F}.
Arguments glutSwapBuffers {F}.

Section Display.
Context {F : Type} {SF : Scalar F}.
Local Open Scope scalar_scope.

(** The calls of a loop whose body issues the calls [body a]. *)
Fixpoint draw_each {A : Type} (l : list A)
         (body : A -> option (list (GLCall F)))
  : option (list (GLCall F)) :=
  match l with
  | [] => Some []
  | a :: t =>
      match body a with
      | Some calls =>
          match draw_each t body with
          | Some rest => Some (calls ++ rest)
          | None => None
          end
      | None => None
      end
  end.

(** The two [glVertex3fv] calls of a segment between [P[a]] and [P[b]]. *)
Definition draw_segment (l : list (Particle.t F)) (a b : Z)
  : option (list (GLCall F)) :=
  match vget l a with
  | Some pa =>
      match vget l b with
      | Some pb =>
          Some [glVertex3fv (Particle.p pa); glVertex3fv (Particle.p pb)]
      | None => None
      end
  | None => None
  end.

Definition draw_point (l : list (Particle.t F)) (k : Z)
  : option (list (GLCall F)) :=
  match vget l k with
  | Some q =>
      Some [if Particle.pinned q
            then glColor3f f1 (frat 2 10) (frat 2 10)   (* red: attachment *)
            else glColor3f (frat 2 10) (frat 4 10) f1;  (* blue: free *)
            glVertex3fv (Particle.p q)]
  | None => None
  end.

Definition display (w : World F) : option (list (GLCall F)) :=
  let G := sim w in
  let c := cam w in
  let pi := frat 314159265 100000000 in
  match draw_each (localConstraints G)
          (fun c => draw_segment (P G) (LocalConstraint.i c)
                                 (LocalConstraint.j c)) with
  | Some lines =>
      match draw_each (zrange (zlength (P G))) (draw_point (P G)) with
      | Some points =>
          match (if g_useLRA G then
                   match draw_each (lraConstraints G)
                           (fun c => draw_segment (P G)
                                       (LRAConstraint.particleIdx c)
                                       (LRAConstraint.attachmentIdx c)) with
                   | Some segs =>
                       Some ([glColor3f f0 f1 f0;
                              glEnable_BLEND;
                              glBlendFunc_SRC_ALPHA_ONE_MINUS_SRC_ALPHA;
                              glColor4f (frat 2 10) f1 (frat 2 10)
                                        (frat 15 100);
                              glBegin GL_LINES]
                             ++ segs ++ [glEnd; glDisable_BLEND])
                   | None => None
                   end
                 else Some []) with
          | Some attachments =>
              Some ([glClear; glMatrixMode_MODELVIEW; glLoadIdentity;
                     glTranslatef (camPan_x c) (camPan_y c) (- camDist c);
                     glRotatef (camPitch c * frat 180 1 / pi) f1 f0 f0;
                     glRotatef (camYaw c * frat 180 1 / pi) f0 f1 f0;
                     glColor3f (frat 8 10) (frat 8 10) (frat 9 10);
                     glBegin GL_LINES]
                    ++ lines
                    ++ [glEnd; glPointSize (frat 3 1); glBegin GL_POINTS]
                    ++ points ++ [glEnd]
                    ++ attachments ++ [glutSwapBuffers])
          | None => None
          end
      | None => None
      end
  | None => None
  end.

(** The vertices a sequence of calls sends, in order. *)
Definition vertices (calls : list (GLCall F)) : list (vec3.t F) :=
  flat_map (fun g => match g with glVertex3fv v => [v] | _ => [] end) calls.
End Display.

(** ** Not-a-number positions (binary32) *)

(** Some coordinate of [a] is a NaN. *)
Definition has_nan (a : vec3.t spec_float) : Prop :=
  vec3.x a = S754_nan \/ vec3.y a = S754_nan \/ vec3.z a = S754_nan.

(** The vector whose three coordinates are NaN. *)
Definition nan3 : vec3.t spec_float := vec3.mk S754_nan S754_nan S754_nan.

(** The particle in slot [k] has a NaN coordinate. *)
Definition nan_at (l : list (Particle.t spec_float)) (k : Z) : Prop :=
  exists q, vget l k = Some q /\ has_nan (Particle.p q).

(** Two free particles tied by a local and an LRA constraint, the first of
    them at a NaN position. *)
Definition sick_pair : Globals spec_float :=
  mkGlobals
    [Particle.mk nan3 nan3 (glm.splat (@f0 _ B32.scalar))
                 (@f1 _ B32.scalar) false;
     Particle.mk (glm.splat (@f0 _ B32.scalar)) (glm.splat (@f0 _ B32.scalar))
                 (glm.splat (@f0 _ B32.scalar)) (@f1 _ B32.scalar) false]
    [LocalConstraint.mk 0 1 (@f1 _ B32.scalar)]
    [LRAConstraint.mk 0 1 (@f1 _ B32.scalar)]
    [] 5 true (@f1 _ B32.scalar).

(** ** The builder with the pin rule as a parameter *)

Section PinRule.
Context {F : Type} {SF : Scalar F}.
Local Open Scope scalar_scope.

(** [buildScene] decides which particles to pin by the expression
    [y == 0 && (x == 0 || x == clothW - 1)].  Here that expression is the
    parameter [isPinned], applied to the grid coordinate [(x, y)]; everything
    else is [buildScene] as it stands. *)
Variable isPinned : Z -> Z -> bool.
Variables clothW clothH : Z.
Variable spacing : F.

Definition init_particle_with (y x : Z) : M unit :=
  let id := idx clothW x y in
  set_p id (vec3.mk ((of_int x - of_int (clothW - 1) * f0_5) * spacing)
                    (of_int (clothH - 1 - y) * spacing)
                    f0) ;;
  q <- particle id ;;
  set_old_p id (Particle.p q) ;;
  set_v id (glm.splat f0) ;;
  if isPinned x y then
    set_w id f0 ;;
    set_pinned id true ;;
    modify (fun G => mkGlobals (P G) (localConstraints G) (lraConstraints G)
                               (attachmentIndices G ++ [id])
                               (g_iterations G) (g_useLRA G) (g_lraSlack G))
  else
    set_w id f1 ;;
    set_pinned id false.

Definition buildSceneWith : M unit :=
  modify (fun G => mkGlobals
            (repeat Particle_default (Z.to_nat (clothW * clothH))) [] [] []
            (g_iterations G) (g_useLRA G) (g_lraSlack G)) ;;
  for_each (zrange clothH) (fun y =>
    for_each (zrange clothW) (fun x => init_particle_with y x)) ;;
  for_each (zrange clothH) (fun y =>
    for_each (zrange clothW) (fun x => add_edges clothW clothH y x)) ;;
  n <- gets (fun G => zlength (P G)) ;;
  for_each (zrange n) add_lra.
End PinRule.

(** The pin rule of the source: the two top corners. *)
Definition top_corners (clothW : Z) (x y : Z) : bool :=
  (y =? 0)%Z && ((x =? 0)%Z || (x =? clothW - 1)%Z).

(** The pin rule that pins the grid coordinate (0,0) and nothing else. *)
Definition origin_only (x y : Z) : bool := (y =? 0)%Z && (x =? 0)%Z.

(** ** What the last LRA pass leaves behind *)

Section Settled.
Context {F : Type} {SF : Scalar F}.
Import Particle.
Local Open Scope scalar_scope.

(** The state of an LRA constraint after the last pass of a tick, in the
    terms of [projectLRA] itself, with [limit = maxDist * slack]: both
    particles exist, and either the test [currentDist > limit] of the source
    fails at the stored positions, or the coincidence guard
    [currentDist < 1e-6] holds there, or the particle sits at the very point
    [attach.p + dir * (limit / currentDist)] that the projection computes
    from some position [p0] that the test found beyond the limit. *)
Definition lra_settled (l : list (Particle.t F)) (slack : F)
           (c : LRAConstraint.t F) : Prop :=
  exists q a,
    vget l (LRAConstraint.particleIdx c) = Some q /\
    vget l (LRAConstraint.attachmentIdx c) = Some a /\
    let limit := LRAConstraint.maxDist c * slack in
    let d := glm.length (glm.sub (p q) (p a)) in
    (limit <? d) = false \/
    (d <? f1e_6) = true \/
    exists p0 : vec3.t F,
      let dir := glm.sub p0 (p a) in
      let d0 := glm.length dir in
      (limit <? d0) = true /\ (d0 <? f1e_6) = false /\
      p q = glm.add (p a) (glm.scale dir (limit / d0)).
End Settled.

(** ** Two concrete scenes

    The 3 x 3 grid with spacing 1.0 as [buildScene] builds it in binary32,
    and a pendulum over the reals: one anchor, one free particle hanging one
    unit below it, tied by one local and one LRA constraint. *)
Definition grid3 : Globals spec_float :=
  Eval vm_compute in
    match exec (@buildScene _ B32.scalar 3 3 (@f1 _ B32.scalar))
               (@initial_globals _ B32.scalar) with
    | Some G => G
    | None => @initial_globals _ B32.scalar
    end.

Definition pendulum : Globals R :=
  mkGlobals
    [Particle.mk (vec3.mk 0 0 0) (vec3.mk 0 0 0) (vec3.mk 0 0 0) 0 true;
     Particle.mk (vec3.mk 0 (-1) 0) (vec3.mk 0 (-1) 0) (vec3.mk 0 0 0)
                 1 false]%R
    [LocalConstraint.mk 0 1 1%R]
    [LRAConstraint.mk 1 0 1%R]
    [0] 5 true 1%R.

(** The [k]-th particle of a store. *)
Definition particle_of {F : Type} {SF : Scalar F} (G : Globals F) (k : nat)
  : Particle.t F :=
  nth k (P G) Particle_default.

(** Whether every LRA constraint of [G] has its particle within
    [maxDist * slack + eps] of its anchor, by the comparisons of [F]. *)
Definition lra_within {F : Type} {SF : Scalar F} (eps : F) (G : Globals F)
  : bool :=
  forallb (fun c =>
             match lra_distance (P G) c with
             | Some d =>
                 fleb d (fadd (fmul (LRAConstraint.maxDist c) (g_lraSlack G))
                              eps)
             | None => false
             end)
          (lraConstraints G).

(** Whether every free particle of [G] has an anchor closer than the bound
    [1e30f] from which the nearest-anchor scan starts. *)
Definition anchors_within_bound {F : Type} {SF : Scalar F} (G : Globals F)
  : bool :=
  forallb (fun q =>
             Particle.pinned q
             || existsb (fun a =>
                           match rest_distance (P G) q a with
                           | Some d => fltb d f1e30
                           | None => false
                           end)
                        (attachmentIndices G))
          (P G).

(** * Properties *)

(** ** Indexed vectors *)

Section VectorFacts.
Context {A : Type}.
Implicit Types (l : list A) (k : Z) (a : A).

Lemma vget_Some_range l k a : vget l k = Some a -> 0 <= k < zlength l.
Proof.
  unfold vget, zlength. destruct (Z.ltb_spec k 0); [discriminate|].
  intros E. assert (Z.to_nat k < length l)%nat.
  { apply nth_error_Some. congruence. }
  lia.
Qed.

Lemma vget_in_range l k : 0 <= k < zlength l -> exists a, vget l k = Some a.
Proof.
  unfold vget, zlength. intros Hk.
  destruct (Z.ltb_spec k 0); [lia|].
  destruct (nth_error l (Z.to_nat k)) eqn:E; [eauto|].
  apply nth_error_None in E. lia.
Qed.

Lemma vget_None l k : vget l k = None -> k < 0 \/ zlength l <= k.
Proof.
  intros E. destruct (Z_lt_dec k 0); [now left|right].
  destruct (Z_le_dec (zlength l) k); [assumption|].
  destruct (@vget_in_range l k) as [a Ha]; [lia|congruence].
Qed.

Lemma in_range_true l k : in_range l k = true <-> 0 <= k < zlength l.
Proof. unfold in_range. rewrite andb_true_iff, Z.leb_le, Z.ltb_lt. tauto. Qed.

Lemma in_range_vget l k : in_range l k = true <-> exists a, vget l k = Some a.
Proof.
  rewrite in_range_true. split.
  - apply vget_in_range.
  - intros [a Ha]. eapply vget_Some_range; eauto.
Qed.

Lemma replace_nth_length l n a : length (replace_nth l n a) = length l.
Proof.
  revert n. induction l as [|h t IH]; intros [|n]; simpl; auto.
Qed.

Lemma nth_error_replace_nth_same l n a :
  (n < length l)%nat -> nth_error (replace_nth l n a) n = Some a.
Proof.
  revert n. induction l as [|h t IH]; intros [|n]; simpl; intros Hn;
    try lia; auto. apply IH. lia.
Qed.

Lemma nth_error_replace_nth_other l n m a :
  n <> m -> nth_error (replace_nth l n a) m = nth_error l m.
Proof.
  revert n m. induction l as [|h t IH]; intros [|n] [|m]; simpl; intros Hn;
    try congruence; auto.
Qed.

Lemma vset_total l k a b : vget l k = Some b -> exists l', vset l k a = Some l'.
Proof. unfold vset. intros ->. eauto. Qed.

Lemma vset_length l k a l' : vset l k a = Some l' -> length l' = length l.
Proof.
  unfold vset. destruct (vget l k); [|discriminate].
  intros [= <-]. apply replace_nth_length.
Qed.

Lemma vset_zlength l k a l' : vset l k a = Some l' -> zlength l' = zlength l.
Proof. unfold zlength. intros E. now rewrite (vset_length _ _ _ _ E). Qed.

Lemma vget_vset_same l k a l' : vset l k a = Some l' -> vget l' k = Some a.
Proof.
  unfold vset. destruct (vget l k) as [b|] eqn:E; [|discriminate].
  intros [= <-]. apply vget_Some_range in E. unfold zlength in E.
  unfold vget. destruct (Z.ltb_spec k 0); [lia|].
  apply nth_error_replace_nth_same. lia.
Qed.

Lemma vget_vset_other l k a l' k' :
  vset l k a = Some l' -> k' <> k -> vget l' k' = vget l k'.
Proof.
  unfold vset. destruct (vget l k) as [b|] eqn:E; [|discriminate].
  intros [= <-] Hk. apply vget_Some_range in E.
  unfold vget. destruct (Z.ltb_spec k' 0); [reflexivity|].
  apply nth_error_replace_nth_other. lia.
Qed.

Lemma vget_ext l l' :
  length l = length l' -> (forall k, vget l k = vget l' k) -> l = l'.
Proof.
  intros Hlen H. apply nth_error_ext. intros n.
  specialize (H (Z.of_nat n)). unfold vget in H.
  destruct (Z.ltb_spec (Z.of_nat n) 0); [lia|].
  now rewrite Nat2Z.id in H.
Qed.

Lemma vget_app_l l l' k : k < zlength l -> vget (l ++ l') k = vget l k.
Proof.
  unfold vget, zlength. intros Hk. destruct (Z.ltb_spec k 0); [reflexivity|].
  apply nth_error_app1. lia.
Qed.

Lemma vget_length_app l a l' : vget (l ++ a :: l') (zlength l) = Some a.
Proof.
  unfold vget, zlength. destruct (Z.ltb_spec (Z.of_nat (length l)) 0); [lia|].
  rewrite Nat2Z.id, nth_error_app2, Nat.sub_diag by lia. reflexivity.
Qed.

Lemma vset_length_app l a b l' :
  vset (l ++ a :: l') (zlength l) b = Some (l ++ b :: l').
Proof.
  unfold vset. rewrite vget_length_app. f_equal.
  unfold zlength. rewrite Nat2Z.id.
  induction l as [|h t IH]; simpl; [reflexivity|]. now rewrite IH.
Qed.

Lemma zrange_length n : length (zrange n) = Z.to_nat n.
Proof. unfold zrange. now rewrite length_map, length_seq. Qed.

Lemma in_zrange n k : In k (zrange n) <-> 0 <= k < n.
Proof.
  unfold zrange. rewrite in_map_iff. split.
  - intros [m [<- Hm]]. apply in_seq in Hm. lia.
  - intros Hk. exists (Z.to_nat k). split; [lia|]. apply in_seq. lia.
Qed.

Lemma zrange_succ n : 0 <= n -> zrange (n + 1) = zrange n ++ [n].
Proof.
  intros Hn. unfold zrange.
  replace (Z.to_nat (n + 1)) with (Z.to_nat n + 1)%nat by lia.
  rewrite seq_app, map_app. simpl. now rewrite Z2Nat.id by lia.
Qed.

Lemma zrange_nonpos n : n <= 0 -> zrange n = [].
Proof.
  intros Hn. unfold zrange. now replace (Z.to_nat n) with O by lia.
Qed.

Lemma zrange_split n (pre post : list Z) k :
  zrange n = pre ++ k :: post -> k = zlength pre.
Proof.
  unfold zrange, zlength. intros E.
  assert (H : nth_error (map Z.of_nat (seq 0 (Z.to_nat n))) (length pre)
              = Some k).
  { rewrite E, nth_error_app2, Nat.sub_diag by lia. reflexivity. }
  rewrite nth_error_map in H.
  destruct (nth_error (seq 0 (Z.to_nat n)) (length pre)) as [m|] eqn:Em;
    [|discriminate].
  simpl in H. injection H as <-.
  assert (Hlt : (length pre < length (seq 0 (Z.to_nat n)))%nat).
  { apply nth_error_Some. congruence. }
  rewrite length_seq in Hlt.
  rewrite nth_error_nth' with (d := O) in Em by (now rewrite length_seq).
  rewrite seq_nth in Em by assumption. injection Em as <-. reflexivity.
Qed.
End VectorFacts.

(** ** Running the monad *)

Section MonadFacts.
Context {F : Type}.
Implicit Types (G : Globals F) (q : Particle.t F).

Lemma set_P_P l G : P (set_P l G) = l.
Proof. reflexivity. Qed.

Lemma set_P_same G : set_P (P G) G = G.
Proof. now destruct G. Qed.

Lemma set_P_set_P l l' G : set_P l (set_P l' G) = set_P l G.
Proof. reflexivity. Qed.

Lemma bind_run {A B} (m : M A) (k : A -> M B) G a G1 :
  m G = Some (a, G1) -> bind m k G = k a G1.
Proof. unfold bind. now intros ->. Qed.

Lemma bind_inv {A B} (m : M A) (k : A -> M B) G b G' :
  bind m k G = Some (b, G') ->
  exists a G1, m G = Some (a, G1) /\ k a G1 = Some (b, G').
Proof.
  unfold bind. destruct (m G) as [[a G1]|]; [|discriminate]. eauto.
Qed.

Lemma exec_Some (m : M unit) G G' :
  exec m G = Some G' <-> m G = Some (tt, G').
Proof.
  unfold exec. destruct (m G) as [[[] G1]|]; split; congruence.
Qed.

Lemma exec_None (m : M unit) G : exec m G = None <-> m G = None.
Proof.
  unfold exec. destruct (m G) as [[[] G1]|]; split; congruence.
Qed.

Lemma exec_bind {A} (m : M A) (k : A -> M unit) G a G1 :
  m G = Some (a, G1) -> exec (bind m k) G = exec (k a) G1.
Proof. unfold exec, bind. now intros ->. Qed.

Lemma exec_seq (m : M unit) (k : M unit) G :
  exec (m ;; k) G = match exec m G with
                    | Some G1 => exec k G1
                    | None => None
                    end.
Proof.
  unfold exec, bind. destruct (m G) as [[[] G1]|]; reflexivity.
Qed.

Lemma particle_run G k q :
  vget (P G) k = Some q -> particle k G = Some (q, G).
Proof. unfold particle. now intros ->. Qed.

Lemma particle_inv G k q G' :
  particle k G = Some (q, G') -> G' = G /\ vget (P G) k = Some q.
Proof.
  unfold particle. destruct (vget (P G) k); [|discriminate].
  intros [= -> ->]. auto.
Qed.

Lemma update_particle_inv G k f G' :
  exec (update_particle k f) G = Some G' ->
  exists q l, vget (P G) k = Some q /\ vset (P G) k (f q) = Some l /\
              G' = set_P l G.
Proof.
  unfold exec, update_particle.
  destruct (vget (P G) k) as [q|]; [|discriminate].
  destruct (vset (P G) k (f q)) as [l|] eqn:E; [|discriminate].
  intros [= <-]. exists q, l. auto.
Qed.

Lemma update_particle_run G k f q :
  vget (P G) k = Some q ->
  exists l, vset (P G) k (f q) = Some l /\
            exec (update_particle k f) G = Some (set_P l G).
Proof.
  intros E. destruct (vset_total (P G) k (f q) _ E) as [l Hl].
  exists l. split; [assumption|].
  unfold exec, update_particle. now rewrite E, Hl.
Qed.

Lemma for_each_app {A} (l1 l2 : list A) (body : A -> M unit) G :
  exec (for_each (l1 ++ l2) body) G =
  match exec (for_each l1 body) G with
  | Some G1 => exec (for_each l2 body) G1
  | None => None
  end.
Proof.
  revert G. induction l1 as [|a t IH]; intros G; simpl.
  - reflexivity.
  - rewrite !exec_seq. destruct (exec (body a) G); [apply IH|reflexivity].
Qed.

Lemma for_each_cons {A} (a : A) (t : list A) (body : A -> M unit) G :
  exec (for_each (a :: t) body) G =
  match exec (body a) G with
  | Some G1 => exec (for_each t body) G1
  | None => None
  end.
Proof. simpl. apply exec_seq. Qed.

(** A loop invariant indexed by the elements already visited. *)
Lemma for_each_invariant {A} (Inv : list A -> Globals F -> Prop)
      (l : list A) (body : A -> M unit) G :
  Inv [] G ->
  (forall pre a post G1,
      l = pre ++ a :: post -> Inv pre G1 ->
      exists G2, exec (body a) G1 = Some G2 /\ Inv (pre ++ [a]) G2) ->
  exists G', exec (for_each l body) G = Some G' /\ Inv l G'.
Proof.
  intros H0 Hstep.
  assert (Hgen : forall post pre G1,
             l = pre ++ post -> Inv pre G1 ->
             exists G', exec (for_each post body) G1 = Some G' /\ Inv l G').
  { induction post as [|a t IH]; intros pre G1 El Hpre.
    - rewrite app_nil_r in El. subst pre. exists G1. split; [reflexivity|auto].
    - destruct (Hstep pre a t G1 El Hpre) as [G2 [E2 H2]].
      rewrite for_each_cons, E2. apply (IH (pre ++ [a])); [|assumption].
      now rewrite <- app_assoc. }
  now apply (Hgen l []).
Qed.

(** The same for partial correctness: whatever the loop returns satisfies
    the invariant. *)
Lemma for_each_preserves {A} (Inv : Globals F -> Prop)
      (l : list A) (body : A -> M unit) :
  (forall a G1 G2, In a l -> Inv G1 -> exec (body a) G1 = Some G2 -> Inv G2) ->
  forall G G', Inv G -> exec (for_each l body) G = Some G' -> Inv G'.
Proof.
  induction l as [|a t IH]; intros Hstep G G' HG E.
  - injection E as <-. assumption.
  - rewrite for_each_cons in E.
    destruct (exec (body a) G) as [G1|] eqn:E1; [|discriminate].
    apply IH with (G := G1); [|eapply Hstep; eauto; now left|assumption].
    intros b Ga Gb Hb. apply Hstep. now right.
Qed.

Lemma apply_all_for_each {C} (solver : C -> M unit) (cs : list C) G :
  apply_all solver cs G = exec (for_each cs solver) G.
Proof.
  unfold apply_all.
  assert (Hnone : forall l : list C,
             fold_left (fun o c => match o with
                                   | Some G' => exec (solver c) G'
                                   | None => None
                                   end) l None = None).
  { induction l; simpl; auto. }
  revert G. induction cs as [|c t IH]; intros G; simpl.
  - reflexivity.
  - rewrite exec_seq. destruct (exec (solver c) G); [apply IH|apply Hnone].
Qed.
End MonadFacts.

(** ** The two projections *)

Section SolverFacts.
Context {F : Type} {SF : Scalar F}.
Implicit Types (G : Globals F) (q : Particle.t F).
Import Particle.

Lemma moved_refl q : moved q q.
Proof. unfold moved, with_p. now destruct q. Qed.

Lemma moved_trans q1 q2 q3 : moved q1 q2 -> moved q2 q3 -> moved q1 q3.
Proof.
  unfold moved, with_p. destruct q1, q2, q3; simpl.
  intros [= -> -> -> ->] [= -> -> -> ->]. reflexivity.
Qed.

Lemma moved_with_p a q : moved q (with_p a q).
Proof. reflexivity. Qed.

Lemma moved_free_refl q : moved_free q q.
Proof. split; [apply moved_refl|auto]. Qed.

Lemma moved_free_trans q1 q2 q3 :
  moved_free q1 q2 -> moved_free q2 q3 -> moved_free q1 q3.
Proof.
  intros [H1 H1'] [H2 H2']. split; [eapply moved_trans; eauto|].
  intros Hp. rewrite <- (H1' Hp). apply H2'. now rewrite (H1' Hp).
Qed.

Lemma moved_fields q q' :
  moved q q' ->
  old_p q' = old_p q /\ v q' = v q /\ w q' = w q /\ pinned q' = pinned q.
Proof. unfold moved. intros ->. simpl. auto. Qed.

Lemma same_globals_refl G : same_globals G G.
Proof. unfold same_globals. now rewrite set_P_same. Qed.

Lemma same_globals_trans G1 G2 G3 :
  same_globals G1 G2 -> same_globals G2 G3 -> same_globals G1 G3.
Proof. unfold same_globals. intros -> ->. reflexivity. Qed.

Lemma same_globals_set_P l G : same_globals G (set_P l G).
Proof. reflexivity. Qed.

Lemma same_globals_fields G G' :
  same_globals G G' ->
  localConstraints G' = localConstraints G /\
  lraConstraints G' = lraConstraints G /\
  attachmentIndices G' = attachmentIndices G /\
  g_iterations G' = g_iterations G /\
  g_useLRA G' = g_useLRA G /\
  g_lraSlack G' = g_lraSlack G.
Proof. unfold same_globals. intros ->. simpl. tauto. Qed.

(** A single write, seen through a relation on particles. *)
Lemma vset_Forall2 (R : Particle.t F -> Particle.t F -> Prop) l k q a l' :
  (forall x, R x x) -> vget l k = Some q -> R q a ->
  vset l k a = Some l' -> Forall2 R l l'.
Proof.
  intros Hrefl Hq HR. unfold vset. rewrite Hq. intros [= <-].
  unfold vget in Hq. destruct (Z.ltb_spec k 0); [discriminate|].
  revert Hq. generalize (Z.to_nat k). clear H.
  induction l as [|h t IH]; intros [|n]; simpl; try discriminate.
  - intros [= ->]. constructor; [assumption|].
    clear IH. induction t; constructor; auto.
  - intros Hq. constructor; auto.
Qed.

Lemma Forall2_refl' (R : Particle.t F -> Particle.t F -> Prop) l :
  (forall x, R x x) -> Forall2 R l l.
Proof. intros H. induction l; constructor; auto. Qed.

Lemma Forall2_trans' (R : Particle.t F -> Particle.t F -> Prop) l1 l2 l3 :
  (forall x y z, R x y -> R y z -> R x z) ->
  Forall2 R l1 l2 -> Forall2 R l2 l3 -> Forall2 R l1 l3.
Proof.
  intros Ht H12. revert l3. induction H12; intros l3 H23; inversion H23; subst;
    constructor; eauto.
Qed.

Lemma Forall2_vget (R : Particle.t F -> Particle.t F -> Prop) l l' k q :
  Forall2 R l l' -> vget l k = Some q ->
  exists q', vget l' k = Some q' /\ R q q'.
Proof.
  unfold vget. destruct (Z.ltb_spec k 0); [discriminate|].
  generalize (Z.to_nat k). intros n HF. revert n.
  induction HF; intros [|n]; simpl; try discriminate.
  - intros [= ->]. eauto.
  - apply IHHF.
Qed.

Lemma Forall2_vget_inv (R : Particle.t F -> Particle.t F -> Prop) l l' k q' :
  Forall2 R l l' -> vget l' k = Some q' ->
  exists q, vget l k = Some q /\ R q q'.
Proof.
  unfold vget. destruct (Z.ltb_spec k 0); [discriminate|].
  generalize (Z.to_nat k). intros n HF. revert n.
  induction HF; intros [|n]; simpl; try discriminate.
  - intros [= ->]. eauto.
  - apply IHHF.
Qed.

Lemma Forall2_zlength (R : Particle.t F -> Particle.t F -> Prop) l l' :
  Forall2 R l l' -> zlength l' = zlength l.
Proof. intros H. unfold zlength. now rewrite (Forall2_length H). Qed.

(** *** projectLRA *)

Lemma set_p_run G k a q :
  vget (P G) k = Some q ->
  exists l, vset (P G) k (with_p a q) = Some l /\
            exec (set_p k a) G = Some (set_P l G).
Proof. apply update_particle_run. Qed.

Lemma projectLRA_eq (c : LRAConstraint.t F) G q a :
  vget (P G) (LRAConstraint.particleIdx c) = Some q ->
  vget (P G) (LRAConstraint.attachmentIdx c) = Some a ->
  exec (projectLRA c) G =
  let dir := glm.sub (p q) (p a) in
  let d := glm.length dir in
  let limit := (LRAConstraint.maxDist c * g_lraSlack G)%fl in
  if (limit <? d)%fl then
    if (d <? f1e_6)%fl then Some G
    else exec (set_p (LRAConstraint.particleIdx c)
                     (glm.add (p a) (glm.scale dir (limit / d)%fl))) G
  else Some G.
Proof.
  intros Hq Ha. unfold projectLRA.
  erewrite exec_bind by (apply particle_run; eassumption).
  erewrite exec_bind by (apply particle_run; eassumption).
  erewrite exec_bind by reflexivity.
  cbv zeta.
  destruct (fltb _ _); [|reflexivity].
  destruct (fltb _ _); reflexivity.
Qed.

Lemma projectLRA_inv (c : LRAConstraint.t F) G G' :
  exec (projectLRA c) G = Some G' ->
  exists q a, vget (P G) (LRAConstraint.particleIdx c) = Some q /\
              vget (P G) (LRAConstraint.attachmentIdx c) = Some a.
Proof.
  unfold projectLRA. intros E. apply exec_Some in E.
  apply bind_inv in E. destruct E as [q [G1 [E1 E]]].
  apply particle_inv in E1. destruct E1 as [-> Hq].
  apply bind_inv in E. destruct E as [a [G1 [E1 E]]].
  apply particle_inv in E1. destruct E1 as [-> Ha]. eauto.
Qed.

Lemma projectLRA_total (c : LRAConstraint.t F) G :
  in_range (P G) (LRAConstraint.particleIdx c) = true ->
  in_range (P G) (LRAConstraint.attachmentIdx c) = true ->
  exists G', exec (projectLRA c) G = Some G'.
Proof.
  intros Hq Ha. apply in_range_vget in Hq, Ha.
  destruct Hq as [q Hq], Ha as [a Ha].
  rewrite (projectLRA_eq c G _ _ Hq Ha). cbv zeta.
  destruct (fltb _ _); [|eauto].
  destruct (fltb _ _); [eauto|].
  destruct (set_p_run G _ (glm.add (p a)
     (glm.scale (glm.sub (p q) (p a))
        (fdiv (fmul (LRAConstraint.maxDist c) (g_lraSlack G))
              (glm.length (glm.sub (p q) (p a)))))) _ Hq) as [l [_ El]].
  eauto.
Qed.

Lemma set_p_inv G k a G' :
  exec (set_p k a) G = Some G' ->
  exists q l, vget (P G) k = Some q /\ vset (P G) k (with_p a q) = Some l /\
              G' = set_P l G.
Proof. apply update_particle_inv. Qed.

(** The effect of one position write. *)
Lemma set_p_effect G k a G' q :
  vget (P G) k = Some q ->
  exec (set_p k a) G = Some G' ->
  same_globals G G' /\
  vget (P G') k = Some (with_p a q) /\
  (forall k', k' <> k -> vget (P G') k' = vget (P G) k') /\
  Forall2 moved (P G) (P G') /\
  (pinned q = false -> Forall2 moved_free (P G) (P G')).
Proof.
  intros Hq E. apply set_p_inv in E. destruct E as [q0 [l [Hq0 [Hl ->]]]].
  assert (q0 = q) by congruence. subst q0. rewrite set_P_P.
  split; [apply same_globals_set_P|].
  split; [eapply vget_vset_same; eauto|].
  split; [intros k' Hk'; eapply vget_vset_other; eauto|].
  split.
  - apply vset_Forall2 with (k := k) (q := q) (a := with_p a q);
      auto using moved_refl, moved_with_p.
  - intros Hp.
    apply vset_Forall2 with (k := k) (q := q) (a := with_p a q);
      auto using moved_free_refl.
    split; [apply moved_with_p|congruence].
Qed.

Lemma projectLRA_step (c : LRAConstraint.t F) G q a :
  vget (P G) (LRAConstraint.particleIdx c) = Some q ->
  vget (P G) (LRAConstraint.attachmentIdx c) = Some a ->
  exists G' q',
    exec (projectLRA c) G = Some G' /\
    same_globals G G' /\
    vget (P G') (LRAConstraint.particleIdx c) = Some q' /\ moved q q' /\
    (forall k, k <> LRAConstraint.particleIdx c ->
               vget (P G') k = vget (P G) k) /\
    Forall2 moved (P G) (P G') /\
    (pinned q = false -> Forall2 moved_free (P G) (P G')).
Proof.
  intros Hq Ha. rewrite (projectLRA_eq c G _ _ Hq Ha). cbv zeta.
  assert (Hsame : exists G' q',
    Some G = Some G' /\ same_globals G G' /\
    vget (P G') (LRAConstraint.particleIdx c) = Some q' /\ moved q q' /\
    (forall k, k <> LRAConstraint.particleIdx c ->
               vget (P G') k = vget (P G) k) /\
    Forall2 moved (P G) (P G') /\
    (pinned q = false -> Forall2 moved_free (P G) (P G'))).
  { exists G, q. repeat split; auto using same_globals_refl, moved_refl.
    - apply Forall2_refl', moved_refl.
    - intros _. apply Forall2_refl', moved_free_refl. }
  destruct (fltb _ _); [|exact Hsame].
  destruct (fltb _ _); [exact Hsame|]. clear Hsame.
  match goal with |- context [set_p ?k ?x] =>
    destruct (set_p_run G k x _ Hq) as [l [Hl El]];
    destruct (set_p_effect G k x _ _ Hq El) as [H1 [H2 [H3 [H4 H5]]]] end.
  exists (set_P l G), (with_p
    (glm.add (p a)
       (glm.scale (glm.sub (p q) (p a))
          (fdiv (fmul (LRAConstraint.maxDist c) (g_lraSlack G))
                (glm.length (glm.sub (p q) (p a)))))) q).
  repeat split; auto.
Qed.

(** *** projectLocal *)

Lemma projectLocal_eq (c : LocalConstraint.t F) G p1 p2 :
  vget (P G) (LocalConstraint.i c) = Some p1 ->
  vget (P G) (LocalConstraint.j c) = Some p2 ->
  exec (projectLocal c) G =
  let dir := glm.sub (p p1) (p p2) in
  let dist := glm.length dir in
  if (dist <? f1e_6)%fl then Some G
  else
    let correction := ((dist - LocalConstraint.restLen c) * (f1 - f0))%fl in
    let wSum := (w p1 + w p2)%fl in
    if (wSum <? f1e_6)%fl then Some G
    else
      let dp := glm.lscale (- correction)%fl (glm.div dir dist) in
      match (if negb (pinned p1) then
               exec (set_p (LocalConstraint.i c)
                           (glm.add (p p1) (glm.scale dp (w p1 / wSum)%fl))) G
             else Some G) with
      | Some G1 =>
          match vget (P G1) (LocalConstraint.j c) with
          | Some p2' =>
              if negb (pinned p2') then
                exec (set_p (LocalConstraint.j c)
                            (glm.sub (p p2')
                                     (glm.scale dp (w p2' / wSum)%fl))) G1
              else Some G1
          | None => None
          end
      | None => None
      end.
Proof.
  intros H1 H2. unfold projectLocal.
  erewrite exec_bind by (apply particle_run; eassumption).
  erewrite exec_bind by (apply particle_run; eassumption).
  cbv zeta.
  destruct (fltb _ _); [reflexivity|].
  destruct (fltb _ _); [reflexivity|].
  rewrite exec_seq.
  match goal with |- match ?e with _ => _ end = match ?e' with _ => _ end =>
    assert (Ee : e = e') by (destruct (negb (pinned p1)); reflexivity);
    rewrite Ee; destruct e' as [G1|]; [|reflexivity] end.
  unfold exec at 1, bind, particle.
  destruct (vget (P G1) (LocalConstraint.j c)) as [p2'|]; [|reflexivity].
  destruct (negb (pinned p2')); reflexivity.
Qed.

Lemma projectLocal_inv (c : LocalConstraint.t F) G G' :
  exec (projectLocal c) G = Some G' ->
  exists p1 p2, vget (P G) (LocalConstraint.i c) = Some p1 /\
                vget (P G) (LocalConstraint.j c) = Some p2.
Proof.
  unfold projectLocal. intros E. apply exec_Some in E.
  apply bind_inv in E. destruct E as [q [G1 [E1 E]]].
  apply particle_inv in E1. destruct E1 as [-> Hq].
  apply bind_inv in E. destruct E as [a [G1 [E1 E]]].
  apply particle_inv in E1. destruct E1 as [-> Ha]. eauto.
Qed.

Lemma projectLocal_step (c : LocalConstraint.t F) G p1 p2 :
  vget (P G) (LocalConstraint.i c) = Some p1 ->
  vget (P G) (LocalConstraint.j c) = Some p2 ->
  exists G',
    exec (projectLocal c) G = Some G' /\
    same_globals G G' /\
    Forall2 moved_free (P G) (P G') /\
    (forall k, k <> LocalConstraint.i c -> k <> LocalConstraint.j c ->
               vget (P G') k = vget (P G) k).
Proof.
  intros H1 H2. rewrite (projectLocal_eq c G _ _ H1 H2). cbv zeta.
  assert (Hsame : exists G',
    Some G = Some G' /\ same_globals G G' /\
    Forall2 moved_free (P G) (P G') /\
    (forall k, k <> LocalConstraint.i c -> k <> LocalConstraint.j c ->
               vget (P G') k = vget (P G) k)).
  { exists G. repeat split; auto using same_globals_refl.
    apply Forall2_refl', moved_free_refl. }
  destruct (fltb _ _); [exact Hsame|].
  destruct (fltb _ _); [exact Hsame|]. clear Hsame.
  (* first endpoint *)
  match goal with |- context [if negb (pinned p1) then ?e else _] =>
    assert (Hfirst : exists G1,
      (if negb (pinned p1) then e else Some G) = Some G1 /\
      same_globals G G1 /\ Forall2 moved_free (P G) (P G1) /\
      (forall k, k <> LocalConstraint.i c -> vget (P G1) k = vget (P G) k)) end.
  { destruct (pinned p1) eqn:Hp1; simpl.
    - exists G. repeat split; auto using same_globals_refl.
      apply Forall2_refl', moved_free_refl.
    - match goal with |- context [set_p ?k ?x] =>
        destruct (set_p_run G k x _ H1) as [l [Hl El]];
        destruct (set_p_effect G k x _ _ H1 El) as [Ha [Hb [Hc [Hd He]]]] end.
      exists (set_P l G). repeat split; auto. }
  destruct Hfirst as [G1 [-> [Hg1 [Hf1 Ho1]]]].
  destruct (Forall2_vget _ _ _ _ _ Hf1 H2) as [p2' [H2' _]]. rewrite H2'.
  destruct (pinned p2') eqn:Hp2; simpl.
  - exists G1. repeat split; auto.
  - match goal with |- context [set_p ?k ?x] =>
      destruct (set_p_run G1 k x _ H2') as [l [Hl El]];
      destruct (set_p_effect G1 k x _ _ H2' El) as [Ha [Hb [Hc [Hd He]]]] end.
    exists (set_P l G1). split; [assumption|].
    split; [eapply same_globals_trans; eauto|].
    split.
    + eapply Forall2_trans'; [apply moved_free_trans|eassumption|auto].
    + intros k Hki Hkj. rewrite Hc by assumption. auto.
Qed.
End SolverFacts.

(** ** The tick *)

Section TickFacts.
Context {F : Type} {SF : Scalar F}.
Implicit Types (G : Globals F) (q : Particle.t F).
Import Particle.

Lemma vset_same (l : list (Particle.t F)) k q :
  vget l k = Some q -> vset l k q = Some l.
Proof.
  intros H. destruct (vset_total l k q _ H) as [l' Hl']. rewrite Hl'. f_equal.
  apply vget_ext; [now apply (vset_length _ _ _ _ Hl')|].
  intros k'. destruct (Z.eq_dec k' k) as [->|Hne].
  - rewrite (vget_vset_same _ _ _ _ Hl'). now rewrite H.
  - apply (vget_vset_other _ _ _ _ _ Hl' Hne).
Qed.

Lemma vset_vset (l l1 : list (Particle.t F)) k a b :
  vset l k a = Some l1 -> vset l1 k b = vset l k b.
Proof.
  intros H1.
  assert (Ha : vget l1 k = Some a) by (eapply vget_vset_same; eauto).
  destruct (vset_total l1 k b _ Ha) as [l2 H2].
  assert (exists q, vget l k = Some q) as [q Hq].
  { unfold vset in H1. destruct (vget l k); [eauto|discriminate]. }
  destruct (vset_total l k b _ Hq) as [l3 H3].
  rewrite H2, H3. f_equal.
  apply vget_ext.
  - rewrite (vset_length _ _ _ _ H2), (vset_length _ _ _ _ H1).
    now rewrite (vset_length _ _ _ _ H3).
  - intros k'. destruct (Z.eq_dec k' k) as [->|Hne].
    + rewrite (vget_vset_same _ _ _ _ H2).
      now rewrite (vget_vset_same _ _ _ _ H3).
    + rewrite (vget_vset_other _ _ _ _ _ H2 Hne).
      rewrite (vget_vset_other _ _ _ _ _ H1 Hne).
      now rewrite (vget_vset_other _ _ _ _ _ H3 Hne).
Qed.

(** Two writes through the same reference. *)
Lemma update_particle_twice G k f h q :
  vget (P G) k = Some q ->
  exec (update_particle k f ;; update_particle k h) G =
  exec (update_particle k (fun x => h (f x))) G.
Proof.
  intros Hq. rewrite exec_seq.
  destruct (update_particle_run G k f _ Hq) as [l [Hl ->]].
  assert (Hq1 : vget (P (set_P l G)) k = Some (f q)).
  { rewrite set_P_P. eapply vget_vset_same; eauto. }
  destruct (update_particle_run (set_P l G) k h _ Hq1) as [l1 [Hl1 ->]].
  destruct (update_particle_run G k (fun x => h (f x)) _ Hq) as [l2 [Hl2 ->]].
  rewrite set_P_P in Hl1. rewrite (vset_vset _ _ _ _ _ Hl) in Hl1.
  rewrite set_P_set_P. congruence.
Qed.

(** A loop that visits every particle once and replaces it by [f] of itself
    maps [f] over the store. *)
Lemma particle_loop (body : Z -> M unit) (f : Particle.t F -> Particle.t F) :
  (forall G k q, vget (P G) k = Some q ->
                 exists l, vset (P G) k (f q) = Some l /\
                           exec (body k) G = Some (set_P l G)) ->
  forall G, exec (for_each (zrange (zlength (P G))) body) G
            = Some (map_particles f G).
Proof.
  intros Hbody G.
  destruct (for_each_invariant
    (fun pre G1 => G1 = set_P (map f (firstn (List.length pre) (P G))
                               ++ skipn (List.length pre) (P G)) G)
    (zrange (zlength (P G))) body G) as [G' [E HG']].
  - simpl. now rewrite set_P_same.
  - intros pre a post G1 El ->.
    assert (Ha : a = zlength pre) by (eapply zrange_split; eauto).
    assert (Hlen : (List.length pre < List.length (P G))%nat).
    { assert (H := f_equal (@List.length Z) El).
      rewrite zrange_length, length_app in H. simpl in H.
      unfold zlength in H. lia. }
    destruct (skipn (List.length pre) (P G)) as [|x rest] eqn:Es.
    { apply (f_equal (@List.length _)) in Es. rewrite length_skipn in Es.
      simpl in Es. lia. }
    set (done := map f (firstn (List.length pre) (P G))).
    assert (Hd : zlength done = a).
    { subst a done. unfold zlength.
      rewrite length_map, length_firstn. f_equal. lia. }
    assert (Hx : vget (P (set_P (done ++ x :: rest) G)) a = Some x).
    { rewrite set_P_P, <- Hd. apply vget_length_app. }
    destruct (Hbody _ _ _ Hx) as [l [Hl ->]].
    rewrite set_P_P, <- Hd, vset_length_app in Hl. injection Hl as <-.
    eexists. split; [reflexivity|]. rewrite set_P_set_P. f_equal.
    rewrite length_app. simpl.
    replace (List.length pre + 1)%nat with (S (List.length pre)) by lia.
    assert (Hf : firstn (S (List.length pre)) (P G)
                 = firstn (List.length pre) (P G) ++ [x]).
    { rewrite <- (firstn_skipn (List.length pre) (P G)) at 1.
      rewrite Es. rewrite firstn_app, firstn_firstn.
      rewrite length_firstn.
      replace (Nat.min (S (List.length pre)) (List.length pre))
        with (List.length pre) by lia.
      replace (S (List.length pre)
               - Nat.min (List.length pre) (List.length (P G)))%nat
        with 1%nat by lia.
      reflexivity. }
    assert (Hs : skipn (S (List.length pre)) (P G) = rest).
    { replace (S (List.length pre)) with (1 + List.length pre)%nat by lia.
      rewrite <- skipn_skipn, Es. reflexivity. }
    rewrite Hf, Hs, map_app. simpl. subst done.
    now rewrite <- app_assoc.
  - rewrite E. f_equal. rewrite HG'. unfold map_particles. f_equal.
    rewrite zrange_length. unfold zlength. rewrite Nat2Z.id.
    rewrite firstn_all, skipn_all. apply app_nil_r.
Qed.

Lemma predict_body G k q :
  vget (P G) k = Some q ->
  exists l, vset (P G) k (predict1 q) = Some l /\
            exec (predict k) G = Some (set_P l G).
Proof.
  intros Hq. unfold predict.
  erewrite exec_bind by (apply particle_run; eassumption).
  unfold predict1. destruct (pinned q) eqn:Hp.
  - exists (P G). split; [now apply vset_same|]. now rewrite set_P_same.
  - cbv zeta. unfold set_v, set_old_p, set_p.
    set (v' := glm.add (v q) (glm.scale g dt)).
    rewrite exec_seq.
    destruct (update_particle_run G k (with_v v') _ Hq) as [l1 [Hl1 ->]].
    assert (Hq1 : vget (P (set_P l1 G)) k = Some (with_v v' q)).
    { rewrite set_P_P. eapply vget_vset_same; eauto. }
    rewrite (update_particle_twice _ _ _ _ _ Hq1).
    destruct (update_particle_run _ k
                (fun x => with_p (glm.add (p q) (glm.scale v' dt))
                                 (with_old_p (p q) x)) _ Hq1)
      as [l2 [Hl2 ->]].
    rewrite set_P_P, (vset_vset _ _ _ _ _ Hl1) in Hl2.
    unfold with_p, with_old_p, with_v in Hl2. simpl in Hl2. rewrite Hp in Hl2.
    exists l2. split; [exact Hl2|reflexivity].
Qed.

Lemma update_velocity_body G k q :
  vget (P G) k = Some q ->
  exists l, vset (P G) k (reconcile1 q) = Some l /\
            exec (update_velocity k) G = Some (set_P l G).
Proof.
  intros Hq. unfold update_velocity.
  erewrite exec_bind by (apply particle_run; eassumption).
  unfold reconcile1. destruct (pinned q) eqn:Hp.
  - exists (P G). split; [now apply vset_same|]. now rewrite set_P_same.
  - unfold set_v. rewrite exec_seq.
    set (v' := glm.div (glm.sub (p q) (old_p q)) dt).
    destruct (update_particle_run G k (with_v v') _ Hq) as [l1 [Hl1 ->]].
    assert (Hq1 : vget (P (set_P l1 G)) k = Some (with_v v' q)).
    { rewrite set_P_P. eapply vget_vset_same; eauto. }
    erewrite exec_bind by (apply particle_run; eassumption).
    destruct (update_particle_run _ k
                (with_v (glm.scale (v (with_v v' q)) f0_99)) _ Hq1)
      as [l2 [Hl2 ->]].
    rewrite set_P_P, (vset_vset _ _ _ _ _ Hl1) in Hl2.
    unfold with_p, with_old_p, with_v in Hl2. simpl in Hl2. rewrite Hp in Hl2.
    exists l2. split; [exact Hl2|reflexivity].
Qed.


Lemma frame_rel_refl R G : (forall x, R x x) -> frame_rel R G G.
Proof.
  intros H. split; [apply same_globals_refl|now apply Forall2_refl'].
Qed.

Lemma frame_rel_trans R G1 G2 G3 :
  (forall x y z, R x y -> R y z -> R x z) ->
  frame_rel R G1 G2 -> frame_rel R G2 G3 -> frame_rel R G1 G3.
Proof.
  intros Ht [Ha Hb] [Hc Hd]. split.
  - eapply same_globals_trans; eauto.
  - eapply Forall2_trans'; eauto.
Qed.

Lemma projectLocal_frame (c : LocalConstraint.t F) G G' :
  exec (projectLocal c) G = Some G' -> frame_rel moved_free G G'.
Proof.
  intros E. destruct (projectLocal_inv _ _ _ E) as [p1 [p2 [H1 H2]]].
  destruct (projectLocal_step c G _ _ H1 H2) as [G1 [E1 [Hs [Hf _]]]].
  assert (G1 = G') by congruence. subst G1. now split.
Qed.

Lemma projectLRA_moved (c : LRAConstraint.t F) G G' :
  exec (projectLRA c) G = Some G' -> frame_rel moved G G'.
Proof.
  intros E. destruct (projectLRA_inv _ _ _ E) as [q [a [H1 H2]]].
  destruct (projectLRA_step c G _ _ H1 H2)
    as [G1 [q' [E1 [Hs [_ [_ [_ [Hf _]]]]]]]].
  assert (G1 = G') by congruence. subst G1. now split.
Qed.

Lemma for_each_frame {C} (R : Particle.t F -> Particle.t F -> Prop)
      (solver : C -> M unit) (cs : list C) :
  (forall x, R x x) -> (forall x y z, R x y -> R y z -> R x z) ->
  (forall c G G', In c cs -> exec (solver c) G = Some G' -> frame_rel R G G') ->
  forall G G', exec (for_each cs solver) G = Some G' -> frame_rel R G G'.
Proof.
  intros Hr Ht Hs G G' E.
  apply (for_each_preserves (fun G1 => frame_rel R G G1) cs solver)
    with (G := G); auto using frame_rel_refl.
  intros c G1 G2 Hc H1 E2. eapply frame_rel_trans; eauto.
Qed.

Lemma moved_free_moved q q' : moved_free q q' -> moved q q'.
Proof. now intros [H _]. Qed.

Lemma Forall2_impl' (R R' : Particle.t F -> Particle.t F -> Prop) l l' :
  (forall x y, R x y -> R' x y) -> Forall2 R l l' -> Forall2 R' l l'.
Proof. intros H HF. induction HF; constructor; auto. Qed.

Lemma project_pass_eq G : exec project_pass G = pass_spec G.
Proof.
  unfold project_pass, pass_spec.
  erewrite exec_bind by reflexivity.
  rewrite exec_seq, apply_all_for_each.
  destruct (exec (for_each (localConstraints G) projectLocal) G)
    as [G1|] eqn:E1; [|reflexivity].
  assert (Hf : frame_rel moved_free G G1).
  { eapply for_each_frame; eauto using moved_free_refl, moved_free_trans.
    intros c Ga Gb _. apply projectLocal_frame. }
  destruct Hf as [Hs _]. apply same_globals_fields in Hs.
  destruct Hs as [_ [Hl [_ [_ [Hu _]]]]].
  erewrite exec_bind by reflexivity. rewrite Hu.
  destruct (g_useLRA G); [|reflexivity].
  erewrite exec_bind by reflexivity.
  now rewrite Hl, apply_all_for_each.
Qed.

Lemma pass_spec_frame G G' : pass_spec G = Some G' -> frame_rel moved G G'.
Proof.
  unfold pass_spec. rewrite apply_all_for_each.
  destruct (exec (for_each (localConstraints G) projectLocal) G)
    as [G1|] eqn:E1; [|discriminate].
  assert (Hf : frame_rel moved G G1).
  { assert (H : frame_rel moved_free G G1).
    { eapply for_each_frame; eauto using moved_free_refl, moved_free_trans.
      intros c Ga Gb _. apply projectLocal_frame. }
    destruct H as [Ha Hb]. split; [assumption|].
    eapply Forall2_impl'; [apply moved_free_moved|assumption]. }
  destruct (g_useLRA G).
  - rewrite apply_all_for_each. intros E2.
    eapply frame_rel_trans; [apply moved_trans|exact Hf|].
    eapply for_each_frame; eauto using moved_refl, moved_trans.
    intros c Ga Gb _. apply projectLRA_moved.
  - now intros [= <-].
Qed.

Lemma passes_spec_frame n G G' :
  passes_spec n G = Some G' -> frame_rel moved G G'.
Proof.
  revert G. induction n as [|n IH]; intros G; simpl.
  - intros [= <-]. apply frame_rel_refl, moved_refl.
  - destruct (pass_spec G) as [G1|] eqn:E1; [|discriminate].
    intros E. eapply frame_rel_trans; [apply moved_trans| |apply IH; eauto].
    now apply pass_spec_frame.
Qed.

Lemma repeat_loop (m : M unit) (l : list Z) G :
  exec (for_each l (fun _ => m)) G =
  (fix go (n : nat) (G1 : Globals F) : option (Globals F) :=
     match n with
     | O => Some G1
     | S k => match exec m G1 with
              | Some G2 => go k G2
              | None => None
              end
     end) (List.length l) G.
Proof.
  revert G. induction l as [|a t IH]; intros G.
  - reflexivity.
  - rewrite for_each_cons. simpl. destruct (exec m G); [apply IH|reflexivity].
Qed.

Lemma passes_loop n G :
  exec (for_each (zrange n) (fun _ => project_pass)) G
  = passes_spec (Z.to_nat n) G.
Proof.
  rewrite repeat_loop, zrange_length. generalize (Z.to_nat n). intros k.
  revert G. induction k as [|k IH]; intros G; simpl.
  - reflexivity.
  - rewrite project_pass_eq. destruct (pass_spec G); [apply IH|reflexivity].
Qed.

Lemma simulate_eq G : exec simulate G = tick_spec G.
Proof.
  unfold simulate, tick_spec.
  erewrite exec_bind by reflexivity.
  rewrite exec_seq, (particle_loop predict predict1 predict_body).
  erewrite exec_bind by reflexivity.
  rewrite exec_seq. change (g_iterations (map_particles predict1 G))
    with (g_iterations G).
  rewrite passes_loop.
  destruct (passes_spec (Z.to_nat (g_iterations G)) (map_particles predict1 G))
    as [G2|] eqn:E2; [|reflexivity].
  simpl. apply passes_spec_frame in E2. destruct E2 as [_ Hf].
  apply Forall2_zlength in Hf. unfold map_particles in Hf.
  rewrite set_P_P in Hf.
  assert (Hn : zlength (P G) = zlength (P G2)).
  { rewrite Hf. unfold zlength. now rewrite length_map. }
  rewrite Hn. apply (particle_loop update_velocity reconcile1).
  apply update_velocity_body.
Qed.
End TickFacts.

(** ** Invariants of a run *)

Section RunFacts.
Context {F : Type} {SF : Scalar F}.
Implicit Types (G : Globals F) (q : Particle.t F).
Import Particle.

Lemma ticked_refl q : ticked q q.
Proof. unfold ticked. auto. Qed.

Lemma ticked_trans q1 q2 q3 : ticked q1 q2 -> ticked q2 q3 -> ticked q1 q3.
Proof.
  intros [Ha [Hb Hc]] [Hd [He Hf]]. repeat split; try congruence.
  intros Hp. rewrite <- (Hc Hp). apply Hf. now rewrite (Hc Hp).
Qed.

Lemma moved_free_ticked q q' : moved_free q q' -> ticked q q'.
Proof.
  intros [Hm Hp]. destruct (moved_fields _ _ Hm) as [_ [_ [Hw Hpin]]].
  repeat split; auto.
Qed.

Lemma predict1_ticked q : ticked q (predict1 q).
Proof.
  unfold predict1, ticked. destruct (pinned q) eqn:Hp; simpl; auto.
  repeat split; auto. discriminate.
Qed.

Lemma reconcile1_ticked q : ticked q (reconcile1 q).
Proof.
  unfold reconcile1, ticked. destruct (pinned q) eqn:Hp; simpl; auto.
  repeat split; auto. discriminate.
Qed.

Lemma reconcile1_p q : p (reconcile1 q) = p q.
Proof. unfold reconcile1. now destruct (pinned q). Qed.

Lemma Forall2_map_r (R : Particle.t F -> Particle.t F -> Prop) f l :
  (forall x, R x (f x)) -> Forall2 R l (map f l).
Proof. intros H. induction l; simpl; constructor; auto. Qed.

(** The pin flags, and with them well-formedness, only depend on what a
    tick leaves alone. *)
Lemma Forall2_pinned (R : Particle.t F -> Particle.t F -> Prop) l l' k :
  (forall x y, R x y -> pinned y = pinned x) ->
  Forall2 R l l' ->
  option_map pinned (vget l' k) = option_map pinned (vget l k).
Proof.
  intros HR HF. destruct (vget l k) as [q|] eqn:E.
  - destruct (Forall2_vget _ _ _ _ _ HF E) as [q' [-> Hq]]. simpl.
    f_equal. auto.
  - destruct (vget l' k) as [q'|] eqn:E'; [|reflexivity].
    destruct (Forall2_vget_inv _ _ _ _ _ HF E') as [q [Hq _]]. congruence.
Qed.

Lemma lra_ok_pinned l (c : LRAConstraint.t F) :
  lra_ok l c =
  match option_map pinned (vget l (LRAConstraint.particleIdx c)),
        option_map pinned (vget l (LRAConstraint.attachmentIdx c)) with
  | Some a, Some b => negb a && b
  | _, _ => false
  end.
Proof.
  unfold lra_ok. destruct (vget l _); simpl; [|reflexivity].
  destruct (vget l _); reflexivity.
Qed.

Lemma forallb_ext' {C : Type} (f h : C -> bool) (l : list C) :
  (forall c, f c = h c) -> forallb f l = forallb h l.
Proof. intros H. induction l; simpl; [reflexivity|]. now rewrite H, IHl. Qed.

Lemma scene_ok_frame (R : Particle.t F -> Particle.t F -> Prop) G G' :
  (forall x y, R x y -> pinned y = pinned x) ->
  frame_rel R G G' -> scene_ok G' = scene_ok G.
Proof.
  intros HR [Hs HF]. apply same_globals_fields in Hs.
  destruct Hs as [Hl [Ha _]]. unfold scene_ok. rewrite Hl, Ha.
  f_equal. f_equal.
  - apply forallb_ext'. intros c. unfold local_ok, in_range.
    now rewrite (Forall2_zlength _ _ _ HF).
  - apply forallb_ext'. intros c. rewrite !lra_ok_pinned.
    now rewrite !(Forall2_pinned R _ _ _ HR HF).
Qed.

Lemma moved_pinned q q' : moved q q' -> pinned q' = pinned q.
Proof. intros H. now destruct (moved_fields _ _ H) as [_ [_ [_ ?]]]. Qed.

Lemma moved_free_pinned q q' : moved_free q q' -> pinned q' = pinned q.
Proof. intros [H _]. now apply moved_pinned. Qed.

Lemma ticked_pinned q q' : ticked q q' -> pinned q' = pinned q.
Proof. now intros [_ [H _]]. Qed.

(** On a well-formed scene both constraint loops run to completion, and they
    move free particles only. *)
Lemma local_loop_total G cs :
  forallb (local_ok (P G)) cs = true ->
  exists G', exec (for_each cs projectLocal) G = Some G' /\
             frame_rel moved_free G G'.
Proof.
  intros Hok.
  apply (for_each_invariant (fun _ G1 => frame_rel moved_free G G1)).
  - apply frame_rel_refl, moved_free_refl.
  - intros pre c post G1 -> Hf.
    rewrite forallb_forall in Hok.
    assert (Hc : local_ok (P G) c = true).
    { apply Hok. apply in_or_app. right. now left. }
    unfold local_ok in Hc. apply andb_true_iff in Hc. destruct Hc as [Hi Hj].
    destruct Hf as [Hs HF].
    assert (Hlen := Forall2_zlength _ _ _ HF).
    unfold in_range in Hi, Hj. rewrite <- Hlen in Hi, Hj.
    apply in_range_vget in Hi, Hj. destruct Hi as [p1 H1], Hj as [p2 H2].
    destruct (projectLocal_step c G1 _ _ H1 H2) as [G2 [E2 [Hs2 [HF2 _]]]].
    exists G2. split; [assumption|].
    eapply frame_rel_trans; [apply moved_free_trans|split; eassumption|].
    now split.
Qed.

Lemma lra_loop_total G cs :
  forallb (lra_ok (P G)) cs = true ->
  exists G', exec (for_each cs projectLRA) G = Some G' /\
             frame_rel moved_free G G'.
Proof.
  intros Hok.
  apply (for_each_invariant (fun _ G1 => frame_rel moved_free G G1)).
  - apply frame_rel_refl, moved_free_refl.
  - intros pre c post G1 -> Hf.
    rewrite forallb_forall in Hok.
    assert (Hc : lra_ok (P G) c = true).
    { apply Hok. apply in_or_app. right. now left. }
    destruct Hf as [Hs HF].
    rewrite lra_ok_pinned in Hc.
    rewrite <- !(Forall2_pinned _ _ _ _ moved_free_pinned HF) in Hc.
    destruct (vget (P G1) (LRAConstraint.particleIdx c)) as [q|] eqn:Hq;
      [|discriminate].
    destruct (vget (P G1) (LRAConstraint.attachmentIdx c)) as [a|] eqn:Ha;
      [|discriminate].
    simpl in Hc. apply andb_true_iff in Hc. destruct Hc as [Hp _].
    apply negb_true_iff in Hp.
    destruct (projectLRA_step c G1 _ _ Hq Ha)
      as [G2 [q' [E2 [Hs2 [_ [_ [_ [_ HF2]]]]]]]].
    exists G2. split; [assumption|].
    eapply frame_rel_trans; [apply moved_free_trans|split; eassumption|].
    split; auto.
Qed.

Lemma pass_spec_total G :
  scene_ok G = true ->
  exists G', pass_spec G = Some G' /\ frame_rel moved_free G G'.
Proof.
  unfold scene_ok. rewrite !andb_true_iff. intros [[Hl Ha] _].
  unfold pass_spec. rewrite apply_all_for_each.
  destruct (local_loop_total G _ Hl) as [G1 [-> Hf1]].
  destruct (g_useLRA G); [|eauto].
  rewrite apply_all_for_each.
  assert (Ha1 : forallb (lra_ok (P G1)) (lraConstraints G) = true).
  { rewrite <- Ha. apply forallb_ext'. intros c. rewrite !lra_ok_pinned.
    destruct Hf1 as [_ HF].
    now rewrite !(Forall2_pinned _ _ _ _ moved_free_pinned HF). }
  destruct (lra_loop_total G1 _ Ha1) as [G2 [-> Hf2]].
  exists G2. split; [reflexivity|].
  eapply frame_rel_trans; eauto using moved_free_trans.
Qed.

Lemma passes_spec_total n G :
  scene_ok G = true ->
  exists G', passes_spec n G = Some G' /\ frame_rel moved_free G G'.
Proof.
  revert G. induction n as [|n IH]; intros G Hok; simpl.
  - exists G. split; [reflexivity|apply frame_rel_refl, moved_free_refl].
  - destruct (pass_spec_total G Hok) as [G1 [-> Hf1]].
    assert (Hok1 : scene_ok G1 = true).
    { now rewrite (scene_ok_frame _ _ _ moved_free_pinned Hf1). }
    destruct (IH G1 Hok1) as [G2 [-> Hf2]].
    exists G2. split; [reflexivity|].
    eapply frame_rel_trans; eauto using moved_free_trans.
Qed.

Lemma map_particles_frame f G :
  (forall x, ticked x (f x)) -> frame_rel ticked G (map_particles f G).
Proof.
  intros H. split; [apply same_globals_set_P|].
  unfold map_particles. rewrite set_P_P. now apply Forall2_map_r.
Qed.

Lemma frame_rel_impl (R R' : Particle.t F -> Particle.t F -> Prop) G G' :
  (forall x y, R x y -> R' x y) -> frame_rel R G G' -> frame_rel R' G G'.
Proof.
  intros H [Hs HF]. split; [assumption|]. eapply Forall2_impl'; eauto.
Qed.

(** A tick of a well-formed scene completes, keeps the scene well-formed and
    leaves pinned particles, masses, pin flags and every global other than
    the particle store as they were. *)
Lemma simulate_total G :
  scene_ok G = true ->
  exists G', exec simulate G = Some G' /\ frame_rel ticked G G' /\
             scene_ok G' = true.
Proof.
  intros Hok. rewrite simulate_eq. unfold tick_spec.
  assert (H1 := map_particles_frame predict1 G predict1_ticked).
  assert (Hok1 : scene_ok (map_particles predict1 G) = true).
  { now rewrite (scene_ok_frame _ _ _ ticked_pinned H1). }
  destruct (passes_spec_total (Z.to_nat (g_iterations G)) _ Hok1)
    as [G2 [-> H2]].
  simpl. eexists. split; [reflexivity|].
  assert (H3 := map_particles_frame reconcile1 G2 reconcile1_ticked).
  assert (H : frame_rel ticked G (map_particles reconcile1 G2)).
  { eapply frame_rel_trans; [apply ticked_trans|exact H1|].
    eapply frame_rel_trans; [apply ticked_trans| |exact H3].
    eapply frame_rel_impl; [apply moved_free_ticked|exact H2]. }
  split; [assumption|].
  now rewrite (scene_ok_frame _ _ _ ticked_pinned H).
Qed.

Lemma scene_ok_set_params iters useLRA slack G :
  scene_ok (set_params iters useLRA slack G) = scene_ok G.
Proof. reflexivity. Qed.

Lemma run_ticks_total ticks G :
  scene_ok G = true ->
  exists G', run_ticks ticks G = Some G' /\
             Forall2 ticked (P G) (P G') /\
             localConstraints G' = localConstraints G /\
             lraConstraints G' = lraConstraints G /\
             attachmentIndices G' = attachmentIndices G /\
             scene_ok G' = true.
Proof.
  revert G. induction ticks as [|[[iters useLRA] slack] t IH]; intros G Hok.
  - exists G. simpl. repeat split; auto. apply Forall2_refl', ticked_refl.
  - simpl. unfold step.
    destruct (simulate_total (set_params iters useLRA slack G))
      as [G1 [-> [[Hs HF] Hok1]]]; [assumption|].
    apply same_globals_fields in Hs. simpl in Hs, HF.
    destruct Hs as [Hl [Ha [Hat _]]].
    destruct (IH G1 Hok1) as [G2 [-> [HF2 [Hl2 [Ha2 [Hat2 Hok2]]]]]].
    exists G2. split; [reflexivity|].
    split; [eapply Forall2_trans'; eauto using ticked_trans|].
    repeat split; congruence.
Qed.
End RunFacts.

(** ** The builder *)

Section GridFacts.

Lemma seq_shift_add (s n : nat) : seq s n = map (Nat.add s) (seq 0 n).
Proof.
  revert s. induction n as [|n IH]; intros s; simpl; [reflexivity|].
  rewrite Nat.add_0_r. f_equal. rewrite (IH (S s)), (IH 1%nat), map_map.
  apply map_ext. intros a. lia.
Qed.

Lemma zrange_add a b :
  0 <= a -> 0 <= b -> zrange (a + b) = zrange a ++ map (Z.add a) (zrange b).
Proof.
  intros Ha Hb. unfold zrange.
  replace (Z.to_nat (a + b)) with (Z.to_nat a + Z.to_nat b)%nat by lia.
  rewrite seq_app, map_app. f_equal. simpl.
  rewrite seq_shift_add, !map_map. apply map_ext. intros n. lia.
Qed.

Lemma grid_cells_succ W H :
  0 <= H ->
  grid_cells W (H + 1) = grid_cells W H ++ map (fun x => (H, x)) (zrange W).
Proof.
  intros HH. unfold grid_cells. rewrite zrange_succ by assumption.
  rewrite flat_map_app. simpl. now rewrite app_nil_r.
Qed.

Lemma cell_ids W H :
  0 <= W -> 0 <= H -> map (cell_id W) (grid_cells W H) = zrange (W * H).
Proof.
  intros HW HH. revert H HH. apply natlike_ind.
  - rewrite Z.mul_0_r. reflexivity.
  - intros H HH IH. unfold Z.succ. rewrite grid_cells_succ by assumption.
    rewrite map_app, IH, map_map.
    replace (W * (H + 1)) with (W * H + W) by lia.
    rewrite zrange_add by nia. f_equal.
    apply map_ext. intros x. unfold cell_id, idx. simpl. lia.
Qed.

Lemma in_grid_cells W H c :
  In c (grid_cells W H) <-> (0 <= fst c < H /\ 0 <= snd c < W).
Proof.
  unfold grid_cells. rewrite in_flat_map. split.
  - intros [y [Hy Hc]]. apply in_map_iff in Hc. destruct Hc as [x [<- Hx]].
    apply in_zrange in Hy, Hx. simpl. lia.
  - intros [Hy Hx]. exists (fst c). split; [now apply in_zrange|].
    apply in_map_iff. exists (snd c). split; [now destruct c|].
    now apply in_zrange.
Qed.

Lemma grid_cells_length W H :
  0 <= W -> 0 <= H -> zlength (grid_cells W H) = W * H.
Proof.
  intros HW HH. unfold zlength.
  rewrite <- (length_map (cell_id W)), cell_ids, zrange_length by assumption.
  nia.
Qed.

(** The cell visited after [pre] has index [|pre|]. *)
Lemma cell_split W H pre c post :
  0 <= W -> 0 <= H ->
  grid_cells W H = pre ++ c :: post -> cell_id W c = zlength pre.
Proof.
  intros HW HH E. apply (f_equal (map (cell_id W))) in E.
  rewrite cell_ids, map_app in E by assumption. simpl in E.
  apply zrange_split in E. rewrite E. unfold zlength.
  now rewrite length_map.
Qed.

Lemma cell_id_inj W c c' :
  0 <= snd c < W -> 0 <= snd c' < W ->
  cell_id W c = cell_id W c' -> c = c'.
Proof.
  destruct c as [y x], c' as [y' x']. unfold cell_id, idx. simpl.
  intros Hx Hx' E. assert (y = y') by nia. subst. f_equal. lia.
Qed.
End GridFacts.

Section LoopShapes.
Context {F : Type}.
Implicit Types (G : Globals F).

Lemma for_each_map {A B} (f : A -> B) (l : list A) (body : B -> M unit) G :
  exec (for_each (map f l) body) G = exec (for_each l (fun a => body (f a))) G.
Proof.
  revert G. induction l as [|a t IH]; intros G; [reflexivity|].
  simpl map. rewrite !for_each_cons.
  destruct (exec (body (f a)) G); [apply IH|reflexivity].
Qed.

Lemma for_each_flat_map {A B} (f : A -> list B) (l : list A)
      (body : B -> M unit) G :
  exec (for_each (flat_map f l) body) G
  = exec (for_each l (fun a => for_each (f a) body)) G.
Proof.
  revert G. induction l as [|a t IH]; intros G; [reflexivity|].
  simpl flat_map. rewrite for_each_app, for_each_cons.
  destruct (exec (for_each (f a) body) G); [apply IH|reflexivity].
Qed.

Lemma for_each_ext {A} (l : list A) (body body' : A -> M unit) G :
  (forall a G1, In a l -> exec (body a) G1 = exec (body' a) G1) ->
  exec (for_each l body) G = exec (for_each l body') G.
Proof.
  revert G. induction l as [|a t IH]; intros G H; [reflexivity|].
  rewrite !for_each_cons, H by now left.
  destruct (exec (body' a) G); [|reflexivity].
  apply IH. intros b G1 Hb. apply H. now right.
Qed.

(** The two nested loops over [y] and [x] visit the cells in order. *)
Lemma grid_loop W H (body : Z -> Z -> M unit) G :
  exec (for_each (zrange H) (fun y => for_each (zrange W) (fun x => body y x)))
       G
  = exec (for_each (grid_cells W H) (fun c => body (fst c) (snd c))) G.
Proof.
  unfold grid_cells. rewrite for_each_flat_map.
  apply for_each_ext. intros y G1 _. now rewrite for_each_map.
Qed.
End LoopShapes.

Section BuildFacts.
Context {F : Type} {SF : Scalar F}.
Implicit Types (G : Globals F) (q : Particle.t F).
Variables clothW clothH : Z.
Variable spacing : F.
Hypothesis HW : 0 <= clothW.
Hypothesis HH : 0 <= clothH.

Lemma update_particle_at G done x rest k f :
  P G = done ++ x :: rest -> k = zlength done ->
  exec (update_particle k f) G = Some (set_P (done ++ f x :: rest) G).
Proof.
  intros HP ->. unfold exec, update_particle.
  now rewrite HP, vget_length_app, vset_length_app.
Qed.

Lemma particle_at G done x rest k :
  P G = done ++ x :: rest -> k = zlength done -> particle k G = Some (x, G).
Proof. intros HP ->. unfold particle. now rewrite HP, vget_length_app. Qed.

Lemma exec_modify f G : exec (modify f) G = Some (f G).
Proof. reflexivity. Qed.

(** One write to the slot whose index [Hid] identifies. *)
Ltac write_at Hid :=
  erewrite update_particle_at by first [exact Hid|reflexivity].

(** Stage 1: every slot receives its rest particle, and the corners are
    recorded in [attachmentIndices] in the order they are met. *)
Lemma init_loop it ul sl :
  exec (for_each (grid_cells clothW clothH)
          (fun c => init_particle clothW clothH spacing (fst c) (snd c)))
       (mkGlobals (repeat Particle_default (Z.to_nat (clothW * clothH)))
                  [] [] [] it ul sl)
  = Some (mkGlobals
            (map (rest_particle clothW clothH spacing)
                 (grid_cells clothW clothH))
            [] []
            (map (cell_id clothW)
                 (filter (is_corner clothW) (grid_cells clothW clothH)))
            it ul sl).
Proof.
  set (n := Z.to_nat (clothW * clothH)).
  set (rest := rest_particle clothW clothH spacing).
  destruct (for_each_invariant
    (fun pre G1 =>
       G1 = mkGlobals
              (map rest pre ++ repeat Particle_default (n - List.length pre))
              [] [] (map (cell_id clothW) (filter (is_corner clothW) pre))
              it ul sl)
    (grid_cells clothW clothH)
    (fun c => init_particle clothW clothH spacing (fst c) (snd c))
    (mkGlobals (repeat Particle_default n) [] [] [] it ul sl))
    as [G' [E HG']].
  - simpl. now rewrite Nat.sub_0_r.
  - intros pre c post G1 Ecells ->.
    assert (Hid : idx clothW (snd c) (fst c) = zlength (map rest pre)).
    { unfold zlength. rewrite length_map.
      apply (cell_split clothW clothH pre c post HW HH Ecells). }
    assert (Hlt : (List.length pre < n)%nat).
    { assert (Hl := grid_cells_length clothW clothH HW HH).
      rewrite Ecells in Hl. unfold zlength in Hl. rewrite length_app in Hl.
      simpl in Hl. subst n. lia. }
    destruct (n - List.length pre)%nat as [|m] eqn:Em; [lia|].
    simpl repeat.
    exists (mkGlobals (map rest pre ++ rest c :: repeat Particle_default m)
                      [] []
                      (map (cell_id clothW)
                           (filter (is_corner clothW) (pre ++ [c])))
                      it ul sl).
    split.
    + unfold init_particle. cbv zeta. unfold set_p, set_old_p, set_v.
      rewrite exec_seq.
      write_at Hid.
      erewrite exec_bind
        by (eapply particle_at; first [exact Hid|reflexivity]).
      rewrite exec_seq.
      write_at Hid.
      rewrite exec_seq.
      write_at Hid.
      change ((fst c =? 0) && ((snd c =? 0) || (snd c =? clothW - 1)))
        with (is_corner clothW c).
      rewrite filter_app, map_app. simpl filter.
      assert (Hrc : rest c =
                Particle.mk (rest_position clothW clothH spacing c)
                            (rest_position clothW clothH spacing c)
                            (glm.splat f0)
                            (if is_corner clothW c then f0 else f1)
                            (is_corner clothW c)) by reflexivity.
      rewrite Hrc. clear Hrc.
      destruct (is_corner clothW c) eqn:Hc; unfold set_w, set_pinned.
      * rewrite exec_seq.
        write_at Hid.
        rewrite exec_seq.
        write_at Hid.
        rewrite exec_modify. reflexivity.
      * rewrite exec_seq.
        write_at Hid.
        write_at Hid.
        simpl. now rewrite app_nil_r.
    + rewrite map_app, length_app. simpl.
      replace (n - (List.length pre + 1))%nat with m by lia.
      now rewrite <- app_assoc.
  - rewrite E, HG'. f_equal.
    assert (Hl := grid_cells_length clothW clothH HW HH).
    unfold zlength in Hl.
    replace (n - List.length (grid_cells clothW clothH))%nat with O
      by (subst n; lia).
    simpl. now rewrite app_nil_r.
Qed.

(** Stage 2: the edges are appended; their end points are in range. *)
Lemma addEdge_run G a b :
  in_range (P G) a = true -> in_range (P G) b = true ->
  exists d,
    exec (addEdge a b) G
    = Some (mkGlobals (P G)
                      (localConstraints G ++ [LocalConstraint.mk a b d])
                      (lraConstraints G) (attachmentIndices G)
                      (g_iterations G) (g_useLRA G) (g_lraSlack G)).
Proof.
  intros Ha Hb. apply in_range_vget in Ha, Hb.
  destruct Ha as [pa Ha], Hb as [pb Hb]. unfold addEdge.
  erewrite exec_bind by (apply particle_run; eassumption).
  erewrite exec_bind by (apply particle_run; eassumption).
  eexists. reflexivity.
Qed.

Lemma edge_loop l att it ul sl :
  zlength l = clothW * clothH ->
  exists L,
    exec (for_each (grid_cells clothW clothH)
            (fun c => add_edges clothW clothH (fst c) (snd c)))
         (mkGlobals l [] [] att it ul sl)
    = Some (mkGlobals l L [] att it ul sl) /\
    forallb (local_ok l) L = true.
Proof.
  intros Hlen.
  destruct (for_each_invariant
    (fun _ G1 => exists L, G1 = mkGlobals l L [] att it ul sl /\
                           forallb (local_ok l) L = true)
    (grid_cells clothW clothH)
    (fun c => add_edges clothW clothH (fst c) (snd c))
    (mkGlobals l [] [] att it ul sl)) as [G' [E [L [-> HL]]]].
  - exists []. auto.
  - intros pre c post G1 Ecells [L [-> HL]].
    assert (Hc : In c (grid_cells clothW clothH)).
    { rewrite Ecells. apply in_or_app. right. now left. }
    apply in_grid_cells in Hc. destruct c as [y x]. simpl in Hc. simpl fst.
    simpl snd. destruct Hc as [Hy Hx].
    assert (H0 : in_range l (idx clothW x y) = true).
    { apply in_range_true. unfold idx. nia. }
    unfold add_edges. rewrite exec_seq.
    assert (Hfirst : exists L1,
      exec (if x + 1 <? clothW
            then addEdge (idx clothW x y) (idx clothW (x + 1) y)
            else ret tt) (mkGlobals l L [] att it ul sl)
      = Some (mkGlobals l L1 [] att it ul sl) /\
      forallb (local_ok l) L1 = true).
    { destruct (Z.ltb_spec (x + 1) clothW) as [Hlt|Hge].
      - assert (H1 : in_range l (idx clothW (x + 1) y) = true).
        { apply in_range_true. unfold idx. nia. }
        destruct (addEdge_run (mkGlobals l L [] att it ul sl) _ _ H0 H1)
          as [d ->].
        eexists. split; [reflexivity|]. simpl.
        rewrite forallb_app, HL. simpl. unfold local_ok. simpl.
        now rewrite H0, H1.
      - exists L. auto. }
    destruct Hfirst as [L1 [-> HL1]].
    destruct (Z.ltb_spec (y + 1) clothH) as [Hlt|Hge].
    + assert (H1 : in_range l (idx clothW x (y + 1)) = true).
      { apply in_range_true. unfold idx. nia. }
      destruct (addEdge_run (mkGlobals l L1 [] att it ul sl) _ _ H0 H1)
        as [d ->].
      eexists. split; [reflexivity|]. eexists. split; [reflexivity|].
      simpl. rewrite forallb_app, HL1. simpl. unfold local_ok. simpl.
      now rewrite H0, H1.
    + eexists. split; [reflexivity|]. exists L1. auto.
  - exists L. auto.
Qed.

(** Stage 3: the scan reads the store and leaves it alone. *)
Lemma scan_run G q anchors best :
  forallb (in_range (P G)) anchors = true ->
  scan_attachments q anchors best G
  = Some (nearest (P G) q anchors best, G).
Proof.
  revert best. induction anchors as [|a t IH]; intros best Hr.
  - reflexivity.
  - simpl in Hr. apply andb_true_iff in Hr. destruct Hr as [Ha Ht].
    apply in_range_vget in Ha. destruct Ha as [pa Ha].
    simpl. unfold rest_distance. rewrite Ha.
    rewrite (bind_run _ _ _ _ _ (particle_run _ _ _ Ha)).
    now apply IH.
Qed.

Lemma add_lra_run G i :
  in_range (P G) i = true ->
  forallb (in_range (P G)) (attachmentIndices G) = true ->
  exec (add_lra i) G
  = Some (mkGlobals (P G) (localConstraints G)
                    (lraConstraints G
                     ++ lra_of (P G) (attachmentIndices G) i)
                    (attachmentIndices G)
                    (g_iterations G) (g_useLRA G) (g_lraSlack G)).
Proof.
  intros Hi Ha. apply in_range_vget in Hi. destruct Hi as [q Hq].
  unfold add_lra, lra_of. rewrite Hq.
  erewrite exec_bind by (apply particle_run; eassumption).
  destruct (Particle.pinned q).
  - rewrite app_nil_r. now destruct G.
  - erewrite exec_bind by reflexivity.
    erewrite exec_bind by (apply scan_run; assumption).
    cbv zeta.
    destruct (nearest (P G) q (attachmentIndices G) (-1, f1e30)) as [b m].
    simpl fst. simpl snd.
    destruct (negb (b =? -1)).
    + reflexivity.
    + rewrite app_nil_r. now destruct G.
Qed.

Lemma lra_loop l L att it ul sl :
  forallb (in_range l) att = true ->
  exec (for_each (zrange (zlength l)) add_lra)
       (mkGlobals l L [] att it ul sl)
  = Some (mkGlobals l L (flat_map (lra_of l att) (zrange (zlength l)))
                    att it ul sl).
Proof.
  intros Hatt.
  destruct (for_each_invariant
    (fun pre G1 => G1 = mkGlobals l L (flat_map (lra_of l att) pre)
                                  att it ul sl)
    (zrange (zlength l)) add_lra (mkGlobals l L [] att it ul sl))
    as [G' [E ->]].
  - reflexivity.
  - intros pre i post G1 Er ->.
    assert (Hi : In i (zrange (zlength l))).
    { rewrite Er. apply in_or_app. right. now left. }
    apply in_zrange in Hi.
    rewrite add_lra_run; simpl.
    + eexists. split; [reflexivity|].
      rewrite flat_map_app. simpl. now rewrite app_nil_r.
    + now apply in_range_true.
    + assumption.
  - assumption.
Qed.

(** The anchors recorded by stage 1 are in range. *)
Lemma rest_particle_at c :
  In c (grid_cells clothW clothH) ->
  vget (map (rest_particle clothW clothH spacing) (grid_cells clothW clothH))
       (cell_id clothW c)
  = Some (rest_particle clothW clothH spacing c).
Proof.
  intros Hc. apply in_split in Hc. destruct Hc as [pre [post E]].
  rewrite (cell_split clothW clothH pre c post HW HH E), E.
  rewrite map_app. simpl map.
  replace (zlength pre)
    with (zlength (map (rest_particle clothW clothH spacing) pre)).
  - apply vget_length_app.
  - unfold zlength. now rewrite length_map.
Qed.

Lemma anchors_in_range :
  forallb (in_range (map (rest_particle clothW clothH spacing)
                         (grid_cells clothW clothH)))
          (map (cell_id clothW)
               (filter (is_corner clothW) (grid_cells clothW clothH)))
  = true.
Proof.
  apply forallb_forall. intros a Ha. apply in_map_iff in Ha.
  destruct Ha as [c [<- Hc]]. apply filter_In in Hc. destruct Hc as [Hc _].
  apply in_range_vget. eexists. now apply rest_particle_at.
Qed.

Lemma buildScene_eq G0 :
  exists L,
    exec (buildScene clothW clothH spacing) G0
    = Some (mkGlobals
              (map (rest_particle clothW clothH spacing)
                   (grid_cells clothW clothH))
              L
              (flat_map
                 (lra_of (map (rest_particle clothW clothH spacing)
                              (grid_cells clothW clothH))
                         (map (cell_id clothW)
                              (filter (is_corner clothW)
                                      (grid_cells clothW clothH))))
                 (zrange (clothW * clothH)))
              (map (cell_id clothW)
                   (filter (is_corner clothW) (grid_cells clothW clothH)))
              (g_iterations G0) (g_useLRA G0) (g_lraSlack G0)) /\
    forallb (local_ok (map (rest_particle clothW clothH spacing)
                           (grid_cells clothW clothH))) L = true.
Proof.
  set (Pb := map (rest_particle clothW clothH spacing)
                 (grid_cells clothW clothH)).
  assert (Hlen : zlength Pb = clothW * clothH).
  { unfold Pb, zlength. rewrite length_map.
    apply (grid_cells_length clothW clothH HW HH). }
  destruct (edge_loop Pb
              (map (cell_id clothW)
                   (filter (is_corner clothW) (grid_cells clothW clothH)))
              (g_iterations G0) (g_useLRA G0) (g_lraSlack G0) Hlen)
    as [L [EL HL]].
  exists L. split; [|assumption].
  unfold buildScene. rewrite exec_seq, exec_modify.
  rewrite exec_seq, grid_loop, init_loop.
  rewrite exec_seq, grid_loop. fold Pb. rewrite EL.
  erewrite exec_bind by reflexivity.
  simpl P. rewrite <- Hlen. apply lra_loop. apply anchors_in_range.
Qed.
End BuildFacts.

Section BuiltScene.
Context {F : Type} {SF : Scalar F}.
Implicit Types (G : Globals F) (q : Particle.t F).
Variables clothW clothH : Z.
Variable spacing : F.
Hypothesis HW : 0 <= clothW.
Hypothesis HH : 0 <= clothH.

Lemma vget_map {A B} (f : A -> B) (l : list A) k :
  vget (map f l) k = option_map f (vget l k).
Proof.
  unfold vget. destruct (k <? 0); [reflexivity|]. apply nth_error_map.
Qed.

Lemma vget_split {A} (l : list A) k a :
  vget l k = Some a -> exists pre post, l = pre ++ a :: post /\ zlength pre = k.
Proof.
  intros H. assert (Hr := vget_Some_range _ _ _ H).
  unfold vget in H. destruct (Z.ltb_spec k 0); [lia|].
  apply nth_error_split in H. destruct H as [pre [post [E Hl]]].
  exists pre, post. split; [assumption|]. unfold zlength. lia.
Qed.

(** The store built by stage 1 holds, at index [k], the rest particle of the
    [k]-th cell. *)
Lemma built_particle k q :
  vget (map (rest_particle clothW clothH spacing) (grid_cells clothW clothH)) k
  = Some q ->
  exists c, In c (grid_cells clothW clothH) /\ cell_id clothW c = k /\
            q = rest_particle clothW clothH spacing c.
Proof.
  rewrite vget_map.
  destruct (vget (grid_cells clothW clothH) k) as [c|] eqn:E; [|discriminate].
  intros [= <-]. exists c. apply vget_split in E.
  destruct E as [pre [post [E Hk]]].
  split; [rewrite E; apply in_or_app; right; now left|].
  split; [|reflexivity].
  rewrite <- Hk. eapply cell_split; eauto.
Qed.

Lemma anchors_pinned a :
  In a (map (cell_id clothW)
            (filter (is_corner clothW) (grid_cells clothW clothH))) ->
  exists q,
    vget (map (rest_particle clothW clothH spacing) (grid_cells clothW clothH))
         a = Some q /\ Particle.pinned q = true.
Proof.
  intros Ha. apply in_map_iff in Ha. destruct Ha as [c [<- Hc]].
  apply filter_In in Hc. destruct Hc as [Hc Hp].
  exists (rest_particle clothW clothH spacing c).
  split; [now apply rest_particle_at|assumption].
Qed.

Lemma pinned_is_anchor k q :
  vget (map (rest_particle clothW clothH spacing) (grid_cells clothW clothH)) k
  = Some q ->
  Particle.pinned q = true ->
  In k (map (cell_id clothW)
            (filter (is_corner clothW) (grid_cells clothW clothH))).
Proof.
  intros Hq Hp. apply built_particle in Hq.
  destruct Hq as [c [Hc [<- ->]]]. apply in_map. apply filter_In.
  split; assumption.
Qed.
End BuiltScene.

Section NearestFacts.
Context {F : Type} {SF : Scalar F}.
Implicit Types (q : Particle.t F) (l : list (Particle.t F)).

Lemma nearest_fst l q anchors best :
  fst (nearest l q anchors best) = fst best \/
  In (fst (nearest l q anchors best)) anchors.
Proof.
  revert best. induction anchors as [|a t IH]; intros best; simpl.
  - now left.
  - destruct (rest_distance l q a) as [d|]; [|now left].
    destruct (IH (if fltb d (snd best) then (a, d) else best)) as [H|H].
    + destruct (fltb d (snd best)); simpl in H; auto.
    + auto.
Qed.

Lemma lra_of_cases l att i c :
  In c (lra_of l att i) ->
  exists q, vget l i = Some q /\ Particle.pinned q = false /\
            c = LRAConstraint.mk i (fst (nearest l q att (-1, f1e30)))
                                 (snd (nearest l q att (-1, f1e30))) /\
            fst (nearest l q att (-1, f1e30)) <> -1.
Proof.
  unfold lra_of. destruct (vget l i) as [q|]; [|intros []].
  destruct (Particle.pinned q) eqn:Hp; [intros []|].
  destruct (Z.eqb_spec (fst (nearest l q att (-1, f1e30))) (-1)) as [E|E];
    simpl; [intros []|].
  intros [<-|[]]. exists q. auto.
Qed.

Lemma lra_of_idx l att i :
  map LRAConstraint.particleIdx (lra_of l att i)
  = if match lra_of l att i with [] => false | _ => true end then [i] else [].
Proof.
  unfold lra_of. destruct (vget l i) as [q|]; [|reflexivity].
  destruct (Particle.pinned q); [reflexivity|].
  destruct (negb _); reflexivity.
Qed.

Lemma lra_idx_filter l att ids :
  map LRAConstraint.particleIdx (flat_map (lra_of l att) ids)
  = filter (fun i => match lra_of l att i with [] => false | _ => true end)
           ids.
Proof.
  induction ids as [|i t IH]; simpl; [reflexivity|].
  rewrite map_app, IH, lra_of_idx.
  destruct (lra_of l att i); reflexivity.
Qed.

Lemma distinct_NoDup (l : list Z) : distinct l = true <-> NoDup l.
Proof.
  induction l as [|a t IH]; simpl.
  - split; [constructor|reflexivity].
  - rewrite andb_true_iff, negb_true_iff, IH. split.
    + intros [Hn Ht]. constructor; [|assumption].
      intros Hin. assert (existsb (Z.eqb a) t = true); [|congruence].
      apply existsb_exists. exists a. split; [assumption|apply Z.eqb_refl].
    + intros H. inversion H as [|? ? Hn Ht]; subst. split; [|assumption].
      destruct (existsb (Z.eqb a) t) eqn:E; [|reflexivity].
      apply existsb_exists in E. destruct E as [x [Hx Hax]].
      apply Z.eqb_eq in Hax. subst x. contradiction.
Qed.

Lemma zrange_NoDup n : NoDup (zrange n).
Proof.
  unfold zrange. generalize (seq_NoDup (Z.to_nat n) 0).
  generalize (seq 0 (Z.to_nat n)). intros l Hl.
  induction Hl as [|a t Ha Ht IH]; simpl; constructor; [|assumption].
  intros Hin. apply in_map_iff in Hin. destruct Hin as [b [Hb Hin]].
  apply Nat2Z.inj in Hb. now subst b.
Qed.
End NearestFacts.

Section BuiltOk.
Context {F : Type} {SF : Scalar F}.
Variables clothW clothH : Z.
Variable spacing : F.
Hypothesis HW : 0 <= clothW.
Hypothesis HH : 0 <= clothH.

(** The builder completes and produces a well-formed scene. *)
Lemma buildScene_ok (G0 : Globals F) :
  exists Gb, exec (buildScene clothW clothH spacing) G0 = Some Gb /\
             scene_ok Gb = true.
Proof.
  destruct (buildScene_eq clothW clothH spacing HW HH G0) as [L [E HL]].
  eexists. split; [exact E|].
  unfold scene_ok. simpl. rewrite HL. simpl.
  apply andb_true_iff. split.
  - apply forallb_forall. intros c Hc. apply in_flat_map in Hc.
    destruct Hc as [i [_ Hc]]. apply lra_of_cases in Hc.
    destruct Hc as [q [Hq [Hp [-> Hne]]]].
    unfold lra_ok. simpl. rewrite Hq.
    destruct (nearest_fst
                (map (rest_particle clothW clothH spacing)
                     (grid_cells clothW clothH)) q
                (map (cell_id clothW)
                     (filter (is_corner clothW) (grid_cells clothW clothH)))
                (-1, f1e30)) as [H|H]; [simpl in H; congruence|].
    apply (anchors_pinned clothW clothH spacing HW HH) in H.
    destruct H as [a [-> Ha]]. now rewrite Hp, Ha.
  - apply distinct_NoDup. rewrite lra_idx_filter.
    apply NoDup_filter, zrange_NoDup.
Qed.
End BuiltOk.

(** ** The comparisons of the two instances *)


(** Two keys in the stated order. *)
Ltac key_pair :=
  eexists; eexists; split; [reflexivity|split; [reflexivity|]]; simpl; lia.

Lemma SFcompare_key a b :
  match SFcompare a b with
  | None => B32.key a = None \/ B32.key b = None
  | Some Lt => exists ka kb, B32.key a = Some ka /\ B32.key b = Some kb /\
                             B32.key_lt ka kb
  | Some Eq => exists k, B32.key a = Some k /\ B32.key b = Some k
  | Some Gt => exists ka kb, B32.key a = Some ka /\ B32.key b = Some kb /\
                             B32.key_lt kb ka
  end.
Proof.
  destruct a as [[]|[]| |[] m1 e1], b as [[]|[]| |[] m2 e2]; simpl; auto;
    try (eexists; split; reflexivity);
    try key_pair.
  - destruct (Z.compare_spec e1 e2) as [He|He|He].
    + subst e2. change (Pos.compare_cont Eq m1 m2) with (Pos.compare m1 m2).
      destruct (Pos.compare_spec m1 m2) as [Hm|Hm|Hm]; simpl.
      * subst. eexists. split; reflexivity.
      * key_pair.
      * key_pair.
    + key_pair.
    + key_pair.
  - destruct (Z.compare_spec e1 e2) as [He|He|He].
    + subst e2. change (Pos.compare_cont Eq m1 m2) with (Pos.compare m1 m2).
      destruct (Pos.compare_spec m1 m2) as [Hm|Hm|Hm]; simpl.
      * subst. eexists. split; reflexivity.
      * key_pair.
      * key_pair.
    + key_pair.
    + key_pair.
Qed.

Lemma SFltb_key a b :
  SFltb a b = true <->
  exists ka kb, B32.key a = Some ka /\ B32.key b = Some kb /\ B32.key_lt ka kb.
Proof.
  unfold SFltb. assert (H := SFcompare_key a b).
  destruct (SFcompare a b) as [[]|]; split; try discriminate; auto.
  - destruct H as [k [Ha Hb]]. intros [ka [kb [Ha' [Hb' Hlt]]]].
    assert (ka = k) by congruence. assert (kb = k) by congruence. subst.
    destruct k as [[k1 k2] k3]. simpl in Hlt. lia.
  - destruct H as [ka [kb [Ha [Hb Hlt]]]]. intros [ka' [kb' [Ha' [Hb' Hlt']]]].
    assert (ka' = ka) by congruence. assert (kb' = kb) by congruence. subst.
    destruct ka as [[a1 a2] a3], kb as [[b1 b2] b3]. simpl in *. lia.
  - intros [ka [kb [Ha [Hb _]]]]. destruct H; congruence.
Qed.

Lemma SFleb_key a b :
  SFleb a b = true <->
  exists ka kb, B32.key a = Some ka /\ B32.key b = Some kb /\
                (B32.key_lt ka kb \/ ka = kb).
Proof.
  unfold SFleb. assert (H := SFcompare_key a b).
  destruct (SFcompare a b) as [[]|]; split; try discriminate; auto.
  - destruct H as [k [Ha Hb]]. intros _. exists k, k. auto.
  - destruct H as [ka [kb [Ha [Hb Hlt]]]]. intros _. exists ka, kb. auto.
  - destruct H as [ka [kb [Ha [Hb Hlt]]]]. intros [ka' [kb' [Ha' [Hb' Hle]]]].
    assert (ka' = ka) by congruence. assert (kb' = kb) by congruence. subst.
    destruct ka as [[a1 a2] a3], kb as [[b1 b2] b3]. simpl in *.
    destruct Hle as [Hle|Hle]; [lia|]. injection Hle as -> -> ->. lia.
  - intros [ka [kb [Ha [Hb _]]]]. destruct H; congruence.
Qed.

#[export] Instance B32_order : @ScalarOrder spec_float B32.scalar.
Proof.
  constructor; simpl.
  - intros a b c. rewrite !SFltb_key.
    intros [ka [kb [Ha [Hb H1]]]] [kb' [kc [Hb' [Hc H2]]]].
    assert (kb' = kb) by congruence. subst. exists ka, kc.
    repeat split; auto.
    destruct ka as [[a1 a2] a3], kb as [[b1 b2] b3], kc as [[c1 c2] c3].
    simpl in *. lia.
  - intros a b c. rewrite !SFltb_key, SFleb_key.
    intros [ka [kb [Ha [Hb H1]]]] [kb' [kc [Hb' [Hc H2]]]].
    assert (kb' = kb) by congruence. subst. exists ka, kc.
    repeat split; auto.
    destruct H1 as [H1|H1]; [|now subst].
    destruct ka as [[a1 a2] a3], kb as [[b1 b2] b3], kc as [[c1 c2] c3].
    simpl in *. lia.
  - intros a b. rewrite SFltb_key, SFleb_key.
    intros [ka [kb [Ha [Hb H1]]]]. exists ka, kb. auto.
  - intros a b. rewrite SFltb_key. intros [ka [kb [Ha [Hb H1]]]].
    destruct (SFleb b a) eqn:E; [|reflexivity].
    apply SFleb_key in E. destruct E as [kb' [ka' [Hb' [Ha' H2]]]].
    assert (kb' = kb) by congruence. assert (ka' = ka) by congruence. subst.
    destruct ka as [[a1 a2] a3], kb as [[b1 b2] b3]. simpl in *.
    destruct H2 as [H2|H2]; [lia|]. injection H2 as -> -> ->. lia.
Qed.


Lemma Rltb_true (a b : R) : RealScalar.ltb a b = true <-> (a < b)%R.
Proof. unfold RealScalar.ltb. destruct (Rlt_dec a b); split; auto; discriminate. Qed.

Lemma Rltb_false (a b : R) : RealScalar.ltb a b = false <-> (b <= a)%R.
Proof.
  unfold RealScalar.ltb. destruct (Rlt_dec a b); split; auto; try discriminate; lra.
Qed.

Lemma Rleb_true (a b : R) : RealScalar.leb a b = true <-> (a <= b)%R.
Proof. unfold RealScalar.leb. destruct (Rle_dec a b); split; auto; discriminate. Qed.

Lemma Rleb_false (a b : R) : RealScalar.leb a b = false <-> (b < a)%R.
Proof.
  unfold RealScalar.leb. destruct (Rle_dec a b); split; auto; try discriminate; lra.
Qed.

#[export] Instance R_order : @ScalarOrder R RealScalar.scalar.
Proof.
  constructor; simpl.
  - intros a b c. rewrite !Rltb_true. lra.
  - intros a b c. rewrite !Rltb_true, Rleb_true. lra.
  - intros a b. rewrite Rltb_true, Rleb_true. lra.
  - intros a b. rewrite Rltb_true, Rleb_false. lra.
Qed.

(** ** The nearest-anchor scan *)

Section NearestOrder.
Context {F : Type} {SF : Scalar F} {SO : ScalarOrder F}.
Implicit Types (q : Particle.t F) (l : list (Particle.t F)).

Lemma fltb_irrefl (a : F) : fltb a a = false.
Proof.
  destruct (fltb a a) eqn:E; [|reflexivity].
  assert (H1 := fltb_fleb _ _ E). assert (H2 := fltb_not_fleb _ _ E).
  congruence.
Qed.

Lemma rest_distance_in_range l q a :
  in_range l a = true -> exists d, rest_distance l q a = Some d.
Proof.
  intros H. apply in_range_vget in H. destruct H as [pa Ha].
  unfold rest_distance. rewrite Ha. eauto.
Qed.

(** Either no anchor of the list beats the initial bound, or the result is
    the first anchor at the least distance: strictly below the initial bound,
    every earlier anchor is not within that distance, and no later anchor is
    strictly closer. *)
Lemma nearest_spec l q anchors best :
  forallb (in_range l) anchors = true ->
  (nearest l q anchors best = best /\
   forall a d, In a anchors -> rest_distance l q a = Some d ->
               fltb d (snd best) = false)
  \/
  (exists pre post,
      anchors = pre ++ fst (nearest l q anchors best) :: post /\
      rest_distance l q (fst (nearest l q anchors best))
      = Some (snd (nearest l q anchors best)) /\
      fltb (snd (nearest l q anchors best)) (snd best) = true /\
      (forall a d, In a pre -> rest_distance l q a = Some d ->
                   fleb d (snd (nearest l q anchors best)) = false) /\
      (forall a d, In a post -> rest_distance l q a = Some d ->
                   fltb d (snd (nearest l q anchors best)) = false)).
Proof.
  revert best. induction anchors as [|a t IH]; intros best Hr.
  - left. split; [reflexivity|]. intros a d [].
  - simpl in Hr. apply andb_true_iff in Hr. destruct Hr as [Ha Ht].
    destruct (rest_distance_in_range l q a Ha) as [d Hd].
    simpl. rewrite Hd.
    destruct (fltb d (snd best)) eqn:Elt.
    + destruct (IH (a, d) Ht) as [[Hn Hall]|[pre [post [E [Hb [Hlt [Hp Hq]]]]]]].
      * right. exists [], t. rewrite Hn. simpl.
        repeat split; auto. intros x dx [].
      * right. exists (a :: pre), post. simpl in Hlt.
        split; [simpl; now f_equal|].
        split; [assumption|].
        split; [eapply fltb_trans; eauto|].
        split; [|assumption].
        intros x dx [<-|Hx] Hdx; [|eauto].
        assert (dx = d) by congruence. subst dx.
        now apply fltb_not_fleb.
    + destruct (IH best Ht) as [[Hn Hall]|[pre [post [E [Hb [Hlt [Hp Hq]]]]]]].
      * left. split; [assumption|].
        intros x dx [<-|Hx] Hdx; [|eauto]. congruence.
      * right. exists (a :: pre), post.
        split; [simpl; now f_equal|].
        split; [assumption|]. split; [assumption|]. split; [|assumption].
        intros x dx [<-|Hx] Hdx; [|eauto].
        assert (dx = d) by congruence. subst dx.
        destruct (fleb d (snd (nearest l q t best))) eqn:Ele; [|reflexivity].
        assert (fltb d (snd best) = true)
          by (eapply fleb_fltb_trans; eauto).
        congruence.
Qed.
End NearestOrder.

Section BuiltLRA.
Context {F : Type} {SF : Scalar F} {SO : ScalarOrder F}.

Lemma filter_lra_of (l : list (Particle.t F)) att i k :
  filter (fun c => LRAConstraint.particleIdx c =? i) (lra_of l att k)
  = if k =? i then lra_of l att k else [].
Proof.
  unfold lra_of. destruct (vget l k) as [q|]; [|now destruct (k =? i)].
  destruct (Particle.pinned q); [now destruct (k =? i)|].
  destruct (negb _); [|now destruct (k =? i)].
  simpl. now destruct (k =? i).
Qed.

Lemma filter_flat_map_lra (l : list (Particle.t F)) att i ids :
  NoDup ids -> In i ids ->
  filter (fun c => LRAConstraint.particleIdx c =? i)
         (flat_map (lra_of l att) ids)
  = lra_of l att i.
Proof.
  assert (Hout : forall ids', ~ In i ids' ->
            filter (fun c => LRAConstraint.particleIdx c =? i)
                   (flat_map (lra_of l att) ids') = []).
  { induction ids' as [|k t IH]; intros Hn; simpl; [reflexivity|].
    rewrite filter_app, filter_lra_of, IH by (intros Hi; apply Hn; now right).
    destruct (Z.eqb_spec k i) as [->|_]; [|reflexivity].
    exfalso. apply Hn. now left. }
  induction ids as [|k t IH]; intros Hnd Hin; [destruct Hin|].
  inversion Hnd as [|? ? Hk Ht]; subst. simpl.
  rewrite filter_app, filter_lra_of.
  destruct (Z.eqb_spec k i) as [->|Hne].
  - rewrite Hout by assumption. apply app_nil_r.
  - destruct Hin as [->|Hin]; [congruence|]. simpl. now apply IH.
Qed.
End BuiltLRA.

(** ** The LRA loop, and lengths in exact arithmetic *)

Section LRAFrame.
Context {F : Type} {SF : Scalar F}.

(** The LRA loop writes the particles of its constraints only. *)
Lemma lra_loop_untouched (cs : list (LRAConstraint.t F)) G G' k :
  exec (for_each cs projectLRA) G = Some G' ->
  ~ In k (map LRAConstraint.particleIdx cs) ->
  vget (P G') k = vget (P G) k.
Proof.
  intros E Hk.
  apply (for_each_preserves (fun G1 => vget (P G1) k = vget (P G) k)
                            cs projectLRA) with (G := G);
    [|reflexivity|assumption].
  intros c G1 G2 Hc H1 E2.
  destruct (projectLRA_inv _ _ _ E2) as [q [a [Hq Ha]]].
  destruct (projectLRA_step c G1 _ _ Hq Ha)
    as [G2' [q' [E2' [_ [_ [_ [Ho _]]]]]]].
  assert (G2' = G2) by congruence. subst G2'.
  rewrite Ho; [assumption|]. intros ->. apply Hk. now apply in_map.
Qed.

Lemma passes_spec_snoc n (G : Globals F) :
  passes_spec (S n) G = match passes_spec n G with
                        | Some G1 => pass_spec G1
                        | None => None
                        end.
Proof.
  revert G. induction n as [|n IH]; intros G.
  - simpl. now destruct (pass_spec G).
  - change (passes_spec (S (S n)) G)
      with (match pass_spec G with
            | Some G1 => passes_spec (S n) G1
            | None => None
            end).
    destruct (pass_spec G) as [G1|] eqn:E1.
    + rewrite IH. simpl. now rewrite E1.
    + simpl. now rewrite E1.
Qed.
End LRAFrame.

Section RealClamp.
Import RealScalar.
Local Open Scope R_scope.
Implicit Types (G : Globals R) (c : LRAConstraint.t R).

Lemma length_nonneg (a : vec3.t R) : 0 <= glm.length a.
Proof. unfold glm.length. simpl. apply sqrt_pos. Qed.

(** A point moved from [a] along [dir] by the factor [k] is at distance
    [k * |dir|] from [a]. *)
Lemma length_scaled (a dir : vec3.t R) (k : R) :
  0 <= k ->
  glm.length (glm.sub (glm.add a (glm.scale dir k)) a) = k * glm.length dir.
Proof.
  intros Hk. unfold glm.length, glm.dot, glm.sub, glm.add, glm.scale. simpl.
  destruct a as [ax ay az], dir as [dx dy dz]. simpl.
  replace ((ax + dx * k - ax) * (ax + dx * k - ax)
           + (ay + dy * k - ay) * (ay + dy * k - ay)
           + (az + dz * k - az) * (az + dz * k - az))
    with ((k * k) * (dx * dx + dy * dy + dz * dz)) by ring.
  rewrite sqrt_mult; [|nra|nra]. now rewrite sqrt_square.
Qed.
End RealClamp.

Section RealBuilt.
Import RealScalar.
Local Open Scope R_scope.

Lemma f1e30_nonneg : 0 <= (f1e30 : R).
Proof.
  unfold f1e30. simpl frat.
  apply Rle_mult_inv_pos; [apply IZR_le; lia|lra].
Qed.

Lemma nearest_nonneg (l : list (Particle.t R)) q anchors best :
  0 <= snd best -> 0 <= snd (nearest l q anchors best).
Proof.
  revert best. induction anchors as [|a t IH]; intros best Hb; simpl.
  - assumption.
  - unfold rest_distance. destruct (vget l a) as [pa|]; [|assumption].
    apply IH.
    match goal with |- context [if ?b then _ else _] => destruct b end;
      [apply length_nonneg|assumption].
Qed.

(** Every [maxDist] the builder stores is a distance. *)
Lemma built_maxDist_nonneg (clothW clothH : Z) (spacing : R) G0 Gb c :
  (0 <= clothW)%Z -> (0 <= clothH)%Z ->
  exec (buildScene clothW clothH spacing) G0 = Some Gb ->
  In c (lraConstraints Gb) -> 0 <= LRAConstraint.maxDist c.
Proof.
  intros HW HH E Hc.
  destruct (buildScene_eq clothW clothH spacing HW HH G0) as [L [E' _]].
  rewrite E' in E. injection E as <-. simpl in Hc.
  apply in_flat_map in Hc. destruct Hc as [i [_ Hc]].
  apply lra_of_cases in Hc. destruct Hc as [q [_ [_ [-> _]]]]. simpl.
  apply nearest_nonneg. apply f1e30_nonneg.
Qed.
End RealBuilt.

(** ** The main loop *)

Section MainLoopFacts.
Context {F : Type} {SF : Scalar F}.
Variables clothW clothH : Z.
Variable spacing : F.

Lemma keyboard_sim k (w : World F) :
  sim_outcome (keyboard clothW clothH spacing k w)
  = sim_handle clothW clothH spacing (Key k) (sim w).
Proof.
  unfold sim_handle, keyboard, lift_sim. simpl sim.
  repeat match goal with
         | |- context [if ?b then _ else _] => destruct b
         end;
    try reflexivity.
  destruct (exec (buildScene clothW clothH spacing) (sim w)); reflexivity.
Qed.

Lemma handle_sim e (w : World F) :
  sim_outcome (handle clothW clothH spacing e w)
  = match sim_input e with
    | Some a => sim_handle clothW clothH spacing a (sim w)
    | None => SimRunning (sim w)
    end.
Proof.
  destruct e; simpl sim_input; try reflexivity.
  - simpl. unfold idle. now destruct (exec simulate (sim w)).
  - apply keyboard_sim.
Qed.

(** The trajectory and the final simulation state of the main loop are those
    of the simulation run on the ticks and key presses alone. *)
Lemma mainLoop_sim es (w : World F) :
  (fst (mainLoop clothW clothH spacing es w),
   sim_outcome (snd (mainLoop clothW clothH spacing es w)))
  = sim_loop clothW clothH spacing (sim_inputs es) (sim w).
Proof.
  revert w. induction es as [|e t IH]; intros w; [reflexivity|].
  assert (Hquiet : forall w',
    handle clothW clothH spacing e w = Running w' ->
    sim_input e = None -> sim w' = sim w ->
    (fst (mainLoop clothW clothH spacing (e :: t) w),
     sim_outcome (snd (mainLoop clothW clothH spacing (e :: t) w)))
    = sim_loop clothW clothH spacing (sim_inputs (e :: t)) (sim w)).
  { intros w' Eh Ei Es. simpl mainLoop. simpl sim_inputs. rewrite Eh, Ei.
    specialize (IH w'). rewrite Es in IH. rewrite <- IH.
    destruct (mainLoop clothW clothH spacing t w') as [tr o].
    destruct e; try discriminate; reflexivity. }
  assert (Hloud : forall a,
    sim_input e = Some a ->
    (fst (mainLoop clothW clothH spacing (e :: t) w),
     sim_outcome (snd (mainLoop clothW clothH spacing (e :: t) w)))
    = sim_loop clothW clothH spacing (sim_inputs (e :: t)) (sim w)).
  { intros a Ei. assert (H := handle_sim e w). rewrite Ei in H.
    simpl mainLoop. simpl sim_inputs. rewrite Ei. simpl sim_loop.
    rewrite <- H.
    destruct (handle clothW clothH spacing e w) as [w'| |]; simpl;
      try reflexivity.
    specialize (IH w'). rewrite <- IH.
    destruct (mainLoop clothW clothH spacing t w') as [tr o]. simpl.
    destruct e; try discriminate; injection Ei as <-; reflexivity. }
  destruct e.
  - now apply (Hquiet w).
  - now apply (Hloud Tick).
  - now apply (Hquiet w).
  - now apply (Hquiet (mouseButton button state x y w)).
  - now apply (Hquiet (mouseMotion x y w)).
  - now apply (Hloud (Key key)).
Qed.
End MainLoopFacts.


Section SolverClaims.
Context {F : Type} {SF : Scalar F}.
Implicit Types (G : Globals F).
Import Particle.
Local Open Scope scalar_scope.

(** What [projectLRA] leaves alone, in any arithmetic. *)
Lemma projectLRA_only_position (c : LRAConstraint.t F) G q a :
  vget (P G) (LRAConstraint.particleIdx c) = Some q ->
  vget (P G) (LRAConstraint.attachmentIdx c) = Some a ->
  exists G',
    exec (projectLRA c) G = Some G' /\
    same_globals G G' /\
    localConstraints G' = localConstraints G /\
    lraConstraints G' = lraConstraints G /\
    List.length (P G') = List.length (P G) /\
    (forall k, k <> LRAConstraint.particleIdx c ->
               vget (P G') k = vget (P G) k) /\
    (LRAConstraint.attachmentIdx c <> LRAConstraint.particleIdx c ->
     vget (P G') (LRAConstraint.attachmentIdx c) = Some a) /\
    exists q',
      vget (P G') (LRAConstraint.particleIdx c) = Some q' /\
      old_p q' = old_p q /\ v q' = v q /\ w q' = w q /\
      pinned q' = pinned q.
Proof.
  intros Hq Ha.
  destruct (projectLRA_step c G _ _ Hq Ha)
    as [G' [q' [E [Hs [Hq' [Hm [Ho [HF _]]]]]]]].
  exists G'. split; [assumption|]. split; [assumption|].
  destruct (same_globals_fields _ _ Hs) as [Hl [Hr _]].
  split; [assumption|]. split; [assumption|].
  split; [symmetry; apply (Forall2_length HF)|].
  split; [assumption|].
  split; [intros Hne; now rewrite (Ho _ Hne)|].
  exists q'. split; [assumption|]. now apply moved_fields.
Qed.


(** The cases in which [projectLocal] does nothing, in any arithmetic. *)
Lemma projectLocal_skips (c : LocalConstraint.t F) G p1 p2 :
  vget (P G) (LocalConstraint.i c) = Some p1 ->
  vget (P G) (LocalConstraint.j c) = Some p2 ->
  ((glm.length (glm.sub (p p1) (p p2)) <? f1e_6) = true ->
   exec (projectLocal c) G = Some G) /\
  ((w p1 + w p2 <? f1e_6) = true -> exec (projectLocal c) G = Some G) /\
  (pinned p1 = true -> pinned p2 = true -> exec (projectLocal c) G = Some G).
Proof.
  intros H1 H2. rewrite (projectLocal_eq c G _ _ H1 H2). cbv zeta.
  split; [|split].
  - now intros ->.
  - intros ->. now destruct (fltb _ _).
  - intros Hp1 Hp2. destruct (fltb _ _); [reflexivity|].
    destruct (fltb _ _); [reflexivity|].
    rewrite Hp1. simpl. rewrite H2, Hp2. reflexivity.
Qed.

(** The general rule of the local projection.  [projectLocal] on a constraint between two
    different particles, neither degenerate case applying: the first end
    point, unless pinned, moves by [dp * (w1 / (w1 + w2))], and the second,
    unless pinned, by [- dp * (w2 / (w1 + w2))], where [dp] is the full
    correction [-(dist - restLen) * (dir / dist)]; no other particle
    changes. *)
Lemma projectLocal_weights (c : LocalConstraint.t F) G p1 p2 :
  LocalConstraint.i c <> LocalConstraint.j c ->
  vget (P G) (LocalConstraint.i c) = Some p1 ->
  vget (P G) (LocalConstraint.j c) = Some p2 ->
  let dir := glm.sub (p p1) (p p2) in
  let dist := glm.length dir in
  let wSum := w p1 + w p2 in
  let dp := glm.lscale (- ((dist - LocalConstraint.restLen c) * (f1 - f0)))
                       (glm.div dir dist) in
  (dist <? f1e_6) = false -> (wSum <? f1e_6) = false ->
  exists G',
    exec (projectLocal c) G = Some G' /\
    vget (P G') (LocalConstraint.i c)
    = Some (if pinned p1 then p1
            else with_p (glm.add (p p1) (glm.scale dp (w p1 / wSum))) p1) /\
    vget (P G') (LocalConstraint.j c)
    = Some (if pinned p2 then p2
            else with_p (glm.sub (p p2) (glm.scale dp (w p2 / wSum))) p2) /\
    forall k, k <> LocalConstraint.i c -> k <> LocalConstraint.j c ->
              vget (P G') k = vget (P G) k.
Proof.
  intros Hne H1 H2 dir dist wSum dp Hd Hw.
  rewrite (projectLocal_eq c G _ _ H1 H2). cbv zeta.
  fold dir dist. rewrite Hd. fold wSum. rewrite Hw. fold dp.
  assert (Hfirst : exists G1,
    (if negb (pinned p1)
     then exec (set_p (LocalConstraint.i c)
                      (glm.add (p p1) (glm.scale dp (w p1 / wSum)))) G
     else Some G) = Some G1 /\
    vget (P G1) (LocalConstraint.i c)
    = Some (if pinned p1 then p1
            else with_p (glm.add (p p1) (glm.scale dp (w p1 / wSum))) p1) /\
    (forall k, k <> LocalConstraint.i c -> vget (P G1) k = vget (P G) k)).
  { destruct (pinned p1); simpl.
    - exists G. auto.
    - destruct (set_p_run G (LocalConstraint.i c)
                  (glm.add (p p1) (glm.scale dp (w p1 / wSum))) _ H1)
        as [l [Hl El]].
      destruct (set_p_effect G _ _ _ _ H1 El) as [_ [Hb [Hc _]]].
      exists (set_P l G). auto. }
  destruct Hfirst as [G1 [-> [Hi1 Ho1]]].
  assert (H2' : vget (P G1) (LocalConstraint.j c) = Some p2).
  { rewrite Ho1; auto. }
  rewrite H2'. destruct (pinned p2); simpl.
  - exists G1. repeat split; auto.
  - destruct (set_p_run G1 (LocalConstraint.j c)
                (glm.sub (p p2) (glm.scale dp (w p2 / wSum))) _ H2')
      as [l [Hl El]].
    destruct (set_p_effect G1 _ _ _ _ H2' El) as [_ [Hb [Hc _]]].
    exists (set_P l G1). split; [assumption|].
    split; [rewrite Hc; auto|]. split; [assumption|].
    intros k Hki Hkj. rewrite Hc; auto.
Qed.
End SolverClaims.

(** ** Facts of the two arithmetics used by the claims *)

Section B32Facts.
Import B32.
Local Open Scope scalar_scope.

(** The literals of the source have the bit patterns a compiler gives them:
    0.99f 3F7D70A4, 1e30f 7149F2CA, 1e-6f 358637BD, 1.0f/60.0f 3C888889,
    9.8f 411CCCCD, 0.05f 3D4CCCCD, 1.0f 3F800000, 0.5f 3F000000,
    3.14159265f 40490FDB. *)
Example b32_literals :
  map bits [f0_99; f1e30; f1e_6; dt; frat 98 10; frat 5 100; f1; f0_5;
            frat 314159265 100000000]
  = [1065185444; 1900671690; 897988541; 1015580809; 1092406477;
     1028443341; 1065353216; 1056964608; 1078530011]%Z.
Proof. vm_compute. reflexivity. Qed.

(** One tick of the 3 x 3 grid in binary32: the centre particle has fallen,
    the two corners have not moved. *)
Example grid3_one_tick :
  match exec simulate grid3 with
  | Some G =>
      (vec3.y (Particle.p (particle_of G 4))
       <? vec3.y (Particle.p (particle_of grid3 4)))
      && match vget (P G) 0, vget (P G) 2 with
         | Some a, Some b =>
             SFeqb (vec3.x (Particle.p a))
                   (vec3.x (Particle.p (particle_of grid3 0)))
             && SFeqb (vec3.y (Particle.p a))
                      (vec3.y (Particle.p (particle_of grid3 0)))
             && SFeqb (vec3.x (Particle.p b))
                      (vec3.x (Particle.p (particle_of grid3 2)))
             && SFeqb (vec3.y (Particle.p b))
                      (vec3.y (Particle.p (particle_of grid3 2)))
         | _, _ => false
         end
  | None => false
  end = true.
Proof. vm_compute. reflexivity. Qed.

Lemma b32_weights :
  (f1 / (f1 + f0) = (f1 : spec_float)) /\
  (f1 / (f0 + f1) = (f1 : spec_float)) /\
  (f0 / (f1 + f0) = (f0 : spec_float)) /\
  (f0 / (f0 + f1) = (f0 : spec_float)).
Proof. repeat split; vm_compute; reflexivity. Qed.

Lemma b32_zero_sum : ((f0 + f0 : spec_float) <? f1e_6) = true.
Proof. vm_compute. reflexivity. Qed.

Lemma b32_damping : ((f0_99 : spec_float) <? f1) = true.
Proof. vm_compute. reflexivity. Qed.
End B32Facts.

Section RealFacts.
Import RealScalar.
Local Open Scope scalar_scope.

Lemma real_f1 : (f1 : R) = 1%R.
Proof. unfold f1. simpl. field. Qed.

Lemma real_f0 : (f0 : R) = 0%R.
Proof. unfold f0. simpl. field. Qed.

Lemma real_weights :
  (f1 / (f1 + f0) = (f1 : R)) /\
  (f1 / (f0 + f1) = (f1 : R)) /\
  (f0 / (f1 + f0) = (f0 : R)) /\
  (f0 / (f0 + f1) = (f0 : R)).
Proof. unfold f1, f0. simpl. repeat split; field. Qed.

Lemma real_zero_sum : ((f0 + f0 : R) <? f1e_6) = true.
Proof. unfold f0, f1e_6. simpl. apply Rltb_true. lra. Qed.

Lemma real_damping : ((f0_99 : R) <? f1) = true.
Proof. unfold f0_99, f1. simpl. apply Rltb_true. lra. Qed.
End RealFacts.

Section RealProjection.
Import RealScalar.
Local Open Scope R_scope.

Lemma length_sq (a : vec3.t R) :
  glm.length a * glm.length a
  = vec3.x a * vec3.x a + vec3.y a * vec3.y a + vec3.z a * vec3.z a.
Proof.
  unfold glm.length, glm.dot. simpl. apply sqrt_sqrt. nra.
Qed.

(** With the whole correction on one end point, the constraint is met. *)
Lemma corrected_length (a b : vec3.t R) (r : R) :
  0 < glm.length (glm.sub a b) -> 0 <= r ->
  glm.length
    (glm.sub
       (glm.add a
          (glm.lscale (- (glm.length (glm.sub a b) - r))
                      (glm.div (glm.sub a b) (glm.length (glm.sub a b)))))
       b) = r.
Proof.
  intros Hd Hr.
  assert (Hsq := length_sq (glm.sub a b)).
  set (d := glm.length (glm.sub a b)) in *.
  unfold glm.length at 1. unfold glm.dot, glm.sub, glm.add, glm.lscale,
    glm.div in *. simpl in *.
  destruct a as [ax ay az], b as [bx by' bz]. simpl in *.
  replace ((ax + - (d - r) * ((ax - bx) / d) - bx)
           * (ax + - (d - r) * ((ax - bx) / d) - bx)
           + (ay + - (d - r) * ((ay - by') / d) - by')
             * (ay + - (d - r) * ((ay - by') / d) - by')
           + (az + - (d - r) * ((az - bz) / d) - bz)
             * (az + - (d - r) * ((az - bz) / d) - bz))
    with ((r / d) * (r / d)
          * ((ax - bx) * (ax - bx) + (ay - by') * (ay - by')
             + (az - bz) * (az - bz)))
    by (field; lra).
  rewrite <- Hsq.
  replace (r / d * (r / d) * (d * d)) with (r * r) by (field; lra).
  now apply sqrt_square.
Qed.
End RealProjection.

Section B32MulOne.
Import B32.

Lemma iter_shr_xO (k : nat) (m : positive) :
  Nat.iter k shr_1 (Build_shr_record (Z.pos (Nat.iter k xO m)) false false)
  = Build_shr_record (Z.pos m) false false.
Proof.
  induction k as [|k IH]; [reflexivity|].
  rewrite Nat.iter_succ_r. simpl Nat.iter at 2. exact IH.
Qed.

Lemma digits2_iter_xO (k : nat) (m : positive) :
  Z.pos (digits2_pos (Nat.iter k xO m)) = Z.pos (digits2_pos m) + Z.of_nat k.
Proof.
  induction k as [|k IH]; [simpl; lia|].
  change (Nat.iter (S k) xO m) with (xO (Nat.iter k xO m)).
  simpl digits2_pos. rewrite Pos2Z.inj_succ, IH. lia.
Qed.

(** Multiplying a valid binary32 value by [1.0f] gives it back. *)
Lemma mul_one (a : spec_float) :
  valid_binary prec emax a = true -> SFmul prec emax a (@f1 _ scalar) = a.
Proof.
  destruct a as [[]|[]| |s m e]; try reflexivity.
  intros Hv. simpl in Hv. unfold bounded in Hv.
  apply andb_true_iff in Hv. destruct Hv as [Hc He].
  unfold canonical_mantissa in Hc. apply Z.eqb_eq in Hc.
  change (@f1 _ scalar) with (S754_finite false 8388608 (-23)).
  unfold SFmul. rewrite xorb_false_r.
  replace (m * 8388608)%positive with (Nat.iter 23 xO m)
    by (simpl; lia).
  unfold binary_round_aux, shr_fexp.
  unfold Zdigits2. rewrite digits2_iter_xO.
  replace (Z.pos (digits2_pos m) + Z.of_nat 23 + (e + -23))
    with (Z.pos (digits2_pos m) + e) by lia.
  rewrite Hc. replace (e - (e + -23)) with 23 by lia.
  unfold shr. unfold shr_record_of_loc.
  replace (iter_pos shr_1 23
             (Build_shr_record (Z.pos (Nat.iter 23 xO m)) false false))
    with (Build_shr_record (Z.pos m) false false).
  - simpl shr_m. simpl loc_of_shr_record. simpl round_nearest_even.
    replace (e + -23 + 23) with e by lia.
    cbv iota beta. rewrite Hc, Z.sub_diag. cbv iota beta.
    simpl shr_m. cbv iota. now rewrite He.
  - symmetry. apply (iter_shr_xO 23 m).
Qed.
End B32MulOne.

Section RealSolverFacts.
Import RealScalar.
Import Particle.
Local Open Scope R_scope.
Implicit Types (G : Globals R).


(** Over the reals, a constraint between a free particle of inverse mass 1
    and a pinned particle of inverse mass 0: the pinned one stays, the free
    one takes the whole correction, and the constraint is met afterwards.
    Both orders of the two end points. *)
Lemma projectLocal_free_pinned (c : LocalConstraint.t R) G p1 p2 :
  LocalConstraint.i c <> LocalConstraint.j c ->
  vget (P G) (LocalConstraint.i c) = Some p1 ->
  vget (P G) (LocalConstraint.j c) = Some p2 ->
  pinned p1 = false -> w p1 = 1 -> pinned p2 = true -> w p2 = 0 ->
  let dir := glm.sub (p p1) (p p2) in
  let dist := glm.length dir in
  let dp := glm.lscale (- (dist - LocalConstraint.restLen c))
                       (glm.div dir dist) in
  1 / 1000000 <= dist -> 0 <= LocalConstraint.restLen c ->
  exists G' p1',
    exec (projectLocal c) G = Some G' /\
    vget (P G') (LocalConstraint.j c) = Some p2 /\
    vget (P G') (LocalConstraint.i c) = Some p1' /\
    p p1' = glm.add (p p1) dp /\
    glm.length (glm.sub (p p1') (p p2)) = LocalConstraint.restLen c.
Proof.
  intros Hne H1 H2 Hp1 Hw1 Hp2 Hw2 dir dist dp Hd Hr.
  destruct (projectLocal_weights c G p1 p2 Hne H1 H2)
    as [G' [E [Hi [Hj _]]]].
  - apply Rltb_false. exact Hd.
  - apply Rltb_false. rewrite Hw1, Hw2. unfold f1e_6. simpl. lra.
  - rewrite Hp1 in Hi. rewrite Hp2 in Hj.
    eexists. eexists. split; [exact E|]. split; [exact Hj|].
    split; [exact Hi|].
    assert (Hpos : p (with_p
              (glm.add (p p1)
                 (glm.scale
                    (glm.lscale
                       (fneg
                          (fmul
                             (fsub (glm.length (glm.sub (p p1) (p p2)))
                                   (LocalConstraint.restLen c))
                             (fsub f1 f0)))
                       (glm.div (glm.sub (p p1) (p p2))
                                (glm.length (glm.sub (p p1) (p p2)))))
                    (fdiv (w p1) (fadd (w p1) (w p2))))) p1)
            = glm.add (p p1) dp).
    { cbn [Particle.p with_p]. rewrite Hw1, Hw2. subst dp.
      fold dir. fold dist. clearbody dist.
      unfold glm.add, glm.scale, glm.lscale, glm.div, f1, f0. simpl.
      f_equal; field; lra. }
    split; [exact Hpos|]. rewrite Hpos. subst dp dist dir.
    apply corrected_length; [lra|assumption].
Qed.

Lemma corrected_length_r (a b : vec3.t R) (r : R) :
  0 < glm.length (glm.sub a b) -> 0 <= r ->
  glm.length
    (glm.sub a
       (glm.sub b
          (glm.lscale (- (glm.length (glm.sub a b) - r))
                      (glm.div (glm.sub a b) (glm.length (glm.sub a b))))))
  = r.
Proof.
  intros Hd Hr.
  assert (Hsq := length_sq (glm.sub a b)).
  set (d := glm.length (glm.sub a b)) in *.
  unfold glm.length at 1. unfold glm.dot, glm.sub, glm.lscale, glm.div in *.
  simpl in *.
  destruct a as [ax ay az], b as [bx by' bz]. simpl in *.
  replace ((ax - (bx - - (d - r) * ((ax - bx) / d)))
           * (ax - (bx - - (d - r) * ((ax - bx) / d)))
           + (ay - (by' - - (d - r) * ((ay - by') / d)))
             * (ay - (by' - - (d - r) * ((ay - by') / d)))
           + (az - (bz - - (d - r) * ((az - bz) / d)))
             * (az - (bz - - (d - r) * ((az - bz) / d))))
    with ((r / d) * (r / d)
          * ((ax - bx) * (ax - bx) + (ay - by') * (ay - by')
             + (az - bz) * (az - bz)))
    by (field; lra).
  rewrite <- Hsq.
  replace (r / d * (r / d) * (d * d)) with (r * r) by (field; lra).
  now apply sqrt_square.
Qed.

Lemma projectLocal_pinned_free (c : LocalConstraint.t R) G p1 p2 :
  LocalConstraint.i c <> LocalConstraint.j c ->
  vget (P G) (LocalConstraint.i c) = Some p1 ->
  vget (P G) (LocalConstraint.j c) = Some p2 ->
  pinned p1 = true -> w p1 = 0 -> pinned p2 = false -> w p2 = 1 ->
  let dir := glm.sub (p p1) (p p2) in
  let dist := glm.length dir in
  let dp := glm.lscale (- (dist - LocalConstraint.restLen c))
                       (glm.div dir dist) in
  1 / 1000000 <= dist -> 0 <= LocalConstraint.restLen c ->
  exists G' p2',
    exec (projectLocal c) G = Some G' /\
    vget (P G') (LocalConstraint.i c) = Some p1 /\
    vget (P G') (LocalConstraint.j c) = Some p2' /\
    p p2' = glm.sub (p p2) dp /\
    glm.length (glm.sub (p p1) (p p2')) = LocalConstraint.restLen c.
Proof.
  intros Hne H1 H2 Hp1 Hw1 Hp2 Hw2 dir dist dp Hd Hr.
  destruct (projectLocal_weights c G p1 p2 Hne H1 H2)
    as [G' [E [Hi [Hj _]]]].
  - apply Rltb_false. exact Hd.
  - apply Rltb_false. rewrite Hw1, Hw2. unfold f1e_6. simpl. lra.
  - rewrite Hp1 in Hi. rewrite Hp2 in Hj.
    eexists. eexists. split; [exact E|]. split; [exact Hi|].
    split; [exact Hj|].
    assert (Hpos : p (with_p
              (glm.sub (p p2)
                 (glm.scale
                    (glm.lscale
                       (fneg
                          (fmul
                             (fsub (glm.length (glm.sub (p p1) (p p2)))
                                   (LocalConstraint.restLen c))
                             (fsub f1 f0)))
                       (glm.div (glm.sub (p p1) (p p2))
                                (glm.length (glm.sub (p p1) (p p2)))))
                    (fdiv (w p2) (fadd (w p1) (w p2))))) p2)
            = glm.sub (p p2) dp).
    { cbn [Particle.p with_p]. rewrite Hw1, Hw2. subst dp.
      fold dir. fold dist. clearbody dist.
      unfold glm.sub, glm.scale, glm.lscale, glm.div, f1, f0. simpl.
      f_equal; field; lra. }
    split; [exact Hpos|]. rewrite Hpos. subst dp dist dir.
    apply corrected_length_r; [lra|assumption].
Qed.
End RealSolverFacts.

(** ** A constraint anchored at its own particle *)

Section SelfAnchoredReal.
Import Particle RealScalar.

(** Over the reals the distance of a particle to itself is 0, which is
    either within the limit or below the coincidence threshold. *)
Lemma projectLRA_self_real (c : LRAConstraint.t R) (G : Globals R) q :
  LRAConstraint.attachmentIdx c = LRAConstraint.particleIdx c ->
  vget (P G) (LRAConstraint.particleIdx c) = Some q ->
  exec (projectLRA c) G = Some G.
Proof.
  intros Hidx Hq.
  assert (Ha : vget (P G) (LRAConstraint.attachmentIdx c) = Some q)
    by now rewrite Hidx.
  rewrite (projectLRA_eq c G _ _ Hq Ha). cbv zeta.
  assert (Hd : glm.length (glm.sub (p q) (p q)) = 0%R).
  { unfold glm.length, glm.dot, glm.sub. simpl.
    replace ((vec3.x (p q) - vec3.x (p q)) * (vec3.x (p q) - vec3.x (p q))
             + (vec3.y (p q) - vec3.y (p q)) * (vec3.y (p q) - vec3.y (p q))
             + (vec3.z (p q) - vec3.z (p q)) * (vec3.z (p q) - vec3.z (p q)))%R
      with 0%R by ring.
    apply sqrt_0. }
  rewrite Hd. destruct (fltb _ _); [|reflexivity].
  replace (fltb 0%R f1e_6) with true; [reflexivity|].
  symmetry. apply Rltb_true. unfold f1e_6. simpl. lra.
Qed.

End SelfAnchoredReal.

Section SelfAnchoredB32.
Import Particle B32.

Lemma sub_self_zn (a : spec_float) :
  B32.zero_or_nan (SFsub B32.prec B32.emax a a).
Proof.
  destruct a as [[]|[]| |s m e]; simpl;
    try (left; reflexivity); try (right; eexists; reflexivity).
  rewrite Z.sub_diag. right. eexists. reflexivity.
Qed.

Lemma mul_zn (a b : spec_float) :
  B32.zero_or_nan a -> B32.zero_or_nan b ->
  B32.zero_or_nan (SFmul B32.prec B32.emax a b).
Proof.
  intros [->|[s ->]] [->|[s' ->]]; simpl;
    try (left; reflexivity); right; eexists; reflexivity.
Qed.

Lemma add_zn (a b : spec_float) :
  B32.zero_or_nan a -> B32.zero_or_nan b ->
  B32.zero_or_nan (SFadd B32.prec B32.emax a b).
Proof.
  intros [->|[s ->]] [->|[s' ->]]; simpl;
    try (left; reflexivity).
  destruct s, s'; right; eexists; reflexivity.
Qed.

Lemma sqrt_zn (a : spec_float) :
  B32.zero_or_nan a -> B32.zero_or_nan (SFsqrt B32.prec B32.emax a).
Proof.
  intros [->|[s ->]]; simpl; [left; reflexivity|].
  right. eexists. reflexivity.
Qed.

Lemma projectLRA_self_b32 (c : LRAConstraint.t spec_float)
      (G : Globals spec_float) q :
  LRAConstraint.attachmentIdx c = LRAConstraint.particleIdx c ->
  vget (P G) (LRAConstraint.particleIdx c) = Some q ->
  exec (projectLRA c) G = Some G.
Proof.
  intros Hidx Hq.
  assert (Ha : vget (P G) (LRAConstraint.attachmentIdx c) = Some q)
    by now rewrite Hidx.
  rewrite (projectLRA_eq c G _ _ Hq Ha). cbv zeta.
  assert (Hd : B32.zero_or_nan (glm.length (glm.sub (p q) (p q)))).
  { unfold glm.length, glm.dot, glm.sub. simpl.
    apply sqrt_zn. repeat apply add_zn; apply mul_zn; apply sub_self_zn. }
  destruct Hd as [->|[s ->]].
  - replace (fltb (fmul (LRAConstraint.maxDist c) (g_lraSlack G)) S754_nan)
      with false; [reflexivity|].
    simpl. unfold SFltb.
    now destruct (SFmul B32.prec B32.emax (LRAConstraint.maxDist c)
                        (g_lraSlack G)) as [[]|[]| |[] m e].
  - destruct (fltb _ _); [|reflexivity].
    replace (fltb (S754_zero s) f1e_6) with true;
      [reflexivity|].
    now destruct s.
Qed.
End SelfAnchoredB32.
(** ** The builder in closed form *)

Section BuildClosed.
Context {F : Type} {SF : Scalar F}.
Variables clothW clothH : Z.
Variable spacing : F.
Hypothesis HW : 0 <= clothW.
Hypothesis HH : 0 <= clothH.

Lemma addEdge_eq (G : Globals F) a b pa pb :
  vget (P G) a = Some pa -> vget (P G) b = Some pb ->
  exec (addEdge a b) G
  = Some (mkGlobals (P G)
            (localConstraints G
             ++ [LocalConstraint.mk a b
                   (glm.length (glm.sub (Particle.p pa) (Particle.p pb)))])
            (lraConstraints G) (attachmentIndices G)
            (g_iterations G) (g_useLRA G) (g_lraSlack G)).
Proof.
  intros Ha Hb. unfold addEdge.
  erewrite exec_bind by (apply particle_run; eassumption).
  erewrite exec_bind by (apply particle_run; eassumption).
  reflexivity.
Qed.

(** Stage 2 on the rest particles: the edges of the cells, in order. *)
Lemma edge_loop_eq att it ul sl :
  exec (for_each (grid_cells clothW clothH)
          (fun c => add_edges clothW clothH (fst c) (snd c)))
       (mkGlobals (built_particles clothW clothH spacing) [] [] att it ul sl)
  = Some (mkGlobals (built_particles clothW clothH spacing)
                    (grid_edges clothW clothH spacing) [] att it ul sl).
Proof.
  set (l := built_particles clothW clothH spacing).
  destruct (for_each_invariant
    (fun pre G1 =>
       G1 = mkGlobals l (flat_map (cell_edges clothW clothH spacing) pre)
                      [] att it ul sl)
    (grid_cells clothW clothH)
    (fun c => add_edges clothW clothH (fst c) (snd c))
    (mkGlobals l [] [] att it ul sl)) as [G' [E ->]].
  - reflexivity.
  - intros pre c post G1 Ecells ->.
    assert (Hc : In c (grid_cells clothW clothH)).
    { rewrite Ecells. apply in_or_app. right. now left. }
    pose proof (rest_particle_at clothW clothH spacing HW HH c Hc) as H0.
    apply in_grid_cells in Hc. destruct c as [y x]. simpl in Hc.
    destruct Hc as [Hy Hx].
    exists (mkGlobals l (flat_map (cell_edges clothW clothH spacing) pre
                         ++ cell_edges clothW clothH spacing (y, x))
                      [] att it ul sl).
    split.
    2:{ rewrite flat_map_app. simpl flat_map. now rewrite app_nil_r. }
    unfold add_edges, cell_edges. simpl fst. simpl snd. rewrite exec_seq.
    destruct (Z.ltb_spec (x + 1) clothW) as [Hlt|Hge].
    + assert (H1 : In (y, x + 1) (grid_cells clothW clothH)).
      { apply in_grid_cells. simpl. lia. }
      apply (rest_particle_at clothW clothH spacing HW HH) in H1.
      erewrite addEdge_eq by first [exact H0|exact H1].
      simpl localConstraints.
      destruct (Z.ltb_spec (y + 1) clothH) as [Hlt'|Hge'].
      * assert (H2 : In (y + 1, x) (grid_cells clothW clothH)).
        { apply in_grid_cells. simpl. lia. }
        apply (rest_particle_at clothW clothH spacing HW HH) in H2.
        erewrite addEdge_eq by first [exact H0|exact H2]. simpl.
        rewrite <- app_assoc. reflexivity.
      * simpl. reflexivity.
    + change (exec (ret tt) ?G) with (Some G).
      destruct (Z.ltb_spec (y + 1) clothH) as [Hlt'|Hge'].
      * assert (H2 : In (y + 1, x) (grid_cells clothW clothH)).
        { apply in_grid_cells. simpl. lia. }
        apply (rest_particle_at clothW clothH spacing HW HH) in H2.
        erewrite addEdge_eq by first [exact H0|exact H2]. simpl. reflexivity.
      * simpl. rewrite app_nil_r. reflexivity.
  - exact E.
Qed.

(** [buildScene] from any state: the scene in closed form. *)
Lemma buildScene_closed (G0 : Globals F) :
  exec (buildScene clothW clothH spacing) G0
  = Some (built_scene clothW clothH spacing G0).
Proof.
  assert (Hlen : zlength (built_particles clothW clothH spacing)
                 = clothW * clothH).
  { unfold built_particles, zlength. rewrite length_map.
    apply (grid_cells_length clothW clothH HW HH). }
  unfold buildScene. rewrite exec_seq, exec_modify.
  rewrite exec_seq, grid_loop, (init_loop clothW clothH spacing HW HH).
  rewrite exec_seq, grid_loop.
  fold (built_particles clothW clothH spacing).
  rewrite edge_loop_eq.
  erewrite exec_bind by reflexivity.
  simpl P. unfold built_scene. rewrite <- Hlen. apply lra_loop.
  apply (anchors_in_range clothW clothH spacing HW HH).
Qed.
End BuildClosed.
(** ** The anchors and the edges of the grid *)

Section GridShape.

Lemma filter_none {A : Type} (keep : A -> bool) (xs : list A) :
  (forall x, In x xs -> keep x = false) -> filter keep xs = [].
Proof.
  intros Hdrop. induction xs as [|x xs IH]; [reflexivity|].
  simpl. rewrite (Hdrop x (or_introl eq_refl)). apply IH.
  intros y Hy. apply Hdrop. now right.
Qed.

Lemma filter_flat_map {A B : Type} (f : B -> bool) (h : A -> list B)
      (l : list A) :
  filter f (flat_map h l) = flat_map (fun a => filter f (h a)) l.
Proof.
  induction l as [|a t IH]; [reflexivity|].
  simpl. now rewrite filter_app, IH.
Qed.

Lemma flat_map_none {A B : Type} (h : A -> list B) (l : list A) :
  (forall a, In a l -> h a = []) -> flat_map h l = [].
Proof.
  induction l as [|a t IH]; intros Hh; [reflexivity|].
  simpl. rewrite (Hh a (or_introl eq_refl)). apply IH.
  intros b Hb. apply Hh. now right.
Qed.

Lemma zrange_cons n : 0 < n -> zrange n = 0 :: map (Z.add 1) (zrange (n - 1)).
Proof.
  intros Hn. replace n with (1 + (n - 1)) at 1 by lia.
  rewrite zrange_add by lia. reflexivity.
Qed.

(** The corners [buildScene] pins, in the order it meets them: none in an
    empty grid, one in a grid one cell wide, otherwise two. *)
Lemma corner_cells W H :
  0 <= W -> 0 <= H ->
  filter (is_corner W) (grid_cells W H)
  = if (W =? 0) || (H =? 0) then []
    else if W =? 1 then [(0, 0)] else [(0, 0); (0, W - 1)].
Proof.
  intros HW HH. unfold grid_cells.
  destruct (Z.eqb_spec H 0) as [->|HH0].
  { rewrite orb_true_r. reflexivity. }
  rewrite orb_false_r.
  rewrite (zrange_cons H) by lia. simpl flat_map. rewrite filter_app.
  rewrite (filter_none (is_corner W) (flat_map _ _)).
  2:{ intros c Hc. apply in_flat_map in Hc. destruct Hc as [y [Hy Hc]].
      apply in_map_iff in Hy. destruct Hy as [y0 [<- Hy0]].
      apply in_zrange in Hy0.
      apply in_map_iff in Hc. destruct Hc as [x [<- _]].
      unfold is_corner. cbn [fst snd].
      destruct (Z.eqb_spec (1 + y0) 0); [lia|reflexivity]. }
  rewrite app_nil_r.
  destruct (Z.eqb_spec W 0) as [->|HW0]; [reflexivity|].
  destruct (Z.eqb_spec W 1) as [->|HW1]; [reflexivity|].
  assert (EW : zrange W
               = 0 :: map (Z.add 1) (zrange (W - 2)) ++ [W - 1]).
  { replace W with (1 + ((W - 2) + 1)) at 1 by lia.
    rewrite (zrange_add 1) by lia. rewrite zrange_succ by lia.
    rewrite map_app. change (zrange 1) with [0]. cbn [map app].
    replace (1 + (W - 2)) with (W - 1) by lia. reflexivity. }
  rewrite EW. simpl map. rewrite map_app. simpl filter.
  unfold is_corner at 1. cbn [fst snd].
  destruct (Z.eqb_spec 0 (W - 1)); [lia|]. simpl andb.
  rewrite filter_app.
  rewrite (filter_none (is_corner W)).
  2:{ intros c Hc. apply in_map_iff in Hc. destruct Hc as [x [<- Hx]].
      apply in_map_iff in Hx. destruct Hx as [x0 [<- Hx0]].
      apply in_zrange in Hx0. unfold is_corner. cbn [fst snd].
      destruct (Z.eqb_spec (1 + x0) 0); [lia|].
      destruct (Z.eqb_spec (1 + x0) (W - 1)); [lia|reflexivity]. }
  simpl. unfold is_corner. cbn [fst snd].
  destruct (Z.eqb_spec (W - 1) 0); [lia|].
  now rewrite Z.eqb_refl.
Qed.

Lemma built_anchors_cases W H :
  0 <= W -> 0 <= H ->
  built_anchors W H
  = if (W =? 0) || (H =? 0) then []
    else if W =? 1 then [0] else [0; W - 1].
Proof.
  intros HW HH. unfold built_anchors. rewrite corner_cells by assumption.
  destruct ((W =? 0) || (H =? 0)); [reflexivity|].
  destruct (W =? 1); unfold cell_id, idx; simpl; [reflexivity|].
  f_equal.
Qed.
End GridShape.
Section EdgeFacts.
Context {F : Type} {SF : Scalar F}.
Variables clothW clothH : Z.
Variable spacing : F.
Hypothesis HW : 0 <= clothW.
Hypothesis HH : 0 <= clothH.

Lemma filter_all {A : Type} (keep : A -> bool) (xs : list A) :
  (forall x, In x xs -> keep x = true) -> filter keep xs = xs.
Proof.
  intros Hkeep. induction xs as [|x xs IH]; [reflexivity|].
  simpl. rewrite (Hkeep x (or_introl eq_refl)). f_equal. apply IH.
  intros y Hy. apply Hkeep. now right.
Qed.

Lemma in_grid_edges (c : LocalConstraint.t F) :
  In c (grid_edges clothW clothH spacing) <->
  exists y x,
    0 <= y < clothH /\ 0 <= x < clothW /\
    ((x + 1 < clothW /\
      c = rest_edge clothW clothH spacing (y, x) (y, x + 1)) \/
     (y + 1 < clothH /\
      c = rest_edge clothW clothH spacing (y, x) (y + 1, x))).
Proof.
  unfold grid_edges. rewrite in_flat_map. split.
  - intros [[y x] [Hc Hin]]. apply in_grid_cells in Hc. simpl in Hc.
    exists y, x. split; [tauto|]. split; [tauto|].
    unfold cell_edges in Hin. cbn [fst snd] in Hin.
    apply in_app_or in Hin. destruct Hin as [Hin|Hin].
    + destruct (Z.ltb_spec (x + 1) clothW); [|contradiction].
      destruct Hin as [<-|[]]. left. auto.
    + destruct (Z.ltb_spec (y + 1) clothH); [|contradiction].
      destruct Hin as [<-|[]]. right. auto.
  - intros [y [x [Hy [Hx Hc]]]]. exists (y, x). split.
    + apply in_grid_cells. simpl. lia.
    + unfold cell_edges. cbn [fst snd]. apply in_or_app.
      destruct Hc as [[Hlt ->]|[Hlt ->]].
      * left. destruct (Z.ltb_spec (x + 1) clothW); [now left|lia].
      * right. destruct (Z.ltb_spec (y + 1) clothH); [now left|lia].
Qed.

Lemma cell_edges_length (l : list (Z * Z)) :
  length (flat_map (cell_edges clothW clothH spacing) l)
  = Nat.add (length (filter (fun c => snd c + 1 <? clothW) l))
            (length (filter (fun c => fst c + 1 <? clothH) l)).
Proof.
  induction l as [|c t IH]; [reflexivity|].
  simpl. rewrite length_app, IH. unfold cell_edges. rewrite length_app.
  destruct (snd c + 1 <? clothW), (fst c + 1 <? clothH); simpl; lia.
Qed.

Lemma cells_with_right :
  1 <= clothW ->
  filter (fun c : Z * Z => snd c + 1 <? clothW) (grid_cells clothW clothH)
  = grid_cells (clothW - 1) clothH.
Proof.
  intros H1. unfold grid_cells. rewrite filter_flat_map.
  assert (E : zrange clothW = zrange (clothW - 1) ++ [clothW - 1]).
  { replace clothW with (clothW - 1 + 1) at 1 by lia.
    apply zrange_succ. lia. }
  apply flat_map_ext. intros y.
  rewrite E at 1. rewrite map_app, filter_app.
  rewrite filter_all.
  - simpl. destruct (Z.ltb_spec (clothW - 1 + 1) clothW); [lia|].
    now rewrite app_nil_r.
  - intros c Hc. apply in_map_iff in Hc. destruct Hc as [x [<- Hx]].
    apply in_zrange in Hx. simpl. apply Z.ltb_lt. lia.
Qed.

Lemma cells_with_below :
  1 <= clothH ->
  filter (fun c : Z * Z => fst c + 1 <? clothH) (grid_cells clothW clothH)
  = grid_cells clothW (clothH - 1).
Proof.
  intros H1.
  assert (E : grid_cells clothW clothH
              = grid_cells clothW (clothH - 1)
                ++ map (fun x => (clothH - 1, x)) (zrange clothW)).
  { replace clothH with (clothH - 1 + 1) at 1 by lia.
    apply grid_cells_succ. lia. }
  rewrite E. rewrite filter_app.
  rewrite filter_all.
  - rewrite filter_none; [now rewrite app_nil_r|].
    intros c Hc. apply in_map_iff in Hc. destruct Hc as [x [<- Hx]].
    simpl. apply Z.ltb_ge. lia.
  - intros c Hc. apply in_grid_cells in Hc. apply Z.ltb_lt. lia.
Qed.

(** The number of grid edges. *)
Lemma grid_edges_length :
  1 <= clothW -> 1 <= clothH ->
  zlength (grid_edges clothW clothH spacing)
  = (clothW - 1) * clothH + clothW * (clothH - 1).
Proof.
  intros H1 H2. unfold zlength, grid_edges.
  rewrite cell_edges_length, cells_with_right, cells_with_below
    by assumption.
  rewrite Nat2Z.inj_add.
  pose proof (grid_cells_length (clothW - 1) clothH) as E1.
  pose proof (grid_cells_length clothW (clothH - 1)) as E2.
  unfold zlength in E1, E2. rewrite E1, E2 by lia. reflexivity.
Qed.

Lemma NoDup_flat_map {A B : Type} (f : A -> list B) (l : list A) :
  NoDup l ->
  (forall a, In a l -> NoDup (f a)) ->
  (forall a b x, In a l -> In b l -> In x (f a) -> In x (f b) -> a = b) ->
  NoDup (flat_map f l).
Proof.
  induction l as [|a t IH]; intros Hl Hf Hd; [constructor|].
  simpl. inversion Hl as [|? ? Ha Ht]; subst. apply NoDup_app.
  - apply Hf. now left.
  - apply IH; [assumption| |].
    + intros b Hb. apply Hf. now right.
    + intros b c x Hb Hc. apply Hd; now right.
  - intros x Hx Hx'. apply in_flat_map in Hx'. destruct Hx' as [b [Hb Hxb]].
    apply Ha. rewrite (Hd a b x); auto. now left. now right.
Qed.

Lemma map_flat_map {A B C : Type} (h : B -> C) (f : A -> list B)
      (l : list A) :
  map h (flat_map f l) = flat_map (fun a => map h (f a)) l.
Proof.
  induction l as [|a t IH]; [reflexivity|].
  simpl. now rewrite map_app, IH.
Qed.

Lemma grid_cells_NoDup : NoDup (grid_cells clothW clothH).
Proof.
  apply (NoDup_map_inv (cell_id clothW)).
  rewrite cell_ids by assumption. apply zrange_NoDup.
Qed.

(** No pair of end points occurs twice among the grid edges. *)
Lemma grid_edges_NoDup :
  NoDup (map (fun c : LocalConstraint.t F =>
                (LocalConstraint.i c, LocalConstraint.j c))
             (grid_edges clothW clothH spacing)).
Proof.
  unfold grid_edges. rewrite map_flat_map. apply NoDup_flat_map.
  - apply grid_cells_NoDup.
  - intros [y x] Hc. apply in_grid_cells in Hc. simpl in Hc.
    unfold cell_edges. cbn [fst snd].
    destruct (Z.ltb_spec (x + 1) clothW), (Z.ltb_spec (y + 1) clothH);
      simpl; repeat constructor; simpl; try tauto.
    intros [E|[]]. inversion E as [E']. unfold cell_id, idx in E'.
    simpl in E'. nia.
  - intros [y x] [y' x'] e Hc Hc' He He'.
    apply in_grid_cells in Hc, Hc'. simpl in Hc, Hc'.
    assert (Hi : forall c, In e (map (fun c0 : LocalConstraint.t F =>
                                 (LocalConstraint.i c0, LocalConstraint.j c0))
                              (cell_edges clothW clothH spacing c)) ->
                           fst e = cell_id clothW c).
    { intros c Hin. apply in_map_iff in Hin. destruct Hin as [c0 [<- Hin]].
      unfold cell_edges in Hin. apply in_app_or in Hin.
      destruct Hin as [Hin|Hin];
        [destruct (snd c + 1 <? clothW)|destruct (fst c + 1 <? clothH)];
        try contradiction; destruct Hin as [<-|[]]; reflexivity. }
    apply (cell_id_inj clothW); simpl; try lia.
    rewrite <- (Hi _ He), <- (Hi _ He'). reflexivity.
Qed.
End EdgeFacts.
Section BuiltFacts.
Context {F : Type} {SF : Scalar F}.

(** The scan records, with the anchor it returns, the rest distance to that
    anchor. *)
Lemma nearest_recorded (l : list (Particle.t F)) q anchors best :
  nearest l q anchors best = best \/
  rest_distance l q (fst (nearest l q anchors best))
  = Some (snd (nearest l q anchors best)).
Proof.
  revert best. induction anchors as [|a t IH]; intros best; [now left|].
  simpl. destruct (rest_distance l q a) as [d|] eqn:Ed; [|now left].
  destruct (fltb d (snd best)).
  - destruct (IH (a, d)) as [E|E]; [|now right].
    right. rewrite E. exact Ed.
  - apply IH.
Qed.

Lemma lra_of_distance (l : list (Particle.t F)) att i c :
  In c (lra_of l att i) ->
  lra_distance l c = Some (LRAConstraint.maxDist c).
Proof.
  intros Hc. apply lra_of_cases in Hc.
  destruct Hc as [q [Hq [_ [-> Hne]]]].
  unfold lra_distance. simpl. rewrite Hq.
  destruct (nearest_recorded l q att (-1, f1e30)) as [E|E].
  - rewrite E in Hne. simpl in Hne. lia.
  - unfold rest_distance in E.
    destruct (vget l (fst (nearest l q att (-1, f1e30)))); [exact E|].
    discriminate E.
Qed.

(** A tick of a scene without particles changes nothing. *)
Lemma passes_spec_empty n (G : Globals F) :
  localConstraints G = [] -> lraConstraints G = [] ->
  passes_spec n G = Some G.
Proof.
  intros Hl Ha. induction n as [|n IH]; [reflexivity|].
  simpl. unfold pass_spec. rewrite Hl, Ha. simpl.
  destruct (g_useLRA G); exact IH.
Qed.

Lemma simulate_empty (G : Globals F) :
  P G = [] -> localConstraints G = [] -> lraConstraints G = [] ->
  exec simulate G = Some G.
Proof.
  intros HP Hl Ha. rewrite simulate_eq. unfold tick_spec.
  assert (E : map_particles predict1 G = G).
  { unfold map_particles. rewrite HP. simpl. rewrite <- HP.
    apply set_P_same. }
  rewrite E, passes_spec_empty by assumption. simpl.
  unfold map_particles. rewrite HP. simpl. rewrite <- HP.
  now rewrite set_P_same.
Qed.
End BuiltFacts.
(** ** The local projection in exact arithmetic *)

Section RealLocalFacts.
Import RealScalar.
Import Particle.
Local Open Scope R_scope.
Implicit Types (G : Globals R).

Lemma with_p_same (q : Particle.t R) : with_p (p q) q = q.
Proof. now destruct q. Qed.

(** Writing back the position a particle already has. *)
Lemma set_p_same G k q :
  vget (P G) k = Some q -> exec (set_p k (p q)) G = Some G.
Proof.
  intros Hq. destruct (set_p_run G k (p q) q Hq) as [l [Hl ->]].
  rewrite with_p_same in Hl. rewrite (vset_same _ _ _ Hq) in Hl.
  injection Hl as <-. now rewrite set_P_same.
Qed.

(** With a zero correction the positions written are the positions read. *)
Lemma zero_correction_add (a dir : vec3.t R) (d k : R) :
  glm.add a (glm.scale (glm.lscale (- ((d - d) * (f1 - f0)))
                                   (glm.div dir d)) k) = a.
Proof.
  destruct a as [ax ay az]. unfold glm.add, glm.scale, glm.lscale, glm.div.
  simpl. f_equal; ring.
Qed.

Lemma zero_correction_sub (a dir : vec3.t R) (d k : R) :
  glm.sub a (glm.scale (glm.lscale (- ((d - d) * (f1 - f0)))
                                   (glm.div dir d)) k) = a.
Proof.
  destruct a as [ax ay az]. unfold glm.sub, glm.scale, glm.lscale, glm.div.
  simpl. f_equal; ring.
Qed.

(** A local constraint that is exactly met is left alone. *)
Lemma projectLocal_met (c : LocalConstraint.t R) G p1 p2 :
  vget (P G) (LocalConstraint.i c) = Some p1 ->
  vget (P G) (LocalConstraint.j c) = Some p2 ->
  glm.length (glm.sub (p p1) (p p2)) = LocalConstraint.restLen c ->
  exec (projectLocal c) G = Some G.
Proof.
  intros H1 H2 Hd. rewrite (projectLocal_eq c G p1 p2 H1 H2). cbv zeta.
  rewrite <- Hd.
  destruct (fltb _ f1e_6); [reflexivity|].
  destruct (fltb _ f1e_6); [reflexivity|].
  change fadd with Rplus. change fsub with Rminus. change fmul with Rmult.
  change fneg with Ropp. change fdiv with Rdiv.
  rewrite zero_correction_add.
  assert (E1 : (if negb (pinned p1)
                then exec (set_p (LocalConstraint.i c) (p p1)) G
                else Some G) = Some G).
  { destruct (pinned p1); [reflexivity|]. simpl. now apply set_p_same. }
  rewrite E1, H2. rewrite zero_correction_sub.
  destruct (pinned p2); [reflexivity|]. simpl. now apply set_p_same.
Qed.
End RealLocalFacts.
(** ** When a tick leaves the bounds of the particle store *)

Section TickBounds.
Context {F : Type} {SF : Scalar F}.
Import Particle.

Lemma in_range_zlength {A : Type} (l l' : list A) k :
  zlength l = zlength l' -> in_range l k = in_range l' k.
Proof. intros E. unfold in_range. now rewrite E. Qed.

(** A loop over constraints whose solver faults exactly on the constraints
    that [ok] rejects, [ok] looking at the size of the store only. *)
Lemma range_loop {C : Type} (solver : C -> M unit)
      (ok : list (Particle.t F) -> C -> bool) :
  (forall l l' c, zlength l = zlength l' -> ok l c = ok l' c) ->
  (forall c G, ok (P G) c = true ->
     exists G', exec (solver c) G = Some G' /\ same_globals G G' /\
                zlength (P G') = zlength (P G)) ->
  (forall c G, ok (P G) c = false -> exec (solver c) G = None) ->
  forall cs G,
    if forallb (ok (P G)) cs
    then exists G', exec (for_each cs solver) G = Some G' /\
                    same_globals G G' /\ zlength (P G') = zlength (P G)
    else exec (for_each cs solver) G = None.
Proof.
  intros Hlen Hgood Hbad cs.
  induction cs as [|c t IH]; intros G.
  - simpl. exists G. repeat split. apply same_globals_refl.
  - simpl forallb. rewrite for_each_cons.
    destruct (ok (P G) c) eqn:Hc.
    + destruct (Hgood c G Hc) as [G1 [-> [Hs1 Hl1]]]. simpl andb.
      specialize (IH G1).
      rewrite (forallb_ext' (ok (P G)) (ok (P G1)) t
                 (fun c0 => Hlen _ _ c0 (eq_sym Hl1))).
      destruct (forallb (ok (P G1)) t).
      * destruct IH as [G2 [-> [Hs2 Hl2]]]. exists G2.
        split; [reflexivity|]. split.
        -- apply (same_globals_trans _ _ _ Hs1 Hs2).
        -- congruence.
      * exact IH.
    + simpl. now rewrite (Hbad c G Hc).
Qed.

Lemma local_range_loop cs (G : Globals F) :
  if forallb (local_ok (P G)) cs
  then exists G', exec (for_each cs projectLocal) G = Some G' /\
                  same_globals G G' /\ zlength (P G') = zlength (P G)
  else exec (for_each cs projectLocal) G = None.
Proof.
  apply (range_loop projectLocal local_ok).
  - intros l l' c E. unfold local_ok.
    now rewrite !(in_range_zlength l l' _ E).
  - intros c G1 Hc. unfold local_ok in Hc. apply andb_true_iff in Hc.
    destruct Hc as [Hi Hj]. apply in_range_vget in Hi, Hj.
    destruct Hi as [p1 Hi], Hj as [p2 Hj].
    destruct (projectLocal_step c G1 p1 p2 Hi Hj) as [G' [E [Hs [HF _]]]].
    exists G'. split; [exact E|]. split; [exact Hs|].
    apply (Forall2_zlength _ _ _ HF).
  - intros c G1 Hc.
    destruct (exec (projectLocal c) G1) as [G'|] eqn:E; [|reflexivity].
    apply projectLocal_inv in E. destruct E as [p1 [p2 [Hi Hj]]].
    unfold local_ok in Hc.
    assert (H1 : in_range (P G1) (LocalConstraint.i c) = true)
      by (apply in_range_vget; eauto).
    assert (H2 : in_range (P G1) (LocalConstraint.j c) = true)
      by (apply in_range_vget; eauto).
    rewrite H1, H2 in Hc. discriminate Hc.
Qed.

Lemma lra_range_loop cs (G : Globals F) :
  if forallb (lra_in_range (P G)) cs
  then exists G', exec (for_each cs projectLRA) G = Some G' /\
                  same_globals G G' /\ zlength (P G') = zlength (P G)
  else exec (for_each cs projectLRA) G = None.
Proof.
  apply (range_loop projectLRA lra_in_range).
  - intros l l' c E. unfold lra_in_range.
    now rewrite !(in_range_zlength l l' _ E).
  - intros c G1 Hc. unfold lra_in_range in Hc. apply andb_true_iff in Hc.
    destruct Hc as [Hi Hj]. apply in_range_vget in Hi, Hj.
    destruct Hi as [q Hi], Hj as [a Hj].
    destruct (projectLRA_step c G1 q a Hi Hj)
      as [G' [q' [E [Hs [_ [_ [_ [HF _]]]]]]]].
    exists G'. split; [exact E|]. split; [exact Hs|].
    apply (Forall2_zlength _ _ _ HF).
  - intros c G1 Hc.
    destruct (exec (projectLRA c) G1) as [G'|] eqn:E; [|reflexivity].
    apply projectLRA_inv in E. destruct E as [q [a [Hi Hj]]].
    unfold lra_in_range in Hc.
    assert (H1 : in_range (P G1) (LRAConstraint.particleIdx c) = true)
      by (apply in_range_vget; eauto).
    assert (H2 : in_range (P G1) (LRAConstraint.attachmentIdx c) = true)
      by (apply in_range_vget; eauto).
    rewrite H1, H2 in Hc. discriminate Hc.
Qed.

Lemma pass_in_bounds_frame (G G' : Globals F) :
  same_globals G G' -> zlength (P G') = zlength (P G) ->
  pass_in_bounds G' = pass_in_bounds G.
Proof.
  intros Hs Hl. apply same_globals_fields in Hs.
  destruct Hs as [A [B [_ [_ [C _]]]]].
  unfold pass_in_bounds. rewrite A, B, C. f_equal.
  - apply forallb_ext'. intros c.
    now rewrite !(in_range_zlength _ _ _ Hl).
  - f_equal. apply forallb_ext'. intros c. unfold lra_in_range.
    now rewrite !(in_range_zlength _ _ _ Hl).
Qed.

Lemma pass_range (G : Globals F) :
  if pass_in_bounds G
  then exists G', pass_spec G = Some G' /\ same_globals G G' /\
                  zlength (P G') = zlength (P G)
  else pass_spec G = None.
Proof.
  unfold pass_in_bounds, pass_spec. rewrite !apply_all_for_each.
  pose proof (local_range_loop (localConstraints G) G) as Hl.
  unfold local_ok in Hl.
  destruct (forallb _ (localConstraints G)).
  - destruct Hl as [G1 [-> [Hs1 Hl1]]]. simpl andb.
    destruct (g_useLRA G).
    + simpl. rewrite apply_all_for_each.
      pose proof (lra_range_loop (lraConstraints G) G1) as Ha.
      rewrite (forallb_ext' (lra_in_range (P G)) (lra_in_range (P G1))).
      2:{ intros c. unfold lra_in_range.
          now rewrite !(in_range_zlength _ _ _ Hl1). }
      destruct (forallb _ (lraConstraints G)).
      * destruct Ha as [G2 [-> [Hs2 Hl2]]]. exists G2.
        split; [reflexivity|]. split.
        -- apply (same_globals_trans _ _ _ Hs1 Hs2).
        -- congruence.
      * exact Ha.
    + simpl. exists G1. auto.
  - simpl. now rewrite Hl.
Qed.

Lemma passes_range n (G : Globals F) :
  if (Nat.eqb n 0) || pass_in_bounds G
  then exists G', passes_spec n G = Some G' /\ same_globals G G' /\
                  zlength (P G') = zlength (P G)
  else passes_spec n G = None.
Proof.
  revert G. induction n as [|n IH]; intros G.
  - simpl. exists G. repeat split. apply same_globals_refl.
  - simpl. pose proof (pass_range G) as Hp.
    destruct (pass_in_bounds G) eqn:Hb.
    + destruct Hp as [G1 [-> [Hs1 Hl1]]].
      specialize (IH G1).
      rewrite (pass_in_bounds_frame G G1 Hs1 Hl1), Hb, orb_true_r in IH.
      destruct IH as [G2 [-> [Hs2 Hl2]]]. exists G2.
      split; [reflexivity|]. split.
      * apply (same_globals_trans _ _ _ Hs1 Hs2).
      * congruence.
    + now rewrite Hp.
Qed.

Lemma map_particles_bounds f (G : Globals F) :
  pass_in_bounds (map_particles f G) = pass_in_bounds G.
Proof.
  apply pass_in_bounds_frame.
  - apply same_globals_set_P.
  - unfold map_particles. rewrite set_P_P. unfold zlength.
    now rewrite length_map.
Qed.

(** A tick faults exactly when it runs at least one pass and the pass reads
    out of range. *)
Lemma simulate_bounds (G : Globals F) :
  exec simulate G = None <->
  (1 <= g_iterations G /\ pass_in_bounds G = false).
Proof.
  rewrite simulate_eq. unfold tick_spec.
  pose proof (passes_range (Z.to_nat (g_iterations G))
                           (map_particles predict1 G)) as Hp.
  rewrite map_particles_bounds in Hp.
  destruct (Nat.eqb_spec (Z.to_nat (g_iterations G)) 0) as [E0|E0].
  - simpl in Hp. destruct Hp as [G' [-> _]]. simpl.
    split; [discriminate|]. intros [H1 _]. lia.
  - simpl in Hp. destruct (pass_in_bounds G).
    + destruct Hp as [G' [-> _]]. simpl.
      split; [discriminate|]. intros [_ H]. discriminate H.
    + rewrite Hp. simpl. split; [|reflexivity]. intros _. split; [lia|].
      reflexivity.
Qed.
End TickBounds.
(** ** What a tick leaves alone, on any state *)

Section TickFrame.
Context {F : Type} {SF : Scalar F}.
Import Particle.

Lemma lra_targets_free_frame (R : Particle.t F -> Particle.t F -> Prop)
      l l' cs :
  (forall x y, R x y -> pinned y = pinned x) ->
  Forall2 R l l' -> lra_targets_free l cs -> lra_targets_free l' cs.
Proof.
  intros HR HF Hfree c q' Hc Hq'.
  destruct (Forall2_vget_inv _ _ _ _ _ HF Hq') as [q [Hq Hr]].
  rewrite (HR _ _ Hr). exact (Hfree c q Hc Hq).
Qed.

Lemma lra_loop_free cs (G G' : Globals F) :
  lra_targets_free (P G) cs ->
  exec (for_each cs projectLRA) G = Some G' -> frame_rel moved_free G G'.
Proof.
  intros Hfree.
  apply (for_each_preserves (fun G1 => frame_rel moved_free G G1)).
  - intros c G1 G2 Hc Hf E.
    pose proof (projectLRA_inv c G1 G2 E) as [q [a [Hq Ha]]].
    destruct (projectLRA_step c G1 q a Hq Ha)
      as [G3 [q' [E3 [Hs [_ [_ [_ [_ HF]]]]]]]].
    rewrite E in E3. injection E3 as <-.
    assert (Hp : pinned q = false).
    { destruct Hf as [_ HF1].
      exact (lra_targets_free_frame _ _ _ _ moved_free_pinned HF1 Hfree
               c q Hc Hq). }
    eapply frame_rel_trans; [apply moved_free_trans|exact Hf|].
    split; [exact Hs|exact (HF Hp)].
  - apply frame_rel_refl, moved_free_refl.
Qed.

Lemma pass_spec_free (G G' : Globals F) :
  (g_useLRA G = true -> lra_targets_free (P G) (lraConstraints G)) ->
  pass_spec G = Some G' -> frame_rel moved_free G G'.
Proof.
  intros Hfree. unfold pass_spec. rewrite apply_all_for_each.
  destruct (exec (for_each (localConstraints G) projectLocal) G)
    as [G1|] eqn:E1; [|discriminate].
  assert (H1 : frame_rel moved_free G G1).
  { eapply for_each_frame; eauto using moved_free_refl, moved_free_trans.
    intros c Ga Gb _. apply projectLocal_frame. }
  destruct (g_useLRA G).
  - rewrite apply_all_for_each. intros E2.
    eapply frame_rel_trans; [apply moved_free_trans|exact H1|].
    apply (lra_loop_free _ _ _ (lra_targets_free_frame _ _ _ _
             moved_free_pinned (proj2 H1) (Hfree eq_refl)) E2).
  - intros E. injection E as <-. exact H1.
Qed.

Lemma passes_spec_free n (G G' : Globals F) :
  (g_useLRA G = true -> lra_targets_free (P G) (lraConstraints G)) ->
  passes_spec n G = Some G' -> frame_rel moved_free G G'.
Proof.
  revert G. induction n as [|n IH]; intros G Hfree; simpl.
  - intros E. injection E as <-. apply frame_rel_refl, moved_free_refl.
  - destruct (pass_spec G) as [G1|] eqn:E1; [|discriminate].
    intros E2. pose proof (pass_spec_free G G1 Hfree E1) as H1.
    eapply frame_rel_trans; [apply moved_free_trans|exact H1|].
    apply (IH G1); [|exact E2].
    destruct H1 as [Hs HF]. apply same_globals_fields in Hs.
    destruct Hs as [_ [A [_ [_ [B _]]]]]. rewrite A, B. intros Hu.
    exact (lra_targets_free_frame _ _ _ _ moved_free_pinned HF (Hfree Hu)).
Qed.

(** The particle of a slot before and after a completed tick. *)
Lemma tick_particle (G G' : Globals F) k q :
  exec simulate G = Some G' -> vget (P G) k = Some q ->
  exists q2,
    moved (predict1 q) q2 /\ vget (P G') k = Some (reconcile1 q2) /\
    ((g_useLRA G = true -> lra_targets_free (P G) (lraConstraints G)) ->
     moved_free (predict1 q) q2).
Proof.
  rewrite simulate_eq. unfold tick_spec. intros E Hq.
  destruct (passes_spec (Z.to_nat (g_iterations G))
                        (map_particles predict1 G)) as [G2|] eqn:E2;
    [|discriminate E].
  simpl in E. injection E as <-.
  assert (H1 : vget (P (map_particles predict1 G)) k = Some (predict1 q)).
  { unfold map_particles. rewrite set_P_P, vget_map, Hq. reflexivity. }
  pose proof (passes_spec_frame _ _ _ E2) as [_ HF].
  destruct (Forall2_vget _ _ _ _ _ HF H1) as [q2 [Hq2 Hm]].
  exists q2. split; [exact Hm|]. split.
  - unfold map_particles. rewrite set_P_P, vget_map, Hq2. reflexivity.
  - intros Hfree.
    assert (Hf : frame_rel moved_free (map_particles predict1 G) G2).
    { apply (passes_spec_free _ _ _) in E2; [exact E2|].
      intros Hu. simpl in Hu.
      apply (lra_targets_free_frame ticked (P G)).
      - apply ticked_pinned.
      - apply (proj2 (map_particles_frame predict1 G predict1_ticked)).
      - exact (Hfree Hu). }
    destruct Hf as [_ HF'].
    destruct (Forall2_vget _ _ _ _ _ HF' H1) as [q3 [Hq3 Hm3]].
    rewrite Hq2 in Hq3. injection Hq3 as <-. exact Hm3.
Qed.
End TickFrame.

Section TickGlobals.
Context {F : Type} {SF : Scalar F}.
Import Particle.

(** A completed tick leaves everything but the particles as it was, and
    keeps the number of particles. *)
Lemma simulate_same_globals (G G' : Globals F) :
  exec simulate G = Some G' ->
  same_globals G G' /\ zlength (P G') = zlength (P G).
Proof.
  rewrite simulate_eq. unfold tick_spec. intros E.
  destruct (passes_spec (Z.to_nat (g_iterations G))
                        (map_particles predict1 G)) as [G2|] eqn:E2;
    [|discriminate E].
  simpl in E. injection E as <-.
  apply passes_spec_frame in E2. destruct E2 as [Hs HF].
  apply Forall2_zlength in HF. split.
  - eapply same_globals_trans; [apply same_globals_set_P|].
    eapply same_globals_trans; [exact Hs|apply same_globals_set_P].
  - unfold map_particles in *. rewrite set_P_P in *.
    unfold zlength in *. rewrite length_map in *. exact HF.
Qed.
End TickGlobals.
(** ** A tick does not read what it does not use *)

Section TickReads.
Context {F : Type} {SF : Scalar F}.
Import Particle.

Lemma with_lra_set_P L A l (G : Globals F) :
  with_lra L A (set_P l G) = set_P l (with_lra L A G).
Proof. reflexivity. Qed.

Lemma set_p_with_lra L A k a (G : Globals F) :
  exec (set_p k a) (with_lra L A G)
  = option_map (with_lra L A) (exec (set_p k a) G).
Proof.
  unfold exec, set_p, update_particle. simpl.
  destruct (vget (P G) k) as [q|]; [|reflexivity].
  destruct (vset (P G) k (with_p a q)); reflexivity.
Qed.

Lemma projectLocal_with_lra L A (c : LocalConstraint.t F) (G : Globals F) :
  exec (projectLocal c) (with_lra L A G)
  = option_map (with_lra L A) (exec (projectLocal c) G).
Proof.
  destruct (vget (P G) (LocalConstraint.i c)) as [p1|] eqn:H1.
  2:{ destruct (exec (projectLocal c) G) as [G'|] eqn:E.
      { apply projectLocal_inv in E. destruct E as [x1 [x2 [E1 E2]]]. congruence. }
      destruct (exec (projectLocal c) (with_lra L A G)) as [G'|] eqn:E';
        [|reflexivity].
      apply projectLocal_inv in E'. destruct E' as [x1 [x2 [E1 E2]]].
      simpl in E1, E2. congruence. }
  destruct (vget (P G) (LocalConstraint.j c)) as [p2|] eqn:H2.
  2:{ destruct (exec (projectLocal c) G) as [G'|] eqn:E.
      { apply projectLocal_inv in E. destruct E as [x1 [x2 [E1 E2]]]. congruence. }
      destruct (exec (projectLocal c) (with_lra L A G)) as [G'|] eqn:E';
        [|reflexivity].
      apply projectLocal_inv in E'. destruct E' as [x1 [x2 [E1 E2]]].
      simpl in E1, E2. congruence. }
  rewrite (projectLocal_eq c G p1 p2 H1 H2).
  rewrite (projectLocal_eq c (with_lra L A G) p1 p2 H1 H2). cbv zeta.
  destruct (fltb _ f1e_6); [reflexivity|].
  destruct (fltb _ f1e_6); [reflexivity|].
  destruct (negb (pinned p1)).
  - rewrite set_p_with_lra.
    destruct (exec (set_p (LocalConstraint.i c) _) G) as [G1|];
      [|reflexivity].
    simpl. destruct (vget (P G1) (LocalConstraint.j c)) as [p2'|];
      [|reflexivity].
    destruct (negb (pinned p2')); [|reflexivity].
    apply set_p_with_lra.
  - simpl. rewrite H2. destruct (negb (pinned p2)); [|reflexivity].
    apply set_p_with_lra.
Qed.

Lemma projectLRA_with_lra L A (c : LRAConstraint.t F) (G : Globals F) :
  exec (projectLRA c) (with_lra L A G)
  = option_map (with_lra L A) (exec (projectLRA c) G).
Proof.
  destruct (vget (P G) (LRAConstraint.particleIdx c)) as [q|] eqn:H1.
  2:{ destruct (exec (projectLRA c) G) as [G'|] eqn:E.
      { apply projectLRA_inv in E. destruct E as [x1 [x2 [E1 E2]]]. congruence. }
      destruct (exec (projectLRA c) (with_lra L A G)) as [G'|] eqn:E';
        [|reflexivity].
      apply projectLRA_inv in E'. destruct E' as [x1 [x2 [E1 E2]]].
      simpl in E1, E2. congruence. }
  destruct (vget (P G) (LRAConstraint.attachmentIdx c)) as [a|] eqn:H2.
  2:{ destruct (exec (projectLRA c) G) as [G'|] eqn:E.
      { apply projectLRA_inv in E. destruct E as [x1 [x2 [E1 E2]]]. congruence. }
      destruct (exec (projectLRA c) (with_lra L A G)) as [G'|] eqn:E';
        [|reflexivity].
      apply projectLRA_inv in E'. destruct E' as [x1 [x2 [E1 E2]]].
      simpl in E1, E2. congruence. }
  rewrite (projectLRA_eq c G q a H1 H2).
  rewrite (projectLRA_eq c (with_lra L A G) q a H1 H2). cbv zeta.
  simpl g_lraSlack.
  destruct (fltb _ _); [|reflexivity].
  destruct (fltb _ f1e_6); [reflexivity|].
  apply set_p_with_lra.
Qed.

Lemma for_each_with_lra {C : Type} (solver : C -> M unit) L A :
  (forall c G, exec (solver c) (with_lra L A G)
               = option_map (with_lra L A) (exec (solver c) G)) ->
  forall cs (G : Globals F),
    exec (for_each cs solver) (with_lra L A G)
    = option_map (with_lra L A) (exec (for_each cs solver) G).
Proof.
  intros Hs cs. induction cs as [|c t IH]; intros G; [reflexivity|].
  rewrite !for_each_cons, Hs.
  destruct (exec (solver c) G) as [G1|]; [|reflexivity].
  simpl. apply IH.
Qed.

Lemma pass_spec_with_lra L A (G : Globals F) :
  g_useLRA G = false \/ L = lraConstraints G ->
  pass_spec (with_lra L A G) = option_map (with_lra L A) (pass_spec G).
Proof.
  intros H. unfold pass_spec. rewrite !apply_all_for_each.
  simpl localConstraints. simpl g_useLRA. simpl lraConstraints.
  rewrite (for_each_with_lra projectLocal L A (projectLocal_with_lra L A)).
  destruct (exec (for_each (localConstraints G) projectLocal) G) as [G1|];
    [|reflexivity].
  simpl. destruct (g_useLRA G) eqn:Hu; [|reflexivity].
  destruct H as [H|H]; [discriminate H|]. subst L.
  rewrite !apply_all_for_each.
  apply (for_each_with_lra projectLRA _ A (projectLRA_with_lra _ A)).
Qed.

Lemma passes_spec_with_lra L A n (G : Globals F) :
  g_useLRA G = false \/ L = lraConstraints G ->
  passes_spec n (with_lra L A G)
  = option_map (with_lra L A) (passes_spec n G).
Proof.
  revert G. induction n as [|n IH]; intros G H; [reflexivity|].
  simpl. rewrite (pass_spec_with_lra L A G H).
  destruct (pass_spec G) as [G1|] eqn:E1; [|reflexivity].
  simpl. apply IH.
  apply pass_spec_frame in E1. destruct E1 as [Hs _].
  apply same_globals_fields in Hs. destruct Hs as [_ [B [_ [_ [C _]]]]].
  rewrite B, C. exact H.
Qed.

Lemma simulate_with_lra L A (G : Globals F) :
  g_useLRA G = false \/ L = lraConstraints G ->
  exec simulate (with_lra L A G)
  = option_map (with_lra L A) (exec simulate G).
Proof.
  intros H. rewrite !simulate_eq. unfold tick_spec.
  simpl g_iterations.
  change (map_particles predict1 (with_lra L A G))
    with (with_lra L A (map_particles predict1 G)).
  rewrite passes_spec_with_lra by exact H.
  destruct (passes_spec _ (map_particles predict1 G)); reflexivity.
Qed.
End TickReads.

Section WellFormedBounds.
Context {F : Type} {SF : Scalar F}.

(** A well-formed scene keeps every pass within bounds. *)
Lemma scene_ok_in_bounds (G : Globals F) :
  scene_ok G = true -> pass_in_bounds G = true.
Proof.
  unfold scene_ok, pass_in_bounds. rewrite !andb_true_iff.
  intros [[Hl Ha] _]. split; [exact Hl|].
  apply orb_true_iff. right. apply forallb_forall. intros c Hc.
  rewrite forallb_forall in Ha. specialize (Ha c Hc).
  unfold lra_ok in Ha. unfold lra_in_range.
  destruct (vget (P G) (LRAConstraint.particleIdx c)) as [q|] eqn:Hq;
    [|discriminate Ha].
  destruct (vget (P G) (LRAConstraint.attachmentIdx c)) as [a|] eqn:Hq';
    [|discriminate Ha].
  apply andb_true_iff. split; apply in_range_vget; eauto.
Qed.
End WellFormedBounds.
(** ** Invariants of the main loop *)

Section LoopFacts.
Context {F : Type} {SF : Scalar F}.
Variables clothW clothH : Z.
Variable spacing : F.
Hypothesis HW : 0 <= clothW.
Hypothesis HH : 0 <= clothH.

Local Abbreviation handle' := (handle clothW clothH spacing).
Local Abbreviation mainLoop' := (mainLoop clothW clothH spacing).
Local Abbreviation Inv := (loop_invariant clothW clothH spacing).

Lemma mainLoop_cons e t (w : World F) :
  mainLoop' (e :: t) w
  = match handle' e w with
    | Running w' =>
        (if is_idle e then P (sim w') :: fst (mainLoop' t w')
         else fst (mainLoop' t w'),
         snd (mainLoop' t w'))
    | Exited => ([], Exited)
    | Undefined => ([], Undefined)
    end.
Proof.
  simpl. destruct (handle' e w) as [w'| |]; try reflexivity.
  destruct (mainLoop' t w') as [tr o]. now destruct e.
Qed.

(** The loop over two event lists one after the other. *)
Lemma mainLoop_app es1 es2 (w : World F) :
  mainLoop' (es1 ++ es2) w
  = match snd (mainLoop' es1 w) with
    | Running w1 =>
        (fst (mainLoop' es1 w) ++ fst (mainLoop' es2 w1),
         snd (mainLoop' es2 w1))
    | o => (fst (mainLoop' es1 w), o)
    end.
Proof.
  revert w. induction es1 as [|e t IH]; intros w.
  - simpl. now destruct (mainLoop' es2 w).
  - rewrite <- app_comm_cons, !mainLoop_cons.
    destruct (handle' e w) as [w'| |]; try reflexivity.
    rewrite IH. cbn [fst snd].
    destruct (snd (mainLoop' t w')); destruct (is_idle e); reflexivity.
Qed.

Lemma mainLoop_invariant (I : World F -> Prop) :
  (forall e w w', I w -> handle' e w = Running w' -> I w') ->
  forall es w w', I w -> snd (mainLoop' es w) = Running w' -> I w'.
Proof.
  intros Hstep es. induction es as [|e t IH]; intros w w' Hw.
  - simpl. intros E. now injection E as <-.
  - rewrite mainLoop_cons.
    destruct (handle' e w) as [w1| |] eqn:E1; try discriminate.
    cbn [snd]. apply IH. exact (Hstep e w w1 Hw E1).
Qed.

Lemma mainLoop_defined (I : World F -> Prop) :
  (forall e w w', I w -> handle' e w = Running w' -> I w') ->
  (forall e w, I w -> handle' e w <> Undefined) ->
  forall es w, I w -> snd (mainLoop' es w) <> Undefined.
Proof.
  intros Hstep Hdef es. induction es as [|e t IH]; intros w Hw.
  - discriminate.
  - rewrite mainLoop_cons.
    destruct (handle' e w) as [w1| |] eqn:E1.
    + cbn [snd]. apply IH. exact (Hstep e w w1 Hw E1).
    + discriminate.
    + exfalso. exact (Hdef e w Hw E1).
Qed.

Lemma built_scene_shape (G0 : Globals F) :
  built_shape clothW clothH spacing (built_scene clothW clothH spacing G0).
Proof.
  unfold built_shape. simpl. repeat split.
  apply Forall2_refl', ticked_refl.
Qed.

Lemma built_scene_ok (G0 : Globals F) :
  scene_ok (built_scene clothW clothH spacing G0) = true.
Proof.
  destruct (buildScene_ok clothW clothH spacing HW HH G0) as [Gb [E Hok]].
  rewrite (buildScene_closed clothW clothH spacing HW HH) in E.
  now injection E as <-.
Qed.

Lemma built_shape_set_params it ul sl (G : Globals F) :
  built_shape clothW clothH spacing G ->
  built_shape clothW clothH spacing (set_params it ul sl G).
Proof. intros H. exact H. Qed.

Lemma keyboard_cases k (w : World F) :
  (keyboard clothW clothH spacing k w = Exited /\ k = 27) \/
  (exists it ul sl,
     keyboard clothW clothH spacing k w
     = Running (with_sim (set_params it ul sl (sim w)) w) /\
     (it = g_iterations (sim w) \/ In it [1; 2; 5; 10]) /\
     (sl = g_lraSlack (sim w) \/
      sl = fadd (g_lraSlack (sim w)) (frat 5 100) \/
      sl = fmax f1 (fsub (g_lraSlack (sim w)) (frat 5 100)))) \/
  (keyboard clothW clothH spacing k w
   = Running (with_sim (built_scene clothW clothH spacing (sim w)) w) /\
   (k = 114 \/ k = 82)) \/
  keyboard clothW clothH spacing k w = Running w.
Proof.
  unfold keyboard, lift_sim, set_iterations.
  rewrite (buildScene_closed clothW clothH spacing HW HH).
  destruct (Z.eqb_spec k 108); [right; left; eexists _, _, _; simpl; eauto 6|].
  destruct (Z.eqb_spec k 76); [right; left; eexists _, _, _; simpl; eauto 6|].
  destruct (Z.eqb_spec k 114); [right; right; left; simpl; auto|].
  destruct (Z.eqb_spec k 82); [right; right; left; simpl; auto|].
  simpl orb. cbv iota.
  destruct (Z.eqb_spec k 93); [right; left; eexists _, _, _; eauto 6|].
  destruct (Z.eqb_spec k 91); [right; left; eexists _, _, _; eauto 6|].
  destruct (Z.eqb_spec k 49);
    [right; left; eexists _, _, _; split; [reflexivity|]; simpl; tauto|].
  destruct (Z.eqb_spec k 50);
    [right; left; eexists _, _, _; split; [reflexivity|]; simpl; tauto|].
  destruct (Z.eqb_spec k 51);
    [right; left; eexists _, _, _; split; [reflexivity|]; simpl; tauto|].
  destruct (Z.eqb_spec k 52);
    [right; left; eexists _, _, _; split; [reflexivity|]; simpl; tauto|].
  destruct (Z.eqb_spec k 27); [left; auto|].
  right. right. right. reflexivity.
Qed.

Lemma handle_invariant e (w w' : World F) :
  Inv w -> handle' e w = Running w' -> Inv w'.
Proof.
  intros [Hok [Hit Hsh]] E. destruct e; simpl in E.
  - now injection E as <-.
  - unfold idle in E.
    destruct (simulate_total (sim w) Hok) as [G' [Es [Hf Hok']]].
    rewrite Es in E. injection E as <-. unfold loop_invariant. simpl.
    destruct Hf as [Hs HF]. apply same_globals_fields in Hs.
    destruct Hs as [A [B [C [D _]]]].
    split; [exact Hok'|]. split; [now rewrite D|].
    destruct Hsh as [S1 [S2 [S3 S4]]]. unfold built_shape.
    rewrite A, B, C. repeat split; try assumption.
    apply (Forall2_trans' _ _ _ _ ticked_trans S4 HF).
  - now injection E as <-.
  - injection E as <-. now split.
  - injection E as <-. now split.
  - destruct (keyboard_cases key w)
      as [[E1 _]|[[it [ul [sl [E1 [Hi _]]]]]|[[E1 _]|E1]]];
      rewrite E1 in E; try discriminate E; injection E as <-.
    + unfold loop_invariant. simpl sim.
      rewrite scene_ok_set_params. split; [exact Hok|]. split.
      * simpl. destruct Hi as [->|Hi]; [exact Hit|exact Hi].
      * exact Hsh.
    + unfold loop_invariant. simpl sim. split; [apply built_scene_ok|].
      split; [exact Hit|apply built_scene_shape].
    + now split.
Qed.

Lemma handle_defined e (w : World F) : Inv w -> handle' e w <> Undefined.
Proof.
  intros [Hok _]. destruct e; simpl; try discriminate.
  - unfold idle. destruct (simulate_total (sim w) Hok) as [G' [-> _]].
    discriminate.
  - destruct (keyboard_cases key w)
      as [[E1 _]|[[it [ul [sl [E1 _]]]]|[[E1 _]|E1]]];
      rewrite E1; discriminate.
Qed.

Lemma main_world :
  main clothW clothH spacing
  = Running (mkWorld (built_scene clothW clothH spacing initial_globals)
                     initial_camera 0 0).
Proof.
  unfold main, lift_sim. simpl sim.
  now rewrite (buildScene_closed clothW clothH spacing HW HH).
Qed.

Lemma main_invariant :
  Inv (mkWorld (built_scene clothW clothH spacing initial_globals)
               initial_camera 0 0).
Proof.
  split; [apply built_scene_ok|]. split; [simpl; tauto|].
  apply built_scene_shape.
Qed.

Lemma run_invariant es :
  match snd (run clothW clothH spacing es) with
  | Running w => Inv w
  | Exited => True
  | Undefined => False
  end.
Proof.
  unfold run. rewrite main_world.
  destruct (snd (mainLoop' es _)) as [w| |] eqn:E.
  - apply (mainLoop_invariant _ handle_invariant es _ w main_invariant).
    destruct (mainLoop' es _). exact E.
  - destruct (mainLoop' es _). exact I.
  - exfalso.
    apply (mainLoop_defined _ handle_invariant handle_defined es _
             main_invariant).
    exact E.
Qed.
End LoopFacts.
(** ** The camera and the frame counter in the main loop *)

Section LoopCamera.
Context {F : Type} {SF : Scalar F}.
Variables clothW clothH : Z.
Variable spacing : F.
Hypothesis HW : 0 <= clothW.
Hypothesis HH : 0 <= clothH.

Local Abbreviation handle' := (handle clothW clothH spacing).
Local Abbreviation mainLoop' := (mainLoop clothW clothH spacing).

Lemma handle_camera e (w w' : World F) :
  handle' e w = Running w' ->
  cam w' = mouse_step e (cam w) /\
  frame w' = frame w + (if is_idle e then 1 else 0).
Proof.
  intros E. destruct e; simpl in E.
  - injection E as <-. simpl. split; [reflexivity|lia].
  - unfold idle in E. destruct (exec simulate (sim w)); [|discriminate E].
    injection E as <-. split; reflexivity.
  - injection E as <-. simpl. split; [reflexivity|lia].
  - injection E as <-. simpl. split; [reflexivity|lia].
  - injection E as <-. simpl. split; [reflexivity|lia].
  - destruct (keyboard_cases clothW clothH spacing HW HH key w)
      as [[E1 _]|[[it [ul [sl [E1 _]]]]|[[E1 _]|E1]]];
      rewrite E1 in E; try discriminate E; injection E as <-; simpl;
        (split; [reflexivity|lia]).
Qed.

Lemma mainLoop_camera es (w w' : World F) :
  snd (mainLoop' es w) = Running w' ->
  cam w' = fold_left (fun c e => mouse_step e c) es (cam w) /\
  frame w' = frame w + Z.of_nat (length (filter is_idle es)) /\
  length (fst (mainLoop' es w)) = length (filter is_idle es).
Proof.
  revert w. induction es as [|e t IH]; intros w.
  - simpl. intros E. injection E as <-. repeat split. lia.
  - rewrite (mainLoop_cons clothW clothH spacing).
    destruct (handle' e w) as [w1| |] eqn:E1; try discriminate.
    cbn [fst snd]. intros E. destruct (IH w1 E) as [Hc [Hf Hl]].
    destruct (handle_camera e w w1 E1) as [Hc1 Hf1].
    simpl fold_left. rewrite <- Hc1. split; [exact Hc|].
    simpl filter. destruct (is_idle e); simpl length.
    + split; [lia|]. now rewrite Hl.
    + split; [lia|exact Hl].
Qed.
End LoopCamera.
(** ** The slack in exact arithmetic *)

Section LoopSlack.
Import RealScalar.
Variables clothW clothH : Z.
Variable spacing : R.
Hypothesis HW : 0 <= clothW.
Hypothesis HH : 0 <= clothH.
Local Open Scope R_scope.

Lemma fmax_lower (x : R) : 1 <= fmax f1 x.
Proof.
  unfold fmax. rewrite real_f1.
  destruct (fltb 1 x) eqn:E.
  - apply Rltb_true in E. lra.
  - lra.
Qed.

Lemma handle_slack e (w w' : World R) :
  1 <= g_lraSlack (sim w) ->
  handle clothW clothH spacing e w = Running w' ->
  1 <= g_lraSlack (sim w').
Proof.
  intros Hs E. destruct e; simpl in E.
  - now injection E as <-.
  - unfold idle in E.
    destruct (exec simulate (sim w)) as [G'|] eqn:Es; [|discriminate E].
    injection E as <-. simpl.
    destruct (simulate_same_globals _ _ Es) as [Hg _].
    apply same_globals_fields in Hg.
    destruct Hg as [_ [_ [_ [_ [_ ->]]]]]. exact Hs.
  - now injection E as <-.
  - now injection E as <-.
  - now injection E as <-.
  - destruct (keyboard_cases clothW clothH spacing HW HH key w)
      as [[E1 _]|[[it [ul [sl [E1 [_ Hsl]]]]]|[[E1 _]|E1]]];
      rewrite E1 in E; try discriminate E; injection E as <-; simpl;
        try exact Hs.
    destruct Hsl as [->|[->| ->]].
    + exact Hs.
    + change (1 <= g_lraSlack (sim w) + IZR 5 / IZR 100). lra.
    + apply fmax_lower.
Qed.

Lemma run_slack es (w : World R) :
  snd (run clothW clothH spacing es) = Running w -> 1 <= g_lraSlack (sim w).
Proof.
  unfold run. rewrite (main_world clothW clothH spacing HW HH).
  intros E.
  destruct (mainLoop clothW clothH spacing es _) as [tr o] eqn:Em.
  simpl in E. subst o.
  refine (mainLoop_invariant clothW clothH spacing
            (fun w => 1 <= g_lraSlack (sim w)) handle_slack es
            (mkWorld (built_scene clothW clothH spacing initial_globals)
                     initial_camera 0 0) w _ _).
  - simpl. lra.
  - now rewrite Em.
Qed.
End LoopSlack.

(** ** What [display] draws *)

Section DisplayFacts.
Context {F : Type} {SF : Scalar F}.
Import Particle.

Lemma draw_each_spec {A : Type} (l : list A)
      (body : A -> option (list (GLCall F))) :
  draw_each l body
  = if forallb (fun a => match body a with Some _ => true | None => false end)
               l
    then Some (flat_map (fun a => match body a with
                                  | Some calls => calls
                                  | None => []
                                  end) l)
    else None.
Proof.
  induction l as [|a t IH]; [reflexivity|].
  simpl. destruct (body a) as [calls|]; [|reflexivity].
  rewrite IH. simpl. now destruct (forallb _ t).
Qed.

Lemma draw_segment_defined (l : list (Particle.t F)) a b :
  match draw_segment l a b with Some _ => true | None => false end
  = in_range l a && in_range l b.
Proof.
  unfold draw_segment.
  destruct (vget l a) as [pa|] eqn:Ha.
  - assert (H : in_range l a = true) by (apply in_range_vget; eauto).
    rewrite H. simpl.
    destruct (vget l b) as [pb|] eqn:Hb.
    + symmetry. apply in_range_vget. eauto.
    + destruct (in_range l b) eqn:H'; [|reflexivity].
      apply in_range_vget in H'. destruct H' as [x Hx]. congruence.
  - destruct (in_range l a) eqn:H'; [|reflexivity].
    apply in_range_vget in H'. destruct H' as [x Hx]. congruence.
Qed.

Lemma draw_point_defined (l : list (Particle.t F)) :
  forallb (fun k => match draw_point l k with
                    | Some _ => true
                    | None => false
                    end) (zrange (zlength l)) = true.
Proof.
  apply forallb_forall. intros k Hk. apply in_zrange in Hk.
  destruct (vget_in_range l k Hk) as [q Hq]. unfold draw_point.
  now rewrite Hq.
Qed.

Lemma vertices_app (c1 c2 : list (GLCall F)) :
  vertices (c1 ++ c2) = vertices c1 ++ vertices c2.
Proof. apply flat_map_app. Qed.

(** The vertices of a loop of segments: two per constraint, each the
    position of a stored particle. *)
Lemma segments_vertices {C : Type} (l : list (Particle.t F)) (cs : list C)
      (a b : C -> Z) :
  let calls := flat_map (fun c => match draw_segment l (a c) (b c) with
                                  | Some s => s
                                  | None => []
                                  end) cs in
  forallb (fun c => in_range l (a c) && in_range l (b c)) cs = true ->
  length (vertices calls) = (2 * length cs)%nat /\
  forall v, In v (vertices calls) -> exists q, In q l /\ p q = v.
Proof.
  induction cs as [|c t IH]; intros calls Hok.
  - split; [reflexivity|]. intros v [].
  - simpl in Hok. apply andb_true_iff in Hok. destruct Hok as [Hc Ht].
    apply andb_true_iff in Hc. destruct Hc as [Ha Hb].
    apply in_range_vget in Ha, Hb. destruct Ha as [pa Ha], Hb as [pb Hb].
    destruct (IH Ht) as [IH1 IH2].
    assert (Es : draw_segment l (a c) (b c)
                 = Some [glVertex3fv (p pa); glVertex3fv (p pb)]).
    { unfold draw_segment. now rewrite Ha, Hb. }
    subst calls. simpl flat_map. rewrite Es, !vertices_app. split.
    + rewrite length_app, IH1. simpl. lia.
    + intros v Hv. apply in_app_or in Hv. destruct Hv as [Hv|Hv].
      * simpl in Hv. unfold vget in Ha, Hb.
        destruct (a c <? 0); [discriminate|].
        destruct (b c <? 0); [discriminate|].
        apply nth_error_In in Ha, Hb.
        destruct Hv as [<-|[<-|[]]]; eauto.
      * now apply IH2.
Qed.

Lemma points_vertices (l : list (Particle.t F)) (ks : list Z) :
  let calls := flat_map (fun k => match draw_point l k with
                                  | Some s => s
                                  | None => []
                                  end) ks in
  forallb (in_range l) ks = true ->
  length (vertices calls) = length ks /\
  forall v, In v (vertices calls) -> exists q, In q l /\ p q = v.
Proof.
  induction ks as [|k t IH]; intros calls Hok.
  - split; [reflexivity|]. intros v [].
  - simpl in Hok. apply andb_true_iff in Hok. destruct Hok as [Hk Ht].
    apply in_range_vget in Hk. destruct Hk as [q Hq].
    destruct (IH Ht) as [IH1 IH2].
    assert (Es : draw_point l k
                 = Some [if pinned q
                         then glColor3f f1 (frat 2 10) (frat 2 10)
                         else glColor3f (frat 2 10) (frat 4 10) f1;
                         glVertex3fv (p q)]).
    { unfold draw_point. now rewrite Hq. }
    subst calls. simpl flat_map. rewrite Es, !vertices_app. split.
    + rewrite length_app, IH1. now destruct (pinned q).
    + intros v Hv. apply in_app_or in Hv. destruct Hv as [Hv|Hv].
      * unfold vget in Hq. destruct (k <? 0); [discriminate|].
        apply nth_error_In in Hq.
        destruct (pinned q); simpl in Hv; destruct Hv as [<-|[]]; eauto.
      * now apply IH2.
Qed.

(** [display] reads within bounds exactly when a projection pass does. *)
Lemma display_bounds (w : World F) :
  display w = None <-> pass_in_bounds (sim w) = false.
Proof.
  unfold display, pass_in_bounds. rewrite !draw_each_spec.
  rewrite draw_point_defined.
  rewrite (forallb_ext' _ _ (localConstraints (sim w))
             (fun c => draw_segment_defined (P (sim w))
                         (LocalConstraint.i c) (LocalConstraint.j c))).
  destruct (forallb _ (localConstraints (sim w))).
  2:{ simpl. tauto. }
  simpl andb. destruct (g_useLRA (sim w)).
  - rewrite ?draw_each_spec.
    rewrite (forallb_ext' _ _ (lraConstraints (sim w))
               (fun c => draw_segment_defined (P (sim w))
                           (LRAConstraint.particleIdx c)
                           (LRAConstraint.attachmentIdx c))).
    unfold lra_in_range. simpl.
    destruct (forallb _ (lraConstraints (sim w))); split; try discriminate;
      reflexivity.
  - simpl. split; discriminate.
Qed.

Lemma display_vertices (w : World F) calls :
  display w = Some calls ->
  length (vertices calls)
  = (2 * length (localConstraints (sim w)) + length (P (sim w))
     + (if g_useLRA (sim w) then 2 * length (lraConstraints (sim w))
        else 0))%nat /\
  forall v, In v (vertices calls) -> exists q, In q (P (sim w)) /\ p q = v.
Proof.
  unfold display. rewrite !draw_each_spec. rewrite draw_point_defined.
  rewrite (forallb_ext' _ _ (localConstraints (sim w))
             (fun c => draw_segment_defined (P (sim w))
                         (LocalConstraint.i c) (LocalConstraint.j c))).
  destruct (forallb _ (localConstraints (sim w))) eqn:Hl; [|discriminate].
  destruct (segments_vertices (P (sim w)) (localConstraints (sim w))
              LocalConstraint.i LocalConstraint.j Hl) as [L1 L2].
  assert (Hr : forallb (in_range (P (sim w)))
                       (zrange (zlength (P (sim w)))) = true).
  { apply forallb_forall. intros k Hk. apply in_zrange in Hk.
    now apply in_range_true. }
  destruct (points_vertices (P (sim w)) (zrange (zlength (P (sim w)))) Hr)
    as [P1 P2].
  rewrite zrange_length in P1.
  replace (Z.to_nat (zlength (P (sim w)))) with (length (P (sim w))) in P1
    by (unfold zlength; now rewrite Nat2Z.id).
  set (lines := flat_map _ (localConstraints (sim w))) in *.
  set (points := flat_map _ (zrange (zlength (P (sim w))))) in *.
  clearbody lines points.
  destruct (g_useLRA (sim w)).
  - rewrite (forallb_ext' _ _ (lraConstraints (sim w))
               (fun c => draw_segment_defined (P (sim w))
                           (LRAConstraint.particleIdx c)
                           (LRAConstraint.attachmentIdx c))).
    destruct (forallb _ (lraConstraints (sim w))) eqn:Ha; [|discriminate].
    destruct (segments_vertices (P (sim w)) (lraConstraints (sim w))
                LRAConstraint.particleIdx LRAConstraint.attachmentIdx Ha)
      as [A1 A2].
    set (segs := flat_map _ (lraConstraints (sim w))) in *.
    clearbody segs.
    intros E. injection E as E. symmetry in E.
    assert (Ev : vertices calls
                 = vertices lines ++ vertices points ++ vertices segs).
    { subst calls. unfold vertices. simpl.
      repeat (rewrite flat_map_app; simpl). now rewrite ?app_nil_r. }
    rewrite Ev. split.
    + rewrite !length_app, L1, P1, A1. lia.
    + intros v Hv. apply in_app_or in Hv. destruct Hv as [Hv|Hv]; auto.
      apply in_app_or in Hv. destruct Hv as [Hv|Hv]; auto.
  - intros E. injection E as E. symmetry in E.
    assert (Ev : vertices calls = vertices lines ++ vertices points).
    { subst calls. unfold vertices. simpl.
      repeat (rewrite flat_map_app; simpl). now rewrite ?app_nil_r. }
    rewrite Ev. split.
    + rewrite !length_app, L1, P1. lia.
    + intros v Hv. apply in_app_or in Hv. destruct Hv as [Hv|Hv]; auto.
Qed.
End DisplayFacts.

(** ** The pendulum *)

Section PendulumFacts.
Import RealScalar.
Local Open Scope R_scope.

(** The free particle of [pendulum] hangs one unit below the anchor. *)
Lemma pendulum_length :
  glm.length (glm.sub (vec3.mk 0 (-1) 0) (vec3.mk 0 0 0)) = 1.
Proof.
  unfold glm.length, glm.dot, glm.sub. simpl.
  replace ((0 - 0) * (0 - 0) + (-1 - 0) * (-1 - 0) + (0 - 0) * (0 - 0))
    with 1 by ring.
  apply sqrt_1.
Qed.
End PendulumFacts.
(** ** NaN in the projections (binary32) *)

Section NanFacts.
Import B32.
Import Particle.
Local Open Scope scalar_scope.

Lemma add_nan_l (a : spec_float) : S754_nan + a = S754_nan.
Proof. now destruct a. Qed.
Lemma add_nan_r (a : spec_float) : a + S754_nan = S754_nan.
Proof. now destruct a. Qed.
Lemma sub_nan_l (a : spec_float) : S754_nan - a = S754_nan.
Proof. now destruct a. Qed.
Lemma sub_nan_r (a : spec_float) : a - S754_nan = S754_nan.
Proof. now destruct a. Qed.
Lemma mul_nan_l (a : spec_float) : S754_nan * a = S754_nan.
Proof. now destruct a. Qed.
Lemma mul_nan_r (a : spec_float) : a * S754_nan = S754_nan.
Proof. now destruct a. Qed.
Lemma div_nan_r (a : spec_float) : a / S754_nan = S754_nan.
Proof. now destruct a. Qed.
Lemma neg_nan : - S754_nan = (S754_nan : spec_float).
Proof. reflexivity. Qed.
Lemma sqrt_nan : fsqrt S754_nan = (S754_nan : spec_float).
Proof. reflexivity. Qed.
Lemma ltb_nan_l (a : spec_float) : (S754_nan <? a) = false.
Proof. now destruct a. Qed.
Lemma ltb_nan_r (a : spec_float) : (a <? S754_nan) = false.
Proof. now destruct a as [[]|[]| |[] m e]. Qed.

(** The distance between two positions one of which has a NaN coordinate
    is a NaN. *)
Lemma length_nan (a b : vec3.t spec_float) :
  has_nan a \/ has_nan b -> glm.length (glm.sub a b) = S754_nan.
Proof.
  intros H. unfold glm.length, glm.dot, glm.sub.
  cbn [vec3.x vec3.y vec3.z].
  assert (Hc : vec3.x a - vec3.x b = S754_nan \/
               vec3.y a - vec3.y b = S754_nan \/
               vec3.z a - vec3.z b = S754_nan).
  { destruct H as [[H|[H|H]]|[H|[H|H]]]; rewrite H;
      rewrite ?sub_nan_l, ?sub_nan_r; auto. }
  destruct Hc as [Hc|[Hc|Hc]]; rewrite Hc;
    now rewrite ?mul_nan_l, ?add_nan_l, ?add_nan_r, ?sqrt_nan.
Qed.

(** What the local projection writes when the distance is a NaN. *)
Lemma nan_correction_add (a dir : vec3.t spec_float) (r k : spec_float) :
  glm.add a
    (glm.scale
       (glm.lscale (- ((S754_nan - r) * (f1 - f0)))
                   (glm.div dir S754_nan)) k)
  = nan3.
Proof.
  unfold glm.add, glm.scale, glm.lscale, glm.div, nan3.
  cbn [vec3.x vec3.y vec3.z].
  repeat rewrite ?sub_nan_l, ?mul_nan_l, ?mul_nan_r, ?neg_nan, ?div_nan_r,
    ?add_nan_r.
  reflexivity.
Qed.

Lemma nan_correction_sub (a dir : vec3.t spec_float) (r k : spec_float) :
  glm.sub a
    (glm.scale
       (glm.lscale (- ((S754_nan - r) * (f1 - f0)))
                   (glm.div dir S754_nan)) k)
  = nan3.
Proof.
  unfold glm.sub, glm.scale, glm.lscale, glm.div, nan3.
  cbn [vec3.x vec3.y vec3.z].
  repeat rewrite ?sub_nan_l, ?mul_nan_l, ?mul_nan_r, ?neg_nan, ?div_nan_r,
    ?sub_nan_r.
  reflexivity.
Qed.
End NanFacts.
Section NanTick.
Import B32.
Import Particle.
Local Open Scope scalar_scope.

Lemma has_nan_add (a b : vec3.t spec_float) :
  has_nan a -> has_nan (glm.add a b).
Proof.
  unfold has_nan, glm.add. cbn [vec3.x vec3.y vec3.z].
  intros [H|[H|H]]; rewrite H, add_nan_l; auto.
Qed.

Lemma has_nan_sub (a b : vec3.t spec_float) :
  has_nan a -> has_nan (glm.sub a b).
Proof.
  unfold has_nan, glm.sub. cbn [vec3.x vec3.y vec3.z].
  intros [H|[H|H]]; rewrite H, sub_nan_l; auto.
Qed.

(** The LRA projection on a NaN distance. *)
Lemma projectLRA_nan (c : LRAConstraint.t spec_float)
      (G : Globals spec_float) (q a : Particle.t spec_float) :
  vget (P G) (LRAConstraint.particleIdx c) = Some q ->
  vget (P G) (LRAConstraint.attachmentIdx c) = Some a ->
  has_nan (p q) \/ has_nan (p a) ->
  exec (projectLRA c) G = Some G.
Proof.
  intros Hq Ha Hnan. rewrite (projectLRA_eq c G q a Hq Ha). cbv zeta.
  rewrite (length_nan (p q) (p a) Hnan).
  now rewrite ltb_nan_r.
Qed.

(** A write to slot [i] keeps the NaN of slot [k], provided that what is
    written to [k] itself has one. *)
Lemma set_p_keeps_nan (G G1 : Globals spec_float) i a k :
  nan_at (P G) k -> (k = i -> has_nan a) ->
  exec (set_p i a) G = Some G1 -> nan_at (P G1) k.
Proof.
  intros [q [Hq Hn]] Ha E.
  destruct (set_p_inv G i a G1 E) as [qi [l [Hi [Hl ->]]]].
  rewrite set_P_P. destruct (Z.eq_dec k i) as [->|Hne].
  - exists (with_p a qi). split.
    + apply (vget_vset_same _ _ _ _ Hl).
    + apply Ha. reflexivity.
  - exists q. split; [|exact Hn].
    rewrite (vget_vset_other _ _ _ _ _ Hl Hne). exact Hq.
Qed.

Lemma projectLocal_keeps_nan (c : LocalConstraint.t spec_float)
      (G G' : Globals spec_float) k :
  exec (projectLocal c) G = Some G' -> nan_at (P G) k -> nan_at (P G') k.
Proof.
  intros E Hk.
  destruct (projectLocal_inv c G G' E) as [p1 [p2 [H1 H2]]].
  rewrite (projectLocal_eq c G p1 p2 H1 H2) in E. cbv zeta in E.
  destruct (fltb _ f1e_6); [now injection E as <-|].
  destruct (fltb _ f1e_6); [now injection E as <-|].
  match type of E with
  | match ?first with _ => _ end = _ =>
      destruct first as [G1|] eqn:E1; [|discriminate E]
  end.
  assert (Hk1 : nan_at (P G1) k).
  { destruct (negb (pinned p1)).
    - apply (set_p_keeps_nan G G1 _ _ k Hk) in E1; [exact E1|].
      intros ->. destruct Hk as [q [Hq Hn]]. rewrite H1 in Hq.
      injection Hq as <-. now apply has_nan_add.
    - now injection E1 as <-. }
  destruct (vget (P G1) (LocalConstraint.j c)) as [p2'|] eqn:H2';
    [|discriminate E].
  destruct (negb (pinned p2')).
  - apply (set_p_keeps_nan G1 G' _ _ k Hk1) in E; [exact E|].
    intros ->. destruct Hk1 as [q [Hq Hn]]. rewrite H2' in Hq.
    injection Hq as <-. now apply has_nan_sub.
  - now injection E as <-.
Qed.

Lemma projectLRA_keeps_nan (c : LRAConstraint.t spec_float)
      (G G' : Globals spec_float) k :
  exec (projectLRA c) G = Some G' -> nan_at (P G) k -> nan_at (P G') k.
Proof.
  intros E [qk [Hqk Hn]].
  destruct (projectLRA_inv c G G' E) as [q [a [Hq Ha]]].
  destruct (Z.eq_dec k (LRAConstraint.particleIdx c)) as [->|Hne].
  - rewrite Hq in Hqk. injection Hqk as ->.
    rewrite (projectLRA_nan c G qk a Hq Ha (or_introl Hn)) in E.
    injection E as <-. exists qk. auto.
  - destruct (projectLRA_step c G q a Hq Ha)
      as [G1 [q' [E1 [_ [_ [_ [Hother _]]]]]]].
    rewrite E in E1. injection E1 as <-.
    exists qk. split; [|exact Hn]. rewrite (Hother k Hne). exact Hqk.
Qed.

Lemma pass_keeps_nan (G G' : Globals spec_float) k :
  pass_spec G = Some G' -> nan_at (P G) k -> nan_at (P G') k.
Proof.
  unfold pass_spec. rewrite apply_all_for_each.
  destruct (exec (for_each (localConstraints G) projectLocal) G)
    as [G1|] eqn:E1; [|discriminate].
  intros E Hk.
  assert (Hk1 : nan_at (P G1) k).
  { apply (for_each_preserves (fun G0 => nan_at (P G0) k)
             (localConstraints G) projectLocal) with (G := G);
      [|exact Hk|exact E1].
    intros c Ga Gb _ Ha Eab. exact (projectLocal_keeps_nan c Ga Gb k Eab Ha). }
  destruct (g_useLRA G).
  - rewrite apply_all_for_each in E.
    apply (for_each_preserves (fun G0 => nan_at (P G0) k)
             (lraConstraints G) projectLRA) with (G := G1);
      [|exact Hk1|exact E].
    intros c Ga Gb _ Ha Eab. exact (projectLRA_keeps_nan c Ga Gb k Eab Ha).
  - now injection E as <-.
Qed.

Lemma passes_keep_nan n (G G' : Globals spec_float) k :
  passes_spec n G = Some G' -> nan_at (P G) k -> nan_at (P G') k.
Proof.
  revert G. induction n as [|n IH]; intros G; simpl.
  - intros E. now injection E as <-.
  - destruct (pass_spec G) as [G1|] eqn:E1; [|discriminate].
    intros E Hk. apply (IH G1 E). exact (pass_keeps_nan G G1 k E1 Hk).
Qed.

(** A NaN coordinate survives a tick. *)
Lemma tick_keeps_nan (G G' : Globals spec_float) k :
  exec simulate G = Some G' -> nan_at (P G) k -> nan_at (P G') k.
Proof.
  rewrite simulate_eq. unfold tick_spec.
  destruct (passes_spec (Z.to_nat (g_iterations G))
                        (map_particles predict1 G)) as [G2|] eqn:E2;
    [|discriminate].
  intros E Hk. simpl in E. injection E as <-.
  assert (H1 : nan_at (P (map_particles predict1 G)) k).
  { destruct Hk as [q [Hq Hn]]. exists (predict1 q). split.
    - unfold map_particles. rewrite set_P_P, vget_map, Hq. reflexivity.
    - unfold predict1. destruct (pinned q); [exact Hn|].
      cbn [p]. now apply has_nan_add. }
  destruct (passes_keep_nan _ _ _ k E2 H1) as [q2 [Hq2 Hn2]].
  exists (reconcile1 q2). split.
  - unfold map_particles. rewrite set_P_P, vget_map, Hq2. reflexivity.
  - rewrite reconcile1_p. exact Hn2.
Qed.
End NanTick.

(** ** The clamp, in any arithmetic *)

Section Settle.
Context {F : Type} {SF : Scalar F}.
Import Particle.
Local Open Scope scalar_scope.
Implicit Types (G : Globals F) (c : LRAConstraint.t F).

Lemma lra_ok_inv (l : list (Particle.t F)) c :
  lra_ok l c = true ->
  exists q a, vget l (LRAConstraint.particleIdx c) = Some q /\
              vget l (LRAConstraint.attachmentIdx c) = Some a /\
              pinned q = false /\ pinned a = true /\
              LRAConstraint.attachmentIdx c <> LRAConstraint.particleIdx c.
Proof.
  unfold lra_ok.
  destruct (vget l (LRAConstraint.particleIdx c)) as [q|] eqn:Hq;
    [|discriminate].
  destruct (vget l (LRAConstraint.attachmentIdx c)) as [a|] eqn:Ha;
    [|discriminate].
  intros H. apply andb_true_iff in H. destruct H as [Hp Hpa].
  apply negb_true_iff in Hp. exists q, a. repeat split; auto.
  intros E. rewrite E in Ha. congruence.
Qed.

Lemma lra_ok_moved_free (l l' : list (Particle.t F)) cs :
  Forall2 moved_free l l' ->
  forallb (lra_ok l) cs = true -> forallb (lra_ok l') cs = true.
Proof.
  intros HF H. rewrite <- H. apply forallb_ext'. intros c.
  rewrite !lra_ok_pinned.
  now rewrite !(Forall2_pinned _ _ _ _ moved_free_pinned HF).
Qed.

(** [lra_settled] reads two particles only. *)
Lemma lra_settled_ext (l l' : list (Particle.t F)) slack c :
  vget l' (LRAConstraint.particleIdx c) = vget l (LRAConstraint.particleIdx c) ->
  vget l' (LRAConstraint.attachmentIdx c)
  = vget l (LRAConstraint.attachmentIdx c) ->
  lra_settled l slack c -> lra_settled l' slack c.
Proof.
  intros Eq Ea [q [a [Hq [Ha H]]]]. exists q, a.
  rewrite Eq, Ea. auto.
Qed.

(** One LRA projection settles its own constraint. *)
Lemma projectLRA_settles c G q a :
  vget (P G) (LRAConstraint.particleIdx c) = Some q ->
  vget (P G) (LRAConstraint.attachmentIdx c) = Some a ->
  LRAConstraint.attachmentIdx c <> LRAConstraint.particleIdx c ->
  exists G',
    exec (projectLRA c) G = Some G' /\
    lra_settled (P G') (g_lraSlack G) c.
Proof.
  intros Hq Ha Hne. rewrite (projectLRA_eq c G _ _ Hq Ha). cbv zeta.
  destruct (fltb (LRAConstraint.maxDist c * g_lraSlack G)
                 (glm.length (glm.sub (p q) (p a)))) eqn:E1.
  - destruct (fltb (glm.length (glm.sub (p q) (p a))) f1e_6) eqn:E2.
    + exists G. split; [reflexivity|]. exists q, a.
      split; [assumption|]. split; [assumption|]. cbv zeta. now right; left.
    + match goal with |- context [set_p ?k ?x] =>
        destruct (set_p_run G k x _ Hq) as [l [Hl El]];
        destruct (set_p_effect G k x _ _ Hq El) as [_ [Hb [Hc _]]] end.
      exists (set_P l G). split; [assumption|].
      eexists. exists a. split; [exact Hb|].
      split; [now rewrite (Hc _ Hne)|]. cbv zeta. right; right.
      exists (p q). cbv zeta. split; [exact E1|]. split; [exact E2|].
      reflexivity.
  - exists G. split; [reflexivity|]. exists q, a.
    split; [assumption|]. split; [assumption|]. cbv zeta. now left.
Qed.

(** After the LRA loop every constraint of the loop is settled: later
    projections move neither its particle (no two constraints share one)
    nor its anchor (it is pinned). *)
Lemma lra_loop_settles cs G :
  forallb (lra_ok (P G)) cs = true ->
  NoDup (map LRAConstraint.particleIdx cs) ->
  exists G',
    exec (for_each cs projectLRA) G = Some G' /\
    frame_rel moved_free G G' /\
    forall c, In c cs -> lra_settled (P G') (g_lraSlack G) c.
Proof.
  revert G. induction cs as [|c t IH]; intros G Hok Hnd.
  - exists G. split; [reflexivity|].
    split; [apply frame_rel_refl, moved_free_refl|]. intros c [].
  - simpl in Hok. apply andb_true_iff in Hok. destruct Hok as [Hc Ht].
    inversion Hnd as [|? ? Hnin Hnd']; subst.
    destruct (lra_ok_inv _ _ Hc) as [q [a [Hq [Ha [Hp [Hpa Hne]]]]]].
    destruct (projectLRA_settles c G q a Hq Ha Hne) as [G1 [E1 Hs1]].
    destruct (projectLRA_step c G _ _ Hq Ha)
      as [G1' [q' [E1' [Hg1 [_ [_ [_ [_ HF1]]]]]]]].
    assert (G1' = G1) by congruence. subst G1'. specialize (HF1 Hp).
    assert (Hslack : g_lraSlack G1 = g_lraSlack G).
    { now destruct (same_globals_fields _ _ Hg1) as [_ [_ [_ [_ [_ ?]]]]]. }
    destruct (IH G1) as [G' [E' [[Hs' HF'] Hcl]]].
    + eapply lra_ok_moved_free; eauto.
    + assumption.
    + exists G'. split; [rewrite for_each_cons, E1; exact E'|].
      split.
      { eapply frame_rel_trans; [apply moved_free_trans|split; eassumption|].
        now split. }
      intros c' [<-|Hc'].
      * apply (lra_settled_ext (P G1)); [| |exact Hs1].
        -- exact (lra_loop_untouched t G1 G' _ E' Hnin).
        -- destruct (Forall2_vget _ _ _ _ _ HF1 Ha) as [a1 [Ha1 [_ Hfix]]].
           rewrite (Hfix Hpa) in Ha1.
           destruct (Forall2_vget _ _ _ _ _ HF' Ha1) as [a2 [Ha2 [_ Hfix2]]].
           rewrite (Hfix2 Hpa) in Ha2. now rewrite Ha1, Ha2.
      * rewrite <- Hslack. now apply Hcl.
Qed.

(** The velocity update reads the positions and leaves them alone. *)
Lemma lra_settled_reconcile (l : list (Particle.t F)) slack c :
  lra_settled l slack c -> lra_settled (map reconcile1 l) slack c.
Proof.
  intros [q [a [Hq [Ha H]]]]. exists (reconcile1 q), (reconcile1 a).
  rewrite !vget_map, Hq, Ha, !reconcile1_p. auto.
Qed.

(** A tick with LRA enabled and at least one pass settles every LRA
    constraint: the LRA loop is the last thing that writes a position. *)
Lemma tick_settles G :
  scene_ok G = true ->
  g_useLRA G = true ->
  (1 <= g_iterations G)%Z ->
  exists G',
    exec simulate G = Some G' /\
    g_lraSlack G' = g_lraSlack G /\
    lraConstraints G' = lraConstraints G /\
    forall c, In c (lraConstraints G') ->
              lra_settled (P G') (g_lraSlack G') c.
Proof.
  intros Hok Hlra Hit. rewrite simulate_eq. unfold tick_spec.
  destruct (Z.to_nat (g_iterations G)) as [|n] eqn:En; [lia|].
  rewrite passes_spec_snoc.
  assert (H1 := map_particles_frame predict1 G predict1_ticked).
  assert (Hok1 : scene_ok (map_particles predict1 G) = true).
  { now rewrite (scene_ok_frame _ _ _ ticked_pinned H1). }
  destruct (passes_spec_total n _ Hok1) as [G2 [-> H2]].
  assert (Hok2 : scene_ok G2 = true).
  { now rewrite (scene_ok_frame _ _ _ moved_free_pinned H2). }
  assert (Hs2 : same_globals G G2).
  { destruct H1 as [Ha _], H2 as [Hb _].
    exact (same_globals_trans _ _ _ Ha Hb). }
  apply same_globals_fields in Hs2.
  destruct Hs2 as [_ [Hc2 [_ [_ [Hu2 Hsl2]]]]].
  unfold scene_ok in Hok2. rewrite !andb_true_iff in Hok2.
  destruct Hok2 as [[Hl Ha] Hd].
  unfold pass_spec. rewrite apply_all_for_each.
  destruct (local_loop_total G2 _ Hl) as [G3 [-> [Hs3 HF3]]].
  rewrite Hu2, Hlra, apply_all_for_each.
  destruct (same_globals_fields _ _ Hs3) as [_ [Hc3 [_ [_ [_ Hsl3]]]]].
  destruct (lra_loop_settles (lraConstraints G2) G3)
    as [G4 [-> [[Hs4 HF4] Hcl]]].
  - eapply lra_ok_moved_free; eauto.
  - now apply distinct_NoDup.
  - simpl. eexists. split; [reflexivity|].
    destruct (same_globals_fields _ _ Hs4) as [_ [Hc4 [_ [_ [_ Hsl4]]]]].
    unfold map_particles. simpl.
    split; [congruence|]. split; [congruence|].
    rewrite Hc4, Hc3. intros c Hc. apply lra_settled_reconcile.
    rewrite Hsl4. now apply Hcl.
Qed.
End Settle.

Section RealSettle.
Import RealScalar.
Import Particle.
Local Open Scope R_scope.

(** In exact arithmetic a settled constraint with a non-negative limit has
    its particle within [maxDist * slack + 1e-6] of its anchor: the
    computed point is at the limit exactly. *)
Lemma lra_settled_real_bound (l : list (Particle.t R)) (slack : R)
      (c : LRAConstraint.t R) :
  0 <= LRAConstraint.maxDist c * slack ->
  lra_settled l slack c ->
  exists d, lra_distance l c = Some d /\
            d <= LRAConstraint.maxDist c * slack + 1 / 1000000.
Proof.
  intros Hlim [q [a [Hq [Ha H]]]]. cbv zeta in H.
  exists (glm.length (glm.sub (p q) (p a))).
  split; [unfold lra_distance; now rewrite Hq, Ha|].
  change (fmul (LRAConstraint.maxDist c) slack)
    with (LRAConstraint.maxDist c * slack) in H.
  set (limit := LRAConstraint.maxDist c * slack) in *.
  destruct H as [H|[H|[p0 [H1 [H2 E]]]]].
  - apply Rltb_false in H. lra.
  - apply Rltb_true in H. change (@f1e_6 R scalar) with (1 / 1000000) in H.
    lra.
  - apply Rltb_true in H1. apply Rltb_false in H2.
    change (@f1e_6 R scalar) with (1 / 1000000) in H2.
    rewrite E. change fdiv with Rdiv.
    rewrite length_scaled; [|apply Rle_mult_inv_pos; lra].
    replace (limit / glm.length (glm.sub p0 (p a))
             * glm.length (glm.sub p0 (p a))) with limit by (field; lra).
    lra.
Qed.
End RealSettle.

Section SolverClaimsInstances.
Import B32 RealScalar Particle.
Local Open Scope scalar_scope.

(** C4. (1) In any arithmetic, [projectLocal] on a constraint between two
    different particles, neither skip applying, moves the first end point,
    unless pinned, by [dp * (w1 / (w1 + w2))] and the second, unless pinned,
    by [- dp * (w2 / (w1 + w2))], where [dp] is the whole correction, and
    leaves every other particle alone.  (2) In binary32 the share
    [w / (w1 + w2)] of an end point of inverse mass 1 facing one of inverse
    mass 0 is exactly 1, that of the other exactly 0, and multiplying a valid
    value by that 1 is exact.  (3), (4) Over the reals, for a free particle
    of inverse mass 1 and a pinned one of inverse mass 0, in either order:
    the pinned particle is unchanged, the free one moves by the whole [dp],
    and the two are at distance [restLen] afterwards. *)
Theorem projectLocal_mass_weighted :
  (forall (F : Type) (SF : Scalar F) (c : LocalConstraint.t F)
          (G : Globals F) (p1 p2 : Particle.t F),
      LocalConstraint.i c <> LocalConstraint.j c ->
      vget (P G) (LocalConstraint.i c) = Some p1 ->
      vget (P G) (LocalConstraint.j c) = Some p2 ->
      let dir := glm.sub (p p1) (p p2) in
      let dist := glm.length dir in
      let wSum := w p1 + w p2 in
      let dp := glm.lscale (- ((dist - LocalConstraint.restLen c) * (f1 - f0)))
                           (glm.div dir dist) in
      (dist <? f1e_6) = false -> (wSum <? f1e_6) = false ->
      exists G',
        exec (projectLocal c) G = Some G' /\
        vget (P G') (LocalConstraint.i c)
        = Some (if pinned p1 then p1
                else with_p (glm.add (p p1) (glm.scale dp (w p1 / wSum))) p1) /\
        vget (P G') (LocalConstraint.j c)
        = Some (if pinned p2 then p2
                else with_p (glm.sub (p p2) (glm.scale dp (w p2 / wSum))) p2) /\
        forall k, k <> LocalConstraint.i c -> k <> LocalConstraint.j c ->
                  vget (P G') k = vget (P G) k) /\
  ((f1 / (f1 + f0) = (f1 : spec_float)) /\
   (f1 / (f0 + f1) = (f1 : spec_float)) /\
   (f0 / (f1 + f0) = (f0 : spec_float)) /\
   (f0 / (f0 + f1) = (f0 : spec_float)) /\
   forall a : spec_float,
     valid_binary B32.prec B32.emax a = true -> a * f1 = a) /\
  (forall (c : LocalConstraint.t R) (G : Globals R) (p1 p2 : Particle.t R),
      LocalConstraint.i c <> LocalConstraint.j c ->
      vget (P G) (LocalConstraint.i c) = Some p1 ->
      vget (P G) (LocalConstraint.j c) = Some p2 ->
      pinned p1 = false -> w p1 = 1%R -> pinned p2 = true -> w p2 = 0%R ->
      let dir := glm.sub (p p1) (p p2) in
      let dist := glm.length dir in
      let dp := glm.lscale (- (dist - LocalConstraint.restLen c))
                           (glm.div dir dist) in
      (1 / 1000000 <= dist)%R -> (0 <= LocalConstraint.restLen c)%R ->
      exists G' p1',
        exec (projectLocal c) G = Some G' /\
        vget (P G') (LocalConstraint.j c) = Some p2 /\
        vget (P G') (LocalConstraint.i c) = Some p1' /\
        p p1' = glm.add (p p1) dp /\
        glm.length (glm.sub (p p1') (p p2)) = LocalConstraint.restLen c) /\
  (forall (c : LocalConstraint.t R) (G : Globals R) (p1 p2 : Particle.t R),
      LocalConstraint.i c <> LocalConstraint.j c ->
      vget (P G) (LocalConstraint.i c) = Some p1 ->
      vget (P G) (LocalConstraint.j c) = Some p2 ->
      pinned p1 = true -> w p1 = 0%R -> pinned p2 = false -> w p2 = 1%R ->
      let dir := glm.sub (p p1) (p p2) in
      let dist := glm.length dir in
      let dp := glm.lscale (- (dist - LocalConstraint.restLen c))
                           (glm.div dir dist) in
      (1 / 1000000 <= dist)%R -> (0 <= LocalConstraint.restLen c)%R ->
      exists G' p2',
        exec (projectLocal c) G = Some G' /\
        vget (P G') (LocalConstraint.i c) = Some p1 /\
        vget (P G') (LocalConstraint.j c) = Some p2' /\
        p p2' = glm.sub (p p2) dp /\
        glm.length (glm.sub (p p1) (p p2')) = LocalConstraint.restLen c).
Proof.
  split; [|split; [|split]].
  - intros F SF. apply projectLocal_weights.
  - destruct b32_weights as [Ha [Hb [Hc Hd]]].
    repeat split; auto. apply mul_one.
  - apply projectLocal_free_pinned.
  - apply projectLocal_pinned_free.
Qed.


(** C7. [projectLocal] on a constraint whose two indices are in range
    completes with the state unchanged, in any arithmetic, when the distance
    between the two particles is below [1e-6], when the sum of their inverse
    masses is below [1e-6], and when both are pinned.  In binary32 and over
    the reals the sum of two zero inverse masses is below [1e-6]. *)
Theorem projectLocal_degenerate :
  (forall (F : Type) (SF : Scalar F) (c : LocalConstraint.t F)
          (G : Globals F) (p1 p2 : Particle.t F),
      vget (P G) (LocalConstraint.i c) = Some p1 ->
      vget (P G) (LocalConstraint.j c) = Some p2 ->
      ((glm.length (glm.sub (p p1) (p p2)) <? f1e_6) = true ->
       exec (projectLocal c) G = Some G) /\
      ((w p1 + w p2 <? f1e_6) = true -> exec (projectLocal c) G = Some G) /\
      (pinned p1 = true -> pinned p2 = true ->
       exec (projectLocal c) G = Some G)) /\
  ((f0 + f0 : spec_float) <? f1e_6) = true /\
  ((f0 + f0 : R) <? f1e_6) = true.
Proof.
  split; [|split].
  - intros F SF. apply projectLocal_skips.
  - exact b32_zero_sum.
  - exact real_zero_sum.
Qed.

(** C10. Running [projectLRA] on a constraint whose two indices are in range
    completes; every global other than the particle store is unchanged (the
    two constraint sets in particular); the store keeps its size; every
    particle other than [P[particleIdx]] is unchanged, the anchor among them
    when it is another particle; and [P[particleIdx]] keeps its previous
    position, velocity, inverse mass and pin flag.  This holds in any
    arithmetic.  In binary32 and over the reals a constraint anchored at its
    own particle changes nothing at all. *)
Theorem projectLRA_frame :
  (forall (F : Type) (SF : Scalar F) (c : LRAConstraint.t F)
          (G : Globals F) (q a : Particle.t F),
      vget (P G) (LRAConstraint.particleIdx c) = Some q ->
      vget (P G) (LRAConstraint.attachmentIdx c) = Some a ->
      exists G',
        exec (projectLRA c) G = Some G' /\
        same_globals G G' /\
        localConstraints G' = localConstraints G /\
        lraConstraints G' = lraConstraints G /\
        List.length (P G') = List.length (P G) /\
        (forall k, k <> LRAConstraint.particleIdx c ->
                   vget (P G') k = vget (P G) k) /\
        (LRAConstraint.attachmentIdx c <> LRAConstraint.particleIdx c ->
         vget (P G') (LRAConstraint.attachmentIdx c) = Some a) /\
        exists q',
          vget (P G') (LRAConstraint.particleIdx c) = Some q' /\
          old_p q' = old_p q /\ v q' = v q /\ w q' = w q /\
          pinned q' = pinned q) /\
  (forall (c : LRAConstraint.t spec_float) (G : Globals spec_float)
          (q : Particle.t spec_float),
      LRAConstraint.attachmentIdx c = LRAConstraint.particleIdx c ->
      vget (P G) (LRAConstraint.particleIdx c) = Some q ->
      exec (projectLRA c) G = Some G) /\
  (forall (c : LRAConstraint.t R) (G : Globals R) (q : Particle.t R),
      LRAConstraint.attachmentIdx c = LRAConstraint.particleIdx c ->
      vget (P G) (LRAConstraint.particleIdx c) = Some q ->
      exec (projectLRA c) G = Some G).
Proof.
  split; [|split].
  - intros F SF. apply projectLRA_only_position.
  - apply projectLRA_self_b32.
  - apply projectLRA_self_real.
Qed.
End SolverClaimsInstances.

(** ** The tick and the run *)

Section TickClaims.
Import B32 RealScalar.
Local Open Scope scalar_scope.

(** C3. [simulate] is the three stages of the specification in their order,
    and changes nothing else: every free particle is predicted ([v += g dt],
    [old_p = p], [p += v dt]); then [g_iterations] projection passes run,
    each applying [projectLocal] to the local constraints in their order and
    then, iff [g_useLRA], [projectLRA] to the LRA constraints in their order;
    then the velocity of every free particle is set to [(p - old_p) / dt]
    and multiplied by [0.99f].  That factor is below 1 in binary32 and over
    the reals. *)
Theorem simulate_three_stages :
  (forall (F : Type) (SF : Scalar F) (G : Globals F),
      exec simulate G = tick_spec G) /\
  ((f0_99 : spec_float) <? f1) = true /\
  ((f0_99 : R) <? f1) = true.
Proof.
  split; [|split].
  - intros F SF. apply simulate_eq.
  - exact b32_damping.
  - exact real_damping.
Qed.

(** C2. On a grid of non-negative dimensions [buildScene] completes, any
    sequence of ticks run on the scene it builds completes, whatever the
    iteration count, LRA flag and slack of each tick, and every particle
    that was pinned at build time is afterwards exactly as it was built,
    its position in particular. *)
Theorem pinned_never_move
        {F : Type} {SF : Scalar F} (clothW clothH : Z) (spacing : F)
        (G0 : Globals F) (ticks : list (Z * bool * F)) :
  0 <= clothW -> 0 <= clothH ->
  exists Gb G',
    exec (buildScene clothW clothH spacing) G0 = Some Gb /\
    run_ticks ticks Gb = Some G' /\
    forall k q, vget (P Gb) k = Some q -> Particle.pinned q = true ->
                vget (P G') k = Some q.
Proof.
  intros HW HH.
  destruct (buildScene_ok clothW clothH spacing HW HH G0) as [Gb [E Hok]].
  destruct (run_ticks_total ticks Gb Hok) as [G' [Er [HF _]]].
  exists Gb, G'. split; [assumption|]. split; [assumption|].
  intros k q Hq Hp.
  destruct (Forall2_vget _ _ _ _ _ HF Hq) as [q' [Hq' [_ [_ Hfix]]]].
  now rewrite (Hfix Hp) in Hq'.
Qed.

Lemma pinned_never_move_witness :
  0 <= 3 /\ 0 <= 3 /\
  exists Gb G',
    exec (buildScene 3 3 (f1 : spec_float)) initial_globals = Some Gb /\
    run_ticks [(5, true, f1); (1, false, f1)] Gb = Some G' /\
    forall k q, vget (P Gb) k = Some q -> Particle.pinned q = true ->
                vget (P G') k = Some q.
Proof.
  split; [lia|]. split; [lia|].
  apply (pinned_never_move 3 3 (f1 : spec_float) initial_globals
           [(5, true, f1); (1, false, f1)]); lia.
Defined.
End TickClaims.

(** ** The 3 x 3 grid *)

Section Grid3.
Import B32.
Local Open Scope scalar_scope.

(** The 3 x 3 grid with spacing 1.0 as the program itself builds it.  The
    pin rule of [buildScene] pins both top corners, (0,0) and (2,0), so
    there are 2 anchors (particles 0 and 2), 12 local constraints and 7 LRA
    constraints, each with [maxDist] the distance from the particle's grid
    coordinate to the nearer top corner (the first one on a tie), times the
    spacing. *)
Example grid3_top_corners :
  exec (buildScene 3 3 f1) initial_globals = Some grid3 /\
  map Particle.pinned (P grid3)
  = [true; false; true; false; false; false; false; false; false] /\
  attachmentIndices grid3 = [0; 2] /\
  List.length (localConstraints grid3) = 12%nat /\
  lraConstraints grid3
  = [LRAConstraint.mk 1 0 (fsqrt (of_int (1 * 1 + 0 * 0)) * f1);
     LRAConstraint.mk 3 0 (fsqrt (of_int (0 * 0 + 1 * 1)) * f1);
     LRAConstraint.mk 4 0 (fsqrt (of_int (1 * 1 + 1 * 1)) * f1);
     LRAConstraint.mk 5 2 (fsqrt (of_int (0 * 0 + 1 * 1)) * f1);
     LRAConstraint.mk 6 0 (fsqrt (of_int (0 * 0 + 2 * 2)) * f1);
     LRAConstraint.mk 7 0 (fsqrt (of_int (1 * 1 + 2 * 2)) * f1);
     LRAConstraint.mk 8 2 (fsqrt (of_int (0 * 0 + 2 * 2)) * f1)].
Proof. repeat split; vm_compute; reflexivity. Qed.

(** C8.  The pin rule is an expression inside [buildScene]; with that
    expression a parameter, [buildSceneWith] is [buildScene] when given the
    rule of the source, and given the rule that pins the grid coordinate
    (0,0) only it builds, for the 3 x 3 grid with spacing 1.0 in binary32,
    exactly 1 anchor (particle 0), 12 local constraints and 8 LRA
    constraints, one per free particle and all tied to particle 0; the
    particle at grid coordinate [(x, y)] has index [3 * y + x] and its
    [maxDist] is the distance [sqrt (x * x + y * y)] from its grid
    coordinate to (0,0), times the spacing. *)
Theorem grid3_build :
  (forall (F : Type) (SF : Scalar F) (clothW clothH : Z) (spacing : F),
      buildSceneWith (top_corners clothW) clothW clothH spacing
      = buildScene clothW clothH spacing) /\
  exists Gb,
    exec (buildSceneWith origin_only 3 3 f1) initial_globals = Some Gb /\
    map Particle.pinned (P Gb)
    = [true; false; false; false; false; false; false; false; false] /\
    attachmentIndices Gb = [0] /\
    List.length (localConstraints Gb) = 12%nat /\
    lraConstraints Gb
    = [LRAConstraint.mk 1 0 (fsqrt (of_int (1 * 1 + 0 * 0)) * f1);
       LRAConstraint.mk 2 0 (fsqrt (of_int (2 * 2 + 0 * 0)) * f1);
       LRAConstraint.mk 3 0 (fsqrt (of_int (0 * 0 + 1 * 1)) * f1);
       LRAConstraint.mk 4 0 (fsqrt (of_int (1 * 1 + 1 * 1)) * f1);
       LRAConstraint.mk 5 0 (fsqrt (of_int (2 * 2 + 1 * 1)) * f1);
       LRAConstraint.mk 6 0 (fsqrt (of_int (0 * 0 + 2 * 2)) * f1);
       LRAConstraint.mk 7 0 (fsqrt (of_int (1 * 1 + 2 * 2)) * f1);
       LRAConstraint.mk 8 0 (fsqrt (of_int (2 * 2 + 2 * 2)) * f1)].
Proof.
  split; [reflexivity|].
  eexists. split; [vm_compute; reflexivity|].
  repeat split; vm_compute; reflexivity.
Qed.
End Grid3.

(** ** The builder attaches every free particle to its nearest anchor *)

(** The general form of the nearest-anchor rule, for any arithmetic whose
    comparisons are IEEE-like and any grid of non-negative dimensions. *)
Lemma buildScene_nearest
        {F : Type} {SF : Scalar F} {SO : ScalarOrder F}
        (clothW clothH : Z) (spacing : F) (G0 : Globals F) :
  0 <= clothW -> 0 <= clothH ->
  exists Gb,
    exec (buildScene clothW clothH spacing) G0 = Some Gb /\
    (forall k, In k (attachmentIndices Gb) <->
               exists q, vget (P Gb) k = Some q /\ Particle.pinned q = true) /\
    forall i q,
      vget (P Gb) i = Some q ->
      (Particle.pinned q = true ->
       filter (fun c => LRAConstraint.particleIdx c =? i) (lraConstraints Gb)
       = []) /\
      (Particle.pinned q = false ->
       (exists a d, In a (attachmentIndices Gb) /\
                    rest_distance (P Gb) q a = Some d /\
                    fltb d f1e30 = true) ->
       exists pre b post m,
         attachmentIndices Gb = pre ++ b :: post /\
         filter (fun c => LRAConstraint.particleIdx c =? i)
                (lraConstraints Gb)
         = [LRAConstraint.mk i b m] /\
         rest_distance (P Gb) q b = Some m /\
         (forall a d, In a pre -> rest_distance (P Gb) q a = Some d ->
                      fleb d m = false) /\
         (forall a d, In a post -> rest_distance (P Gb) q a = Some d ->
                      fltb d m = false)).
Proof.
  intros HW HH.
  destruct (buildScene_eq clothW clothH spacing HW HH G0) as [L [E HL]].
  eexists. split; [exact E|]. simpl.
  set (Pb := map (rest_particle clothW clothH spacing)
                 (grid_cells clothW clothH)).
  set (Ab := map (cell_id clothW)
                 (filter (is_corner clothW) (grid_cells clothW clothH))).
  assert (Hlen : zlength Pb = clothW * clothH).
  { unfold Pb, zlength. rewrite length_map.
    apply (grid_cells_length clothW clothH HW HH). }
  split.
  - intros k. split.
    + apply (anchors_pinned clothW clothH spacing HW HH).
    + intros [q [Hq Hp]].
      apply (pinned_is_anchor clothW clothH spacing HW HH k q Hq Hp).
  - intros i q Hq.
    assert (Hi : In i (zrange (clothW * clothH))).
    { apply in_zrange. rewrite <- Hlen. eapply vget_Some_range; eauto. }
    rewrite (filter_flat_map_lra Pb Ab i _ (zrange_NoDup _) Hi).
    unfold lra_of. rewrite Hq. split.
    + now intros ->.
    + intros Hp [a [d [Ha [Hd Hlt]]]]. rewrite Hp.
      assert (Hr := anchors_in_range clothW clothH spacing HW HH).
      fold Pb Ab in Hr.
      destruct (nearest_spec Pb q Ab (-1, f1e30) Hr)
        as [[_ Hall]|[pre [post [Es [Hb [_ [Hpre Hpost]]]]]]].
      * specialize (Hall a d Ha Hd). simpl in Hall. congruence.
      * set (r := nearest Pb q Ab (-1, f1e30)) in *.
        assert (Hne : negb (fst r =? -1) = true).
        { apply negb_true_iff, Z.eqb_neq. intros Hm.
          rewrite forallb_forall in Hr.
          assert (Hin : In (fst r) Ab).
          { rewrite Es. apply in_or_app. right. now left. }
          apply Hr, in_range_true in Hin. lia. }
        rewrite Hne. exists pre, (fst r), post, (snd r). auto.
Qed.

Section BuilderClaim.
Import B32.

(** C6. (1) For any arithmetic with IEEE-like comparisons and non-negative
    grid dimensions [buildScene] completes; the anchor list holds exactly the
    pinned particles; a pinned particle receives no LRA constraint; and a
    free particle [i] that has an anchor closer than the initial bound
    [1e30f] of the scan receives exactly one constraint [{i, b, m}], where
    [b] is an anchor, [m] is the rest distance from [i] to [b], no anchor
    listed before [b] is within distance [m], and no anchor listed after [b]
    is strictly closer than [m].  (2) On the grid of the program (30 x 30,
    spacing 0.05f, binary32) the anchors are particles 0 and 29, every free
    particle has an anchor closer than that bound, and the LRA constraints
    are those of the 898 free particles, one each, in index order. *)
Theorem buildScene_lra_nearest :
  (forall (F : Type) (SF : Scalar F) (SO : ScalarOrder F)
          (clothW clothH : Z) (spacing : F) (G0 : Globals F),
      0 <= clothW -> 0 <= clothH ->
      exists Gb,
        exec (buildScene clothW clothH spacing) G0 = Some Gb /\
        (forall k, In k (attachmentIndices Gb) <->
                   exists q, vget (P Gb) k = Some q /\
                             Particle.pinned q = true) /\
        forall i q,
          vget (P Gb) i = Some q ->
          (Particle.pinned q = true ->
           filter (fun c => LRAConstraint.particleIdx c =? i)
                  (lraConstraints Gb) = []) /\
          (Particle.pinned q = false ->
           (exists a d, In a (attachmentIndices Gb) /\
                        rest_distance (P Gb) q a = Some d /\
                        fltb d f1e30 = true) ->
           exists pre b post m,
             attachmentIndices Gb = pre ++ b :: post /\
             filter (fun c => LRAConstraint.particleIdx c =? i)
                    (lraConstraints Gb)
             = [LRAConstraint.mk i b m] /\
             rest_distance (P Gb) q b = Some m /\
             (forall a d, In a pre -> rest_distance (P Gb) q a = Some d ->
                          fleb d m = false) /\
             (forall a d, In a post -> rest_distance (P Gb) q a = Some d ->
                          fltb d m = false))) /\
  (exists Gb,
      exec (buildScene 30 30 (frat 5 100 : spec_float)) initial_globals
      = Some Gb /\
      attachmentIndices Gb = [0; 29] /\
      map LRAConstraint.particleIdx (lraConstraints Gb)
      = filter (fun k => negb ((k =? 0) || (k =? 29))) (zrange 900) /\
      forall i q,
        vget (P Gb) i = Some q -> Particle.pinned q = false ->
        exists a d, In a (attachmentIndices Gb) /\
                    rest_distance (P Gb) q a = Some d /\
                    fltb d f1e30 = true).
Proof.
  split.
  - intros F SF SO. apply buildScene_nearest.
  - assert (Hc : option_map
                   (fun G => (attachmentIndices G,
                              map LRAConstraint.particleIdx (lraConstraints G),
                              anchors_within_bound G))
                   (exec (buildScene 30 30 (frat 5 100 : spec_float))
                         initial_globals)
                 = Some ([0; 29],
                         filter (fun k => negb ((k =? 0) || (k =? 29)))
                                (zrange 900),
                         true))
      by (vm_compute; reflexivity).
    destruct (exec (buildScene 30 30 (frat 5 100 : spec_float))
                   initial_globals) as [Gb|]; [|discriminate Hc].
    unfold option_map in Hc. injection Hc as Ha Hl Hb.
    exists Gb. split; [reflexivity|]. split; [exact Ha|]. split; [exact Hl|].
    intros i q Hq Hp. unfold anchors_within_bound in Hb.
    rewrite forallb_forall in Hb.
    assert (Hin : In q (P Gb)).
    { unfold vget in Hq. destruct (i <? 0); [discriminate Hq|].
      eapply nth_error_In; eauto. }
    specialize (Hb q Hin). rewrite Hp, orb_false_l in Hb.
    apply existsb_exists in Hb. destruct Hb as [a [Hain Hd]].
    destruct (rest_distance (P Gb) q a) as [d|] eqn:Ed; [|discriminate Hd].
    exists a, d. auto.
Qed.
End BuilderClaim.

Section ClampClaims.
Import RealScalar.
Local Open Scope R_scope.

(** In any arithmetic: build a grid of non-negative dimensions, run any
    ticks on it, then run one more tick with LRA enabled and at least one
    projection pass.  All of it completes, the constraints are still those
    that were built, and after that tick every LRA constraint is as its
    projection in the last pass left it. *)
Lemma settled_after_tick
      {F : Type} {SF : Scalar F}
      (clothW clothH : Z) (spacing : F) (G0 : Globals F)
      (ticks : list (Z * bool * F)) (iters : Z) (slack : F) :
  (0 <= clothW)%Z -> (0 <= clothH)%Z -> (1 <= iters)%Z ->
  exists Gb G1 G',
    exec (buildScene clothW clothH spacing) G0 = Some Gb /\
    run_ticks ticks Gb = Some G1 /\
    step iters true slack G1 = Some G' /\
    lraConstraints G' = lraConstraints Gb /\
    forall c, In c (lraConstraints G') -> lra_settled (P G') slack c.
Proof.
  intros HW HH Hit.
  destruct (buildScene_ok clothW clothH spacing HW HH G0) as [Gb [E Hok]].
  destruct (run_ticks_total ticks Gb Hok)
    as [G1 [Er [_ [_ [Hl1 [_ Hok1]]]]]].
  destruct (tick_settles (set_params iters true slack G1))
    as [G' [Es [Hs [Hl2 Hcl]]]]; try assumption; try reflexivity.
  exists Gb, G1, G'. split; [assumption|]. split; [assumption|].
  split; [exact Es|]. simpl in Hs, Hl2.
  split; [congruence|]. rewrite <- Hs. exact Hcl.
Qed.

(** C1, as the code has it.  Build a grid of non-negative dimensions, run
    any ticks on it, then run one more tick with LRA enabled and at least
    one projection pass.  All of it completes, and:

    - in any arithmetic, binary32 included, every LRA constraint is left as
      its projection in the last pass left it ([lra_settled]): the test
      [currentDist > maxDist * slack] of [projectLRA] fails at the final
      positions, or the distance is below the guard [1e-6], or the particle
      sits at the point [attach.p + dir * (limit / currentDist)] that
      [projectLRA] computed.  The LRA loop is the last writer of positions
      in a tick, no two constraints share a particle, and anchors are
      pinned;
    - in exact arithmetic, with a non-negative slack, that gives the bound
      of the claim: the distance from the particle to its anchor is at most
      [maxDist * slack + 1e-6].

    In binary32 the computed point can lie farther from the anchor than
    that bound; [lra_clamp_exceeded_b32] below is such a tick. *)
Theorem lra_clamp_after_tick :
  (forall (F : Type) (SF : Scalar F)
          (clothW clothH : Z) (spacing : F) (G0 : Globals F)
          (ticks : list (Z * bool * F)) (iters : Z) (slack : F),
      (0 <= clothW)%Z -> (0 <= clothH)%Z -> (1 <= iters)%Z ->
      exists Gb G1 G',
        exec (buildScene clothW clothH spacing) G0 = Some Gb /\
        run_ticks ticks Gb = Some G1 /\
        step iters true slack G1 = Some G' /\
        forall c, In c (lraConstraints G') -> lra_settled (P G') slack c)
  /\
  (forall (clothW clothH : Z) (spacing : R) (G0 : Globals R)
          (ticks : list (Z * bool * R)) (iters : Z) (slack : R),
      (0 <= clothW)%Z -> (0 <= clothH)%Z -> (1 <= iters)%Z -> 0 <= slack ->
      exists Gb G1 G',
        exec (buildScene clothW clothH spacing) G0 = Some Gb /\
        run_ticks ticks Gb = Some G1 /\
        step iters true slack G1 = Some G' /\
        forall c, In c (lraConstraints G') ->
          exists d, lra_distance (P G') c = Some d /\
                    d <= LRAConstraint.maxDist c * slack + 1 / 1000000).
Proof.
  split.
  - intros F SF clothW clothH spacing G0 ticks iters slack HW HH Hit.
    destruct (settled_after_tick clothW clothH spacing G0 ticks iters slack
                                 HW HH Hit)
      as [Gb [G1 [G' [E [Er [Es [_ Hc]]]]]]].
    exists Gb, G1, G'. auto.
  - intros clothW clothH spacing G0 ticks iters slack HW HH Hit Hsl.
    destruct (settled_after_tick clothW clothH spacing G0 ticks iters slack
                                 HW HH Hit)
      as [Gb [G1 [G' [E [Er [Es [Hl Hc]]]]]]].
    exists Gb, G1, G'. do 3 (split; [assumption|]).
    intros c Hin. apply lra_settled_real_bound; [|now apply Hc].
    apply Rmult_le_pos; [|assumption].
    apply (built_maxDist_nonneg clothW clothH spacing G0 Gb c HW HH E).
    now rewrite <- Hl.
Qed.
End ClampClaims.

Section ClampB32.
Import B32.
Local Open Scope scalar_scope.

(** The numeric bound fails in binary32, by one unit in the last place of
    the distance, which grows with the coordinates.

    Build the 3 x 3 grid with spacing 200.0 and run the first tick with the
    settings the program starts with (5 passes, LRA enabled, slack 1.0).
    The constraint that ties particle 7 to anchor 0 then has the limit
    [maxDist * slack] = 14654295 * 2^-15 (about 447.2136) and the distance
    14654296 * 2^-15, about 3.05e-5 above the limit: more than the
    tolerance [1e-6], and more than ten times it.

    Build the grid with spacing 3000.0 instead and run the first tick with
    one pass.  The same constraint has the limit 13738402 * 2^-11 (about
    6708.2) and the distance 13738403 * 2^-11, about 4.9e-4 above the
    limit: more than a hundred times the tolerance.

    In both, the comparison of the source says so too. *)
Lemma lra_clamp_exceeded_b32 :
  (exists Gb G' c d,
      exec (buildScene 3 3 (frat 200 1)) initial_globals = Some Gb /\
      g_iterations Gb = 5 /\ g_useLRA Gb = true /\ g_lraSlack Gb = f1 /\
      exec simulate Gb = Some G' /\
      In c (lraConstraints G') /\
      lra_distance (P G') c = Some d /\
      LRAConstraint.maxDist c * g_lraSlack G'
      = S754_finite false 14654295 (-15) /\
      d = S754_finite false 14654296 (-15) /\
      (LRAConstraint.maxDist c * g_lraSlack G' + f1e_6 <? d) = true /\
      (LRAConstraint.maxDist c * g_lraSlack G' + frat 1 100000 <? d)
      = true) /\
  (exists Gb G' c d,
      exec (buildScene 3 3 (frat 3000 1)) initial_globals = Some Gb /\
      step 1 true f1 Gb = Some G' /\
      In c (lraConstraints G') /\
      lra_distance (P G') c = Some d /\
      LRAConstraint.maxDist c * g_lraSlack G'
      = S754_finite false 13738402 (-11) /\
      d = S754_finite false 13738403 (-11) /\
      (LRAConstraint.maxDist c * g_lraSlack G' + frat 1 10000 <? d)
      = true).
Proof.
  split.
  - do 4 eexists.
    split; [vm_compute; reflexivity|].
    do 3 (split; [reflexivity|]).
    split; [vm_compute; reflexivity|].
    split; [apply (nth_error_In _ 5%nat); vm_compute; reflexivity|].
    repeat split; vm_compute; reflexivity.
  - do 4 eexists.
    split; [vm_compute; reflexivity|].
    split; [vm_compute; reflexivity|].
    split; [apply (nth_error_In _ 5%nat); vm_compute; reflexivity|].
    repeat split; vm_compute; reflexivity.
Qed.
End ClampB32.

(** On the 3 x 3 grid with spacing 1.0 the bound is met in binary32 after
    each of three ticks, and rounding makes the tolerance necessary: after
    the third tick some particle is farther from its anchor than
    [maxDist * slack]. *)
Example grid3_three_ticks_b32 :
  match @run_ticks _ B32.scalar [(5, true, B32.rat 1 1)] grid3 with
  | Some G1 =>
      match @run_ticks _ B32.scalar
                       [(5, true, B32.rat 1 1); (5, true, B32.rat 1 1)] G1 with
      | Some G3 =>
          @lra_within _ B32.scalar (B32.rat 1 1000000) G1
          && @lra_within _ B32.scalar (B32.rat 1 1000000) G3
          && negb (@lra_within _ B32.scalar (B32.rat 0 1) G3)
      | None => false
      end
  | None => false
  end = true.
Proof. vm_compute. reflexivity. Qed.

(** C9. Two runs of the program on the same grid whose sequences of ticks and
    key presses are the same go through the same particle stores, tick after
    tick, and end in the same simulation state, whatever clock values [idle]
    reads and whatever mouse, redraw and reshape events come in between. *)
Theorem simulation_deterministic
        {F : Type} {SF : Scalar F} (clothW clothH : Z) (spacing : F)
        (es1 es2 : list Event) :
  sim_inputs es1 = sim_inputs es2 ->
  fst (run clothW clothH spacing es1) = fst (run clothW clothH spacing es2) /\
  sim_outcome (snd (run clothW clothH spacing es1))
  = sim_outcome (snd (run clothW clothH spacing es2)).
Proof.
  intros E. unfold run.
  destruct (main clothW clothH spacing) as [w| |]; [|auto|auto].
  assert (H1 := mainLoop_sim clothW clothH spacing es1 w).
  assert (H2 := mainLoop_sim clothW clothH spacing es2 w).
  rewrite E in H1. rewrite <- H2 in H1. now injection H1.
Qed.

(** ** The claims at concrete inputs *)

Section Witnesses.
Import B32 RealScalar.
Local Open Scope scalar_scope.

Lemma lra_clamp_after_tick_witness :
  (exists Gb G1 G' : Globals spec_float,
      exec (buildScene 3 3 (frat 200 1 : spec_float)) initial_globals
      = Some Gb /\
      run_ticks [(5, true, f1); (2, false, f1)] Gb = Some G1 /\
      step 5 true f1 G1 = Some G' /\
      forall c, In c (lraConstraints G') -> lra_settled (P G') f1 c) /\
  (exists Gb G1 G' : Globals R,
      exec (buildScene 3 3 1%R) initial_globals = Some Gb /\
      run_ticks [(5, true, 1%R); (2, false, 1%R)] Gb = Some G1 /\
      step 5 true 1%R G1 = Some G' /\
      forall c, In c (lraConstraints G') ->
        exists d, lra_distance (P G') c = Some d /\
                  (d <= LRAConstraint.maxDist c * 1 + 1 / 1000000)%R).
Proof.
  destruct lra_clamp_after_tick as [HF HR]. split.
  - exact (HF spec_float B32.scalar 3 3 (frat 200 1 : spec_float)
              initial_globals
              [(5, true, f1); (2, false, f1)] 5 f1
              ltac:(lia) ltac:(lia) ltac:(lia)).
  - exact (HR 3 3 1%R initial_globals [(5, true, 1%R); (2, false, 1%R)]
              5 1%R ltac:(lia) ltac:(lia) ltac:(lia) ltac:(lra)).
Defined.

Lemma projectLocal_mass_weighted_witness :
  vget (P grid3) 0 = Some (particle_of grid3 0) /\
  vget (P grid3) 1 = Some (particle_of grid3 1) /\
  Particle.pinned (particle_of grid3 0) = true /\
  Particle.pinned (particle_of grid3 1) = false /\
  exists G',
    exec (projectLocal (LocalConstraint.mk 0 1 f1)) grid3 = Some G' /\
    vget (P G') 0 = Some (particle_of grid3 0).
Proof.
  split; [reflexivity|]. split; [reflexivity|].
  split; [reflexivity|]. split; [reflexivity|].
  destruct (proj1 projectLocal_mass_weighted spec_float B32.scalar
                  (LocalConstraint.mk 0 1 f1) grid3
                  (particle_of grid3 0) (particle_of grid3 1))
    as [G' [E [Hi _]]].
  - discriminate.
  - reflexivity.
  - reflexivity.
  - vm_compute. reflexivity.
  - vm_compute. reflexivity.
  - exists G'. split; [exact E|exact Hi].
Defined.


Lemma projectLocal_degenerate_witness :
  vget (P grid3) 0 = Some (particle_of grid3 0) /\
  vget (P grid3) 2 = Some (particle_of grid3 2) /\
  exec (projectLocal (LocalConstraint.mk 0 2 f1)) grid3 = Some grid3.
Proof.
  split; [reflexivity|]. split; [reflexivity|].
  destruct (proj1 projectLocal_degenerate spec_float B32.scalar
                  (LocalConstraint.mk 0 2 f1) grid3
                  (particle_of grid3 0) (particle_of grid3 2))
    as [_ [_ Hpinned]].
  - reflexivity.
  - reflexivity.
  - apply Hpinned; reflexivity.
Defined.

Lemma projectLRA_frame_witness :
  vget (P grid3) 4 = Some (particle_of grid3 4) /\
  vget (P grid3) 0 = Some (particle_of grid3 0) /\
  exists G',
    exec (projectLRA (LRAConstraint.mk 4 0 f1)) grid3 = Some G' /\
    lraConstraints G' = lraConstraints grid3 /\
    vget (P G') 0 = Some (particle_of grid3 0).
Proof.
  split; [reflexivity|]. split; [reflexivity|].
  destruct (proj1 projectLRA_frame spec_float B32.scalar
                  (LRAConstraint.mk 4 0 f1) grid3
                  (particle_of grid3 4) (particle_of grid3 0))
    as [G' [E [_ [_ [Hl [_ [_ [Ha _]]]]]]]].
  - reflexivity.
  - reflexivity.
  - exists G'. split; [exact E|]. split; [exact Hl|].
    apply Ha. discriminate.
Defined.

Lemma simulation_deterministic_witness :
  sim_inputs [Idle 16; MouseMotion 3 4; Keyboard 108; Idle 40]
  = sim_inputs [Idle 999; Keyboard 108; Display; Idle 1000] /\
  fst (run 3 3 (f1 : spec_float)
           [Idle 16; MouseMotion 3 4; Keyboard 108; Idle 40])
  = fst (run 3 3 (f1 : spec_float)
             [Idle 999; Keyboard 108; Display; Idle 1000]).
Proof.
  split; [reflexivity|].
  apply (simulation_deterministic 3 3 (f1 : spec_float)). reflexivity.
Defined.

Lemma buildScene_lra_nearest_witness :
  0 <= 3 /\ 0 <= 3 /\
  exists pre b post m,
    attachmentIndices grid3 = pre ++ b :: post /\
    filter (fun c => LRAConstraint.particleIdx c =? 4) (lraConstraints grid3)
    = [LRAConstraint.mk 4 b m] /\
    rest_distance (P grid3) (particle_of grid3 4) b = Some m.
Proof.
  split; [lia|]. split; [lia|].
  destruct (proj1 buildScene_lra_nearest spec_float B32.scalar B32_order
                  3 3 (f1 : spec_float) initial_globals)
    as [Gb [E [_ H]]]; [lia|lia|].
  assert (E3 : exec (buildScene 3 3 (f1 : spec_float)) initial_globals
               = Some grid3) by (vm_compute; reflexivity).
  rewrite E3 in E. injection E as <-. clear E3.
  destruct (H 4 (particle_of grid3 4) eq_refl) as [_ Hfree].
  destruct Hfree as [pre [b [post [m [Ha [Hf [Hd _]]]]]]].
  - reflexivity.
  - exists 0, (fsqrt (of_int 2)). split; [left; reflexivity|].
    split; vm_compute; reflexivity.
  - exists pre, b, post, m. auto.
Defined.
End Witnesses.
(** * Further properties of the builder *)

Section BuilderExtras.
Context {F : Type} {SF : Scalar F}.
Variables clothW clothH : Z.
Variable spacing : F.
Import Particle.
Local Open Scope scalar_scope.

(** X1. [buildScene] is a reset: from any two states it builds the same
    particles, constraints and anchor list, whatever was stored before; it
    keeps the three parameters of the state it starts from; and building
    again on a built scene gives that scene back. *)
Theorem buildScene_resets (G1 G2 : Globals F) :
  (0 <= clothW)%Z -> (0 <= clothH)%Z ->
  exists B1 B2,
    exec (buildScene clothW clothH spacing) G1 = Some B1 /\
    exec (buildScene clothW clothH spacing) G2 = Some B2 /\
    P B1 = P B2 /\
    localConstraints B1 = localConstraints B2 /\
    lraConstraints B1 = lraConstraints B2 /\
    attachmentIndices B1 = attachmentIndices B2 /\
    g_iterations B1 = g_iterations G1 /\
    g_useLRA B1 = g_useLRA G1 /\
    g_lraSlack B1 = g_lraSlack G1 /\
    exec (buildScene clothW clothH spacing) B1 = Some B1.
Proof.
  intros HW HH.
  exists (built_scene clothW clothH spacing G1),
         (built_scene clothW clothH spacing G2).
  rewrite !(buildScene_closed clothW clothH spacing HW HH).
  repeat split; reflexivity.
Qed.

(** X2. The rest layout: [buildScene] makes [clothW * clothH] particles,
    and the one of column [x] and row [y] sits in slot [y * clothW + x] at
    [((x - (clothW - 1) * 0.5) * spacing, (clothH - 1 - y) * spacing, 0)],
    with its previous position equal to its position and zero velocity; it
    is pinned exactly when it is a top corner, and its inverse mass is 0
    when pinned and 1 otherwise. *)
Theorem buildScene_rest_layout (G0 : Globals F) :
  (0 <= clothW)%Z -> (0 <= clothH)%Z ->
  exists Gb,
    exec (buildScene clothW clothH spacing) G0 = Some Gb /\
    zlength (P Gb) = (clothW * clothH)%Z /\
    forall x y,
      (0 <= x < clothW)%Z -> (0 <= y < clothH)%Z ->
      exists q,
        vget (P Gb) (idx clothW x y) = Some q /\
        p q = vec3.mk ((of_int x - of_int (clothW - 1) * f0_5) * spacing)
                      (of_int (clothH - 1 - y) * spacing) f0 /\
        old_p q = p q /\
        v q = glm.splat f0 /\
        pinned q = ((y =? 0)%Z && ((x =? 0)%Z || (x =? clothW - 1)%Z)) /\
        w q = (if pinned q then f0 else f1).
Proof.
  intros HW HH. exists (built_scene clothW clothH spacing G0).
  split; [apply (buildScene_closed clothW clothH spacing HW HH)|].
  split.
  - simpl. unfold built_particles, zlength. rewrite length_map.
    apply (grid_cells_length clothW clothH HW HH).
  - intros x y Hx Hy. exists (rest_particle clothW clothH spacing (y, x)).
    split.
    + apply (rest_particle_at clothW clothH spacing HW HH (y, x)).
      apply in_grid_cells. simpl. lia.
    + repeat split.
Qed.

(** X3. The anchor list after a build: empty for an empty grid, the single
    slot 0 for a grid one cell wide (its two top corners are one particle,
    recorded once), and otherwise slots 0 and [clothW - 1] in this order.
    A particle is pinned exactly when its slot is in the list. *)
Theorem buildScene_anchor_list (G0 : Globals F) :
  (0 <= clothW)%Z -> (0 <= clothH)%Z ->
  exists Gb,
    exec (buildScene clothW clothH spacing) G0 = Some Gb /\
    attachmentIndices Gb
    = (if (clothW =? 0)%Z || (clothH =? 0)%Z then []
       else if (clothW =? 1)%Z then [0%Z] else [0%Z; (clothW - 1)%Z]) /\
    forall k q, vget (P Gb) k = Some q ->
                (pinned q = true <-> In k (attachmentIndices Gb)).
Proof.
  intros HW HH. exists (built_scene clothW clothH spacing G0).
  split; [apply (buildScene_closed clothW clothH spacing HW HH)|].
  split; [apply (built_anchors_cases clothW clothH HW HH)|].
  intros k q Hq. simpl in *. split.
  - apply (pinned_is_anchor clothW clothH spacing HW HH k q Hq).
  - intros Hk.
    destruct (anchors_pinned clothW clothH spacing HW HH k Hk)
      as [q' [Hq' Hp]].
    unfold built_particles in Hq. rewrite Hq in Hq'.
    now injection Hq' as <-.
Qed.

(** X4. The local constraints are the edges of the grid: there are
    [(clothW - 1) * clothH + clothW * (clothH - 1)] of them; each joins a
    cell to its right neighbour or to the neighbour below, the smaller slot
    first; every such pair of neighbours has a constraint; and no pair of
    end points occurs twice. *)
Theorem buildScene_local_grid (G0 : Globals F) :
  (1 <= clothW)%Z -> (1 <= clothH)%Z ->
  exists Gb,
    exec (buildScene clothW clothH spacing) G0 = Some Gb /\
    zlength (localConstraints Gb)
    = ((clothW - 1) * clothH + clothW * (clothH - 1))%Z /\
    (forall c, In c (localConstraints Gb) ->
       (LocalConstraint.i c < LocalConstraint.j c)%Z /\
       exists x y,
         (0 <= x < clothW)%Z /\ (0 <= y < clothH)%Z /\
         LocalConstraint.i c = idx clothW x y /\
         ((x + 1 < clothW)%Z /\ LocalConstraint.j c = idx clothW (x + 1) y
          \/
          (y + 1 < clothH)%Z /\ LocalConstraint.j c = idx clothW x (y + 1)))
    /\
    (forall x y,
       (0 <= x < clothW)%Z -> (0 <= y < clothH)%Z ->
       ((x + 1 < clothW)%Z ->
        exists c, In c (localConstraints Gb) /\
                  LocalConstraint.i c = idx clothW x y /\
                  LocalConstraint.j c = idx clothW (x + 1) y) /\
       ((y + 1 < clothH)%Z ->
        exists c, In c (localConstraints Gb) /\
                  LocalConstraint.i c = idx clothW x y /\
                  LocalConstraint.j c = idx clothW x (y + 1))) /\
    NoDup (map (fun c : LocalConstraint.t F =>
                  (LocalConstraint.i c, LocalConstraint.j c))
               (localConstraints Gb)).
Proof.
  intros HW HH. exists (built_scene clothW clothH spacing G0).
  assert (HW0 : (0 <= clothW)%Z) by lia.
  assert (HH0 : (0 <= clothH)%Z) by lia.
  split; [apply (buildScene_closed clothW clothH spacing HW0 HH0)|].
  split; [apply grid_edges_length; assumption|].
  split; [|split].
  - intros c Hc. simpl in Hc. apply in_grid_edges in Hc.
    destruct Hc as [y [x [Hy [Hx Hc]]]].
    split.
    + destruct Hc as [[Hlt ->]|[Hlt ->]]; unfold rest_edge, cell_id, idx;
        simpl; nia.
    + exists x, y. split; [assumption|]. split; [assumption|].
      destruct Hc as [[Hlt ->]|[Hlt ->]]; simpl; auto.
  - intros x y Hx Hy. split; intros Hlt.
    + exists (rest_edge clothW clothH spacing (y, x) (y, x + 1)%Z).
      split; [|split; reflexivity].
      simpl. apply in_grid_edges. exists y, x. auto.
    + exists (rest_edge clothW clothH spacing (y, x) (y + 1, x)%Z).
      split; [|split; reflexivity].
      simpl. apply in_grid_edges. exists y, x. auto.
  - apply (grid_edges_NoDup clothW clothH spacing HW0 HH0).
Qed.

(** X5. Right after a build every constraint is exactly met: the rest
    length of a local constraint is the distance between its two particles
    as stored, and the [maxDist] of an LRA constraint is the distance
    between its particle and its anchor as stored, computed by the same
    expression, so that no rounding separates them. *)
Theorem buildScene_rest_exact (G0 : Globals F) :
  (0 <= clothW)%Z -> (0 <= clothH)%Z ->
  exists Gb,
    exec (buildScene clothW clothH spacing) G0 = Some Gb /\
    (forall c, In c (localConstraints Gb) ->
       exists p1 p2,
         vget (P Gb) (LocalConstraint.i c) = Some p1 /\
         vget (P Gb) (LocalConstraint.j c) = Some p2 /\
         LocalConstraint.restLen c = glm.length (glm.sub (p p1) (p p2))) /\
    (forall c, In c (lraConstraints Gb) ->
       lra_distance (P Gb) c = Some (LRAConstraint.maxDist c)).
Proof.
  intros HW HH. exists (built_scene clothW clothH spacing G0).
  split; [apply (buildScene_closed clothW clothH spacing HW HH)|].
  split.
  - intros c Hc. simpl in Hc. apply in_grid_edges in Hc.
    destruct Hc as [y [x [Hy [Hx Hc]]]].
    assert (H0 : In (y, x) (grid_cells clothW clothH)).
    { apply in_grid_cells. simpl. lia. }
    apply (rest_particle_at clothW clothH spacing HW HH) in H0.
    destruct Hc as [[Hlt ->]|[Hlt ->]].
    + assert (H1 : In (y, x + 1)%Z (grid_cells clothW clothH)).
      { apply in_grid_cells. simpl. lia. }
      apply (rest_particle_at clothW clothH spacing HW HH) in H1.
      eexists _, _. split; [exact H0|]. split; [exact H1|reflexivity].
    + assert (H1 : In (y + 1, x)%Z (grid_cells clothW clothH)).
      { apply in_grid_cells. simpl. lia. }
      apply (rest_particle_at clothW clothH spacing HW HH) in H1.
      eexists _, _. split; [exact H0|]. split; [exact H1|reflexivity].
  - intros c Hc. simpl in Hc. apply in_flat_map in Hc.
    destruct Hc as [i [_ Hc]]. simpl.
    apply (lra_of_distance _ _ _ _ Hc).
Qed.

(** X6. An empty grid: with no columns or no rows [buildScene] leaves no
    particle, no constraint and no anchor, and a tick on that scene changes
    nothing, whatever the iteration count. *)
Theorem buildScene_empty_grid (G0 : Globals F) :
  (0 <= clothW)%Z -> (0 <= clothH)%Z -> (clothW = 0 \/ clothH = 0)%Z ->
  exists Gb,
    exec (buildScene clothW clothH spacing) G0 = Some Gb /\
    P Gb = [] /\ localConstraints Gb = [] /\ lraConstraints Gb = [] /\
    attachmentIndices Gb = [] /\
    exec simulate Gb = Some Gb.
Proof.
  intros HW HH H0. exists (built_scene clothW clothH spacing G0).
  split; [apply (buildScene_closed clothW clothH spacing HW HH)|].
  assert (Hc : grid_cells clothW clothH = []).
  { destruct (grid_cells clothW clothH) as [|c t] eqn:E; [reflexivity|].
    assert (Hin : In c (grid_cells clothW clothH)) by (rewrite E; now left).
    apply in_grid_cells in Hin. lia. }
  assert (HP : built_particles clothW clothH spacing = []).
  { unfold built_particles. now rewrite Hc. }
  assert (HL : grid_edges clothW clothH spacing = []).
  { unfold grid_edges. now rewrite Hc. }
  assert (HA : flat_map (lra_of (built_particles clothW clothH spacing)
                                (built_anchors clothW clothH))
                        (zrange (clothW * clothH)) = []).
  { rewrite zrange_nonpos; [reflexivity|]. nia. }
  assert (HT : built_anchors clothW clothH = []).
  { unfold built_anchors. now rewrite Hc. }
  assert (E : built_scene clothW clothH spacing G0
              = mkGlobals [] [] [] [] (g_iterations G0) (g_useLRA G0)
                          (g_lraSlack G0)).
  { unfold built_scene. now rewrite HA, HP, HL, HT. }
  rewrite E. do 4 (split; [reflexivity|]).
  apply simulate_empty; reflexivity.
Qed.
End BuilderExtras.
(** * Further properties of the two projections *)

Section LocalExtras.
Context {F : Type} {SF : Scalar F}.
Import Particle.

(** X8. [projectLocal] reads [P[c.i]] and [P[c.j]] and has no result
    exactly when one of the two indices is out of range.  When it returns,
    the constraints, the anchor list and the parameters are as before, no
    particle is added or removed, only the particles at [c.i] and [c.j] can
    differ, and of any particle only the position can differ; a pinned
    particle is left as it was. *)
Theorem projectLocal_touches_endpoints (c : LocalConstraint.t F)
        (G : Globals F) :
  (exec (projectLocal c) G = None <-> local_ok (P G) c = false) /\
  forall G',
    exec (projectLocal c) G = Some G' ->
    localConstraints G' = localConstraints G /\
    lraConstraints G' = lraConstraints G /\
    attachmentIndices G' = attachmentIndices G /\
    g_iterations G' = g_iterations G /\
    g_useLRA G' = g_useLRA G /\
    g_lraSlack G' = g_lraSlack G /\
    zlength (P G') = zlength (P G) /\
    (forall k, k <> LocalConstraint.i c -> k <> LocalConstraint.j c ->
               vget (P G') k = vget (P G) k) /\
    (forall k q, vget (P G) k = Some q ->
       exists q', vget (P G') k = Some q' /\
                  old_p q' = old_p q /\ v q' = v q /\ w q' = w q /\
                  pinned q' = pinned q /\
                  (pinned q = true -> q' = q)).
Proof.
  split.
  - split.
    + intros HN. destruct (local_ok (P G) c) eqn:Hok; [|reflexivity].
      unfold local_ok in Hok. apply andb_true_iff in Hok.
      destruct Hok as [Hi Hj]. apply in_range_vget in Hi, Hj.
      destruct Hi as [p1 Hi], Hj as [p2 Hj].
      destruct (projectLocal_step c G p1 p2 Hi Hj) as [G' [E _]].
      rewrite E in HN. discriminate HN.
    + intros Hok. destruct (exec (projectLocal c) G) as [G'|] eqn:E;
        [|reflexivity].
      apply projectLocal_inv in E. destruct E as [p1 [p2 [Hi Hj]]].
      unfold local_ok in Hok.
      assert (H1 : in_range (P G) (LocalConstraint.i c) = true)
        by (apply in_range_vget; eauto).
      assert (H2 : in_range (P G) (LocalConstraint.j c) = true)
        by (apply in_range_vget; eauto).
      rewrite H1, H2 in Hok. discriminate Hok.
  - intros G' E. pose proof (projectLocal_inv c G G' E) as [p1 [p2 [Hi Hj]]].
    destruct (projectLocal_step c G p1 p2 Hi Hj) as [G1 [E1 [Hg [HF Hk]]]].
    rewrite E in E1. injection E1 as <-.
    destruct (same_globals_fields G G' Hg) as [A [B [C [D [E' E'']]]]].
    repeat (split; [assumption|]).
    split; [apply (Forall2_zlength _ _ _ HF)|].
    split; [exact Hk|].
    intros k q Hq. destruct (Forall2_vget _ _ _ _ _ HF Hq) as [q' [Hq' Hm]].
    exists q'. split; [exact Hq'|]. destruct Hm as [Hm Hpin].
    destruct (moved_fields q q' Hm) as [A1 [A2 [A3 A4]]]. auto.
Qed.
End LocalExtras.

Section RealSolverExtras.
Import RealScalar.
Import Particle.
Local Open Scope R_scope.

(** X10. In exact arithmetic a local constraint that is already met, the
    distance being exactly [restLen], is left alone: the projection
    returns the state it was given, whatever the masses and pin flags. *)
Theorem projectLocal_at_rest (c : LocalConstraint.t R) (G : Globals R)
        (p1 p2 : Particle.t R) :
  vget (P G) (LocalConstraint.i c) = Some p1 ->
  vget (P G) (LocalConstraint.j c) = Some p2 ->
  glm.length (glm.sub (p p1) (p p2)) = LocalConstraint.restLen c ->
  exec (projectLocal c) G = Some G.
Proof. apply projectLocal_met. Qed.
End RealSolverExtras.
(** * Further properties of a tick *)

Section TickExtras.
Context {F : Type} {SF : Scalar F}.
Import Particle.

(** X13. When [simulate] reads out of range: a tick has no result exactly
    when it runs at least one projection pass and some local constraint has
    an end point outside the particle store or, LRA being enabled, some LRA
    constraint has its particle or its anchor outside.  With no pass to run
    ([g_iterations < 1]) or with all indices in range it always returns. *)
Theorem simulate_fault_iff (G : Globals F) :
  exec simulate G = None <->
  (1 <= g_iterations G)%Z /\
  (forallb (local_ok (P G)) (localConstraints G) = false \/
   g_useLRA G = true /\
   forallb (lra_in_range (P G)) (lraConstraints G) = false).
Proof.
  rewrite simulate_bounds.
  assert (H : pass_in_bounds G = false <->
              forallb (local_ok (P G)) (localConstraints G) = false \/
              g_useLRA G = true /\
              forallb (lra_in_range (P G)) (lraConstraints G) = false).
  { unfold pass_in_bounds.
    change (fun c : LocalConstraint.t F =>
              in_range (P G) (LocalConstraint.i c)
              && in_range (P G) (LocalConstraint.j c))
      with (local_ok (P G)).
    destruct (forallb (local_ok (P G)) (localConstraints G)),
             (g_useLRA G),
             (forallb (lra_in_range (P G)) (lraConstraints G));
      simpl; split; intros H; try discriminate H; auto;
      destruct H as [H|[H1 H2]]; discriminate. }
  rewrite H. reflexivity.
Qed.

(** X14. What a tick never changes, on any state on which it returns: the
    two constraint lists, the anchor list, the three parameters, the number
    of particles, and the inverse mass and pin flag of every particle.  If
    moreover no LRA constraint in use has a pinned particle as the one to
    move, every pinned particle is exactly as before. *)
Theorem simulate_preserves (G G' : Globals F) :
  exec simulate G = Some G' ->
  localConstraints G' = localConstraints G /\
  lraConstraints G' = lraConstraints G /\
  attachmentIndices G' = attachmentIndices G /\
  g_iterations G' = g_iterations G /\
  g_useLRA G' = g_useLRA G /\
  g_lraSlack G' = g_lraSlack G /\
  zlength (P G') = zlength (P G) /\
  (forall k q, vget (P G) k = Some q ->
     exists q', vget (P G') k = Some q' /\
                w q' = w q /\ pinned q' = pinned q) /\
  ((g_useLRA G = true -> lra_targets_free (P G) (lraConstraints G)) ->
   forall k q, vget (P G) k = Some q -> pinned q = true ->
               vget (P G') k = Some q).
Proof.
  intros E. destruct (simulate_same_globals G G' E) as [Hs Hl].
  destruct (same_globals_fields G G' Hs) as [A [B [C [D [E1 E2]]]]].
  repeat (split; [assumption|]). split.
  - intros k q Hq.
    destruct (tick_particle G G' k q E Hq) as [q2 [Hm [Hq' _]]].
    exists (reconcile1 q2). split; [exact Hq'|].
    destruct (moved_fields _ _ Hm) as [_ [_ [Hw Hp]]].
    destruct (reconcile1_ticked q2) as [Hw2 [Hp2 _]].
    destruct (predict1_ticked q) as [Hw1 [Hp1 _]].
    split; congruence.
  - intros Hfree k q Hq Hp.
    destruct (tick_particle G G' k q E Hq) as [q2 [_ [Hq' Hmf]]].
    destruct (Hmf Hfree) as [_ Hfix].
    destruct (predict1_ticked q) as [_ [Hp1 Hfix1]].
    rewrite Hq'. f_equal.
    rewrite (Hfix (eq_trans Hp1 Hp)), (Hfix1 Hp).
    destruct (reconcile1_ticked q) as [_ [_ Hfix2]]. exact (Hfix2 Hp).
Qed.

(** X15. After a tick, a free particle remembers where it started and its
    velocity is the damped net displacement of the tick: [old_p] is the
    position before the tick and [v = ((p - old_p) / dt) * 0.99], whatever
    the projections did in between.  The velocity before the tick matters
    only through the predicted position. *)
Theorem simulate_velocity_bookkeeping (G G' : Globals F) k q :
  exec simulate G = Some G' ->
  vget (P G) k = Some q ->
  pinned q = false ->
  exists q',
    vget (P G') k = Some q' /\
    old_p q' = p q /\
    v q' = glm.scale (glm.div (glm.sub (p q') (p q)) dt) f0_99.
Proof.
  intros E Hq Hp.
  destruct (tick_particle G G' k q E Hq) as [q2 [Hm [Hq' _]]].
  exists (reconcile1 q2). split; [exact Hq'|].
  destruct (moved_fields _ _ Hm) as [Ho [_ [_ Hp2]]].
  unfold predict1 in Ho, Hp2. rewrite Hp in Ho, Hp2. simpl in Ho, Hp2.
  unfold reconcile1. rewrite Hp2. simpl. rewrite Ho. split; reflexivity.
Qed.

(** X16. A tick reads neither the anchor list nor, when LRA is disabled,
    the LRA constraints: with other contents in them (of any kind, indices
    out of range included) it computes the same particles, and faults in
    the same cases. *)
Theorem simulate_ignores_unused (L : list (LRAConstraint.t F)) (A : list Z)
        (G : Globals F) :
  g_useLRA G = false \/ L = lraConstraints G ->
  exec simulate (with_lra L A G)
  = option_map (with_lra L A) (exec simulate G).
Proof. apply simulate_with_lra. Qed.
End TickExtras.
(** * Further properties of the event loop *)

Section LoopExtras.
Context {F : Type} {SF : Scalar F}.
Variables clothW clothH : Z.
Variable spacing : F.
Import Particle.

Local Abbreviation run' := (run clothW clothH spacing).
Local Abbreviation keyboard' := (keyboard clothW clothH spacing).
Local Abbreviation mainLoop' := (mainLoop clothW clothH spacing).

(** X17. The program never reads out of range.  On a grid of non-negative
    dimensions, whatever events arrive in whatever order, no callback runs
    into an out-of-range [P[k]]; and in every state the loop reaches, the
    scene is well formed, the iteration count is 1, 2, 5 or 10, the next
    tick completes and [display] completes. *)
Theorem run_memory_safe (es : list Event) :
  0 <= clothW -> 0 <= clothH ->
  snd (run' es) <> Undefined /\
  forall w,
    snd (run' es) = Running w ->
    scene_ok (sim w) = true /\
    In (g_iterations (sim w)) [1; 2; 5; 10] /\
    (forall t, idle t w <> Undefined) /\
    display w <> None.
Proof.
  intros HW HH.
  pose proof (run_invariant clothW clothH spacing HW HH es) as Hinv.
  split.
  - intros E. now rewrite E in Hinv.
  - intros w E. rewrite E in Hinv. destruct Hinv as [Hok [Hit _]].
    split; [exact Hok|]. split; [exact Hit|]. split.
    + intros t. unfold idle.
      destruct (simulate_total (sim w) Hok) as [G' [-> _]]. discriminate.
    + intros Hd. apply display_bounds in Hd.
      rewrite (scene_ok_in_bounds _ Hok) in Hd. discriminate Hd.
Qed.

(** X18. The structure of the cloth is fixed for the whole run.  In every
    state the loop reaches, after any ticks, parameter changes and resets,
    the local constraints, the LRA constraints and the anchor list are those
    [main] built, there are as many particles, each with the inverse mass
    and pin flag it was built with, and every pinned particle is exactly as
    built. *)
Theorem run_keeps_structure (es : list Event) (w : World F) :
  0 <= clothW -> 0 <= clothH ->
  snd (run' es) = Running w ->
  exists w0,
    main clothW clothH spacing = Running w0 /\
    localConstraints (sim w) = localConstraints (sim w0) /\
    lraConstraints (sim w) = lraConstraints (sim w0) /\
    attachmentIndices (sim w) = attachmentIndices (sim w0) /\
    zlength (P (sim w)) = zlength (P (sim w0)) /\
    forall k q0,
      vget (P (sim w0)) k = Some q0 ->
      exists q, vget (P (sim w)) k = Some q /\
                Particle.w q = Particle.w q0 /\ pinned q = pinned q0 /\
                (pinned q0 = true -> q = q0).
Proof.
  intros HW HH E.
  pose proof (run_invariant clothW clothH spacing HW HH es) as Hinv.
  rewrite E in Hinv. destruct Hinv as [_ [_ [S1 [S2 [S3 S4]]]]].
  eexists. split; [apply (main_world clothW clothH spacing HW HH)|].
  simpl. repeat (split; [assumption|]). split.
  - apply (Forall2_zlength _ _ _ S4).
  - intros k q0 Hq0.
    destruct (Forall2_vget _ _ _ _ _ S4 Hq0) as [q [Hq Ht]].
    exists q. split; [exact Hq|exact Ht].
Qed.

(** X19. Reset.  From any state, the key [r] (or [R]) puts back the
    particles, constraints and anchors that [main] started with; it does
    not reset the iteration count, the LRA flag or the slack, and leaves
    the camera and the frame counters alone. *)
Theorem reset_restores_start (w : World F) :
  0 <= clothW -> 0 <= clothH ->
  exists w0 w',
    main clothW clothH spacing = Running w0 /\
    keyboard' 114 w = Running w' /\
    keyboard' 82 w = Running w' /\
    P (sim w') = P (sim w0) /\
    localConstraints (sim w') = localConstraints (sim w0) /\
    lraConstraints (sim w') = lraConstraints (sim w0) /\
    attachmentIndices (sim w') = attachmentIndices (sim w0) /\
    g_iterations (sim w') = g_iterations (sim w) /\
    g_useLRA (sim w') = g_useLRA (sim w) /\
    g_lraSlack (sim w') = g_lraSlack (sim w) /\
    cam w' = cam w /\ frame w' = frame w /\ t0 w' = t0 w.
Proof.
  intros HW HH.
  exists (mkWorld (built_scene clothW clothH spacing initial_globals)
                  initial_camera 0 0),
         (with_sim (built_scene clothW clothH spacing (sim w)) w).
  split; [apply (main_world clothW clothH spacing HW HH)|].
  unfold keyboard, lift_sim. simpl.
  rewrite (buildScene_closed clothW clothH spacing HW HH).
  repeat split.
Qed.

(** X20. Escape ends the run: the events after an ESC key press have no
    effect on the recorded trajectory or the outcome, and a run that
    contains an ESC does not end in a running state. *)
Theorem exit_stops_run (es1 es2 : list Event) :
  run' (es1 ++ Keyboard 27 :: es2) = run' (es1 ++ [Keyboard 27]) /\
  forall w, snd (run' (es1 ++ Keyboard 27 :: es2)) <> Running w.
Proof.
  assert (Hesc : forall t (w : World F),
            mainLoop' (Keyboard 27 :: t) w = ([], Exited)).
  { intros t w. reflexivity. }
  unfold run. destruct (main clothW clothH spacing) as [w0| |].
  - rewrite !(mainLoop_app clothW clothH spacing).
    destruct (snd (mainLoop' es1 w0)) as [w1| |].
    + rewrite !Hesc. split; [reflexivity|]. simpl. discriminate.
    + split; [reflexivity|]. simpl. discriminate.
    + split; [reflexivity|]. simpl. discriminate.
  - split; [reflexivity|]. simpl. discriminate.
  - split; [reflexivity|]. simpl. discriminate.
Qed.

(** X21. Which key touches what.  A key press never changes the camera or
    the frame counters; only [r]/[R] changes particles, constraints or
    anchors; only [1]..[4] change the iteration count; only [l]/[L] changes
    the LRA flag; only the two bracket keys change the slack. *)
Theorem keyboard_frame (k : Z) (w w' : World F) :
  0 <= clothW -> 0 <= clothH ->
  keyboard' k w = Running w' ->
  cam w' = cam w /\ frame w' = frame w /\ t0 w' = t0 w /\
  (k <> 114 -> k <> 82 ->
   P (sim w') = P (sim w) /\
   localConstraints (sim w') = localConstraints (sim w) /\
   lraConstraints (sim w') = lraConstraints (sim w) /\
   attachmentIndices (sim w') = attachmentIndices (sim w)) /\
  (~ In k [49; 50; 51; 52] -> g_iterations (sim w') = g_iterations (sim w)) /\
  (k <> 108 -> k <> 76 -> g_useLRA (sim w') = g_useLRA (sim w)) /\
  (k <> 93 -> k <> 91 -> g_lraSlack (sim w') = g_lraSlack (sim w)).
Proof.
  intros HW HH. unfold keyboard, lift_sim, set_iterations.
  rewrite (buildScene_closed clothW clothH spacing HW HH).
  destruct (Z.eqb_spec k 108);
    [intros E; injection E as <-; simpl; repeat split; intros;
     first [reflexivity|lia]|].
  destruct (Z.eqb_spec k 76);
    [intros E; injection E as <-; simpl; repeat split; intros;
     first [reflexivity|lia]|].
  destruct (Z.eqb_spec k 114);
    [intros E; injection E as <-; simpl; repeat split; intros;
     first [reflexivity|lia]|].
  destruct (Z.eqb_spec k 82);
    [intros E; injection E as <-; simpl; repeat split; intros;
     first [reflexivity|lia]|].
  simpl orb. cbv iota.
  destruct (Z.eqb_spec k 93);
    [intros E; injection E as <-; simpl; repeat split; intros;
     first [reflexivity|lia]|].
  destruct (Z.eqb_spec k 91);
    [intros E; injection E as <-; simpl; repeat split; intros;
     first [reflexivity|lia]|].
  destruct (Z.eqb_spec k 49);
    [intros E; injection E as <-; simpl; repeat split; intros;
     first [reflexivity|simpl in *; lia]|].
  destruct (Z.eqb_spec k 50);
    [intros E; injection E as <-; simpl; repeat split; intros;
     first [reflexivity|simpl in *; lia]|].
  destruct (Z.eqb_spec k 51);
    [intros E; injection E as <-; simpl; repeat split; intros;
     first [reflexivity|simpl in *; lia]|].
  destruct (Z.eqb_spec k 52);
    [intros E; injection E as <-; simpl; repeat split; intros;
     first [reflexivity|simpl in *; lia]|].
  destruct (Z.eqb_spec k 27); [discriminate|].
  intros E; injection E as <-; repeat split.
Qed.

(** X22. The camera follows the mouse alone, and the frame counter counts
    the ticks: after a run that is still going, the camera is the initial
    one moved by the mouse events of the run in their order, whatever ticks
    and key presses came in between, and both the frame counter and the
    number of recorded particle stores equal the number of [idle] calls. *)
Theorem camera_follows_mouse (es : list Event) (w : World F) :
  0 <= clothW -> 0 <= clothH ->
  snd (run' es) = Running w ->
  cam w = fold_left (fun c e => mouse_step e c) es initial_camera /\
  frame w = Z.of_nat (length (filter is_idle es)) /\
  length (fst (run' es)) = length (filter is_idle es).
Proof.
  intros HW HH. unfold run.
  rewrite (main_world clothW clothH spacing HW HH). intros E.
  set (w0 := mkWorld (built_scene clothW clothH spacing initial_globals)
                     initial_camera 0 0) in *.
  destruct (mainLoop_camera clothW clothH spacing HW HH es w0 w E)
    as [Hc [Hf Hl]].
  split; [exact Hc|]. split; [exact Hf|exact Hl].
Qed.
End LoopExtras.

Section RealLoopExtras.
Import RealScalar.
Variables clothW clothH : Z.
Variable spacing : R.
Local Open Scope R_scope.

(** X23. In exact arithmetic the slack never drops below 1: it starts at
    1, the closing bracket key adds 0.05 and the opening bracket key takes
    the larger of 1 and the slack less 0.05, so in every state the loop
    reaches [1 <= g_lraSlack]. *)
Theorem run_slack_at_least_one (es : list Event) (w : World R) :
  (0 <= clothW)%Z -> (0 <= clothH)%Z ->
  snd (run clothW clothH spacing es) = Running w ->
  1 <= g_lraSlack (sim w).
Proof. intros HW HH. apply (run_slack clothW clothH spacing HW HH). Qed.
End RealLoopExtras.

Section SettledLoopExtras.
Context {F : Type} {SF : Scalar F}.
Variables clothW clothH : Z.
Variable spacing : F.

(** X24. The LRA pass has the last word in the running program, in any
    arithmetic: in whatever state the loop is, reached by any ticks, key
    presses and resets, if LRA is enabled then the next [idle] completes
    and afterwards every LRA constraint is as its last projection left it
    ([lra_settled]): within the limit by the test of the source, or below
    the guard [1e-6], or at the very point [projectLRA] computed.  The
    iteration counts that the keys can set always give the LRA loop at
    least one pass. *)
Theorem run_tick_settles (es : list Event) (t : Z) (w : World F) :
  0 <= clothW -> 0 <= clothH ->
  snd (run clothW clothH spacing es) = Running w ->
  g_useLRA (sim w) = true ->
  exists w',
    idle t w = Running w' /\
    forall c, In c (lraConstraints (sim w')) ->
              lra_settled (P (sim w')) (g_lraSlack (sim w')) c.
Proof.
  intros HW HH E Hu.
  pose proof (run_invariant clothW clothH spacing HW HH es) as Hinv.
  rewrite E in Hinv. destruct Hinv as [Hok [Hit _]].
  destruct (tick_settles (sim w) Hok Hu) as [G' [Es [_ [_ Hc]]]].
  - simpl in Hit. lia.
  - unfold idle. rewrite Es. eexists. split; [reflexivity|]. exact Hc.
Qed.
End SettledLoopExtras.
(** * Properties of the drawing callback *)

Section DisplayExtras.
Context {F : Type} {SF : Scalar F}.
Import Particle.

(** X25. When [display] reads out of range: exactly when some local
    constraint has an end point outside the particle store or, LRA being
    enabled, some LRA constraint has its particle or anchor outside; these
    are the cases in which a projection pass of [simulate] faults too.
    With LRA disabled the LRA constraints are not read. *)
Theorem display_fault_iff (w : World F) :
  display w = None <->
  (forallb (local_ok (P (sim w))) (localConstraints (sim w)) = false \/
   g_useLRA (sim w) = true /\
   forallb (lra_in_range (P (sim w))) (lraConstraints (sim w)) = false).
Proof.
  rewrite display_bounds. unfold pass_in_bounds.
  change (fun c : LocalConstraint.t F =>
            in_range (P (sim w)) (LocalConstraint.i c)
            && in_range (P (sim w)) (LocalConstraint.j c))
    with (local_ok (P (sim w))).
  destruct (forallb (local_ok (P (sim w))) (localConstraints (sim w))),
           (g_useLRA (sim w)),
           (forallb (lra_in_range (P (sim w))) (lraConstraints (sim w)));
    simpl; split; intros H; try discriminate H; auto;
    destruct H as [H|[H1 H2]]; discriminate.
Qed.

(** X26. What [display] sends: two vertices per local constraint, one per
    particle and, when LRA is enabled, two per LRA constraint (none
    otherwise); every vertex sent is the current position of a stored
    particle. *)
Theorem display_vertex_count (w : World F) (calls : list (GLCall F)) :
  display w = Some calls ->
  length (vertices calls)
  = (2 * length (localConstraints (sim w)) + length (P (sim w))
     + (if g_useLRA (sim w) then 2 * length (lraConstraints (sim w))
        else 0))%nat /\
  forall v, In v (vertices calls) -> exists q, In q (P (sim w)) /\ p q = v.
Proof. apply display_vertices. Qed.
End DisplayExtras.
Section IndexExtras.

(** X27. [idx] numbers the cells row by row without gaps or repeats: the
    loops [for y, for x] meet the slots [0, 1, ..., clothW * clothH - 1] in
    this order, and two cells of the grid with the same slot are the same
    cell. *)
Theorem idx_row_major (clothW clothH : Z) :
  0 <= clothW -> 0 <= clothH ->
  map (fun c => idx clothW (snd c) (fst c)) (grid_cells clothW clothH)
  = zrange (clothW * clothH) /\
  forall x y x' y',
    0 <= x < clothW -> 0 <= x' < clothW ->
    idx clothW x y = idx clothW x' y' -> x = x' /\ y = y'.
Proof.
  intros HW HH. split.
  - apply (cell_ids clothW clothH HW HH).
  - intros x y x' y' Hx Hx' E.
    assert (H : (y, x) = (y', x')).
    { apply (cell_id_inj clothW); simpl; assumption. }
    injection H as -> ->. auto.
Qed.
End IndexExtras.
(** * Not-a-number positions in binary32 *)

Section NanExtras.
Import B32.
Import Particle.

(** X28. In binary32 the local projection spreads a NaN.  If a coordinate
    of one end point is a NaN, the distance is a NaN, the guard
    [dist < 1e-6f] is false, and (unless the inverse masses sum to less
    than [1e-6f]) every end point that is not pinned gets the position
    (NaN, NaN, NaN): its healthy neighbour is overwritten too. *)
Theorem projectLocal_spreads_nan (c : LocalConstraint.t spec_float)
        (G : Globals spec_float) (p1 p2 : Particle.t spec_float) :
  LocalConstraint.i c <> LocalConstraint.j c ->
  vget (P G) (LocalConstraint.i c) = Some p1 ->
  vget (P G) (LocalConstraint.j c) = Some p2 ->
  has_nan (p p1) \/ has_nan (p p2) ->
  fltb (fadd (w p1) (w p2)) f1e_6 = false ->
  exists G',
    exec (projectLocal c) G = Some G' /\
    vget (P G') (LocalConstraint.i c)
    = Some (if pinned p1 then p1 else with_p nan3 p1) /\
    vget (P G') (LocalConstraint.j c)
    = Some (if pinned p2 then p2 else with_p nan3 p2).
Proof.
  intros Hne H1 H2 Hnan Hw.
  pose proof (length_nan (p p1) (p p2) Hnan) as Hd.
  destruct (projectLocal_weights c G p1 p2 Hne H1 H2)
    as [G' [E [Hi [Hj _]]]].
  - rewrite Hd. apply ltb_nan_l.
  - exact Hw.
  - exists G'. split; [exact E|].
    rewrite Hd in Hi, Hj.
    rewrite nan_correction_add in Hi. rewrite nan_correction_sub in Hj.
    split; [exact Hi|exact Hj].
Qed.

(** X29. In binary32 the LRA projection does nothing about a NaN: if a
    coordinate of the particle or of its anchor is a NaN, the test
    [currentDist > limit] is false and the state is returned unchanged, so
    the clamp neither detects nor repairs the particle. *)
Theorem projectLRA_skips_nan (c : LRAConstraint.t spec_float)
        (G : Globals spec_float) (q a : Particle.t spec_float) :
  vget (P G) (LRAConstraint.particleIdx c) = Some q ->
  vget (P G) (LRAConstraint.attachmentIdx c) = Some a ->
  has_nan (p q) \/ has_nan (p a) ->
  exec (projectLRA c) G = Some G.
Proof. apply projectLRA_nan. Qed.

(** X30. In binary32 a NaN is never repaired: a particle that has a NaN
    coordinate before a tick has one after it, pinned or not, whatever the
    constraints, the iteration count and the LRA setting. *)
Theorem simulate_keeps_nan (G G' : Globals spec_float) (k : Z)
        (q : Particle.t spec_float) :
  exec simulate G = Some G' ->
  vget (P G) k = Some q ->
  has_nan (p q) ->
  exists q', vget (P G') k = Some q' /\ has_nan (p q').
Proof.
  intros E Hq Hn. apply (tick_keeps_nan G G' k E). exists q. auto.
Qed.
End NanExtras.
(** ** The further properties at concrete inputs *)

Section ExtraWitnesses.
Import B32 RealScalar.
Import Particle.
Local Open Scope scalar_scope.

Lemma buildScene_resets_witness :
  0 <= 3 /\ 0 <= 3 /\
  exists B1 B2,
    exec (buildScene 3 3 (f1 : spec_float)) initial_globals = Some B1 /\
    exec (buildScene 3 3 (f1 : spec_float)) (set_iterations 2 grid3)
    = Some B2 /\
    P B1 = P B2 /\ g_iterations B2 = 2.
Proof.
  split; [lia|]. split; [lia|].
  destruct (buildScene_resets 3 3 (f1 : spec_float)
              (set_iterations 2 grid3) initial_globals)
    as [B2 [B1 [E2 [E1 [HP [_ [_ [_ [Hi _]]]]]]]]]; [lia|lia|].
  exists B1, B2. split; [exact E1|]. split; [exact E2|].
  split; [symmetry; exact HP|exact Hi].
Defined.

Lemma buildScene_rest_layout_witness :
  0 <= 3 /\ 0 <= 3 /\ 0 <= 1 < 3 /\ 0 <= 2 < 3 /\
  exists Gb q,
    exec (buildScene 3 3 (f1 : spec_float)) initial_globals = Some Gb /\
    vget (P Gb) 7 = Some q /\ old_p q = p q /\ pinned q = false.
Proof.
  split; [lia|]. split; [lia|]. split; [lia|]. split; [lia|].
  destruct (buildScene_rest_layout 3 3 (f1 : spec_float) initial_globals)
    as [Gb [E [_ H]]]; [lia|lia|].
  destruct (H 1 2) as [q [Hq [_ [Ho [_ [Hp _]]]]]]; [lia|lia|].
  exists Gb, q. split; [exact E|]. split; [exact Hq|].
  split; [exact Ho|exact Hp].
Defined.

Lemma buildScene_anchor_list_witness :
  0 <= 3 /\ 0 <= 3 /\
  exists Gb,
    exec (buildScene 3 3 (f1 : spec_float)) initial_globals = Some Gb /\
    attachmentIndices Gb = [0; 2].
Proof.
  split; [lia|]. split; [lia|].
  destruct (buildScene_anchor_list 3 3 (f1 : spec_float) initial_globals)
    as [Gb [E [Ha _]]]; [lia|lia|].
  exists Gb. split; [exact E|exact Ha].
Defined.

Lemma buildScene_local_grid_witness :
  1 <= 3 /\ 1 <= 3 /\
  exists Gb,
    exec (buildScene 3 3 (f1 : spec_float)) initial_globals = Some Gb /\
    zlength (localConstraints Gb) = 12.
Proof.
  split; [lia|]. split; [lia|].
  destruct (buildScene_local_grid 3 3 (f1 : spec_float) initial_globals)
    as [Gb [E [Hn _]]]; [lia|lia|].
  exists Gb. split; [exact E|exact Hn].
Defined.

Lemma buildScene_rest_exact_witness :
  0 <= 3 /\ 0 <= 3 /\
  exists Gb,
    exec (buildScene 3 3 (f1 : spec_float)) initial_globals = Some Gb /\
    forall c, In c (lraConstraints Gb) ->
              lra_distance (P Gb) c = Some (LRAConstraint.maxDist c).
Proof.
  split; [lia|]. split; [lia|].
  destruct (buildScene_rest_exact 3 3 (f1 : spec_float) initial_globals)
    as [Gb [E [_ Ha]]]; [lia|lia|].
  exists Gb. split; [exact E|exact Ha].
Defined.

Lemma buildScene_empty_grid_witness :
  0 <= 0 /\ 0 <= 3 /\ (0 = 0 \/ 3 = 0) /\
  exists Gb,
    exec (buildScene 0 3 (f1 : spec_float)) grid3 = Some Gb /\
    P Gb = [] /\ exec simulate Gb = Some Gb.
Proof.
  split; [lia|]. split; [lia|]. split; [left; reflexivity|].
  destruct (buildScene_empty_grid 0 3 (f1 : spec_float) grid3)
    as [Gb [E [HP [_ [_ [_ Hs]]]]]]; [lia|lia|left; reflexivity|].
  exists Gb. split; [exact E|]. split; [exact HP|exact Hs].
Defined.

Lemma projectLocal_touches_endpoints_witness :
  local_ok (P grid3) (LocalConstraint.mk 0 99 (f1 : spec_float)) = false /\
  exec (projectLocal (LocalConstraint.mk 0 99 (f1 : spec_float))) grid3
  = None.
Proof.
  split; [reflexivity|].
  apply (proj2 (proj1 (projectLocal_touches_endpoints
                         (LocalConstraint.mk 0 99 (f1 : spec_float))
                         grid3))).
  reflexivity.
Defined.

Lemma projectLocal_at_rest_witness :
  exec (projectLocal (LocalConstraint.mk 1 0 1%R)) pendulum = Some pendulum.
Proof.
  apply (projectLocal_at_rest
           (LocalConstraint.mk 1 0 1%R) pendulum
           (Particle.mk (vec3.mk 0 (-1) 0) (vec3.mk 0 (-1) 0)
                        (vec3.mk 0 0 0) 1 false)%R
           (Particle.mk (vec3.mk 0 0 0) (vec3.mk 0 0 0) (vec3.mk 0 0 0)
                        0 true)%R).
  - reflexivity.
  - reflexivity.
  - cbn [Particle.p LocalConstraint.restLen]. apply pendulum_length.
Defined.

Lemma simulate_fault_iff_witness :
  exec simulate
       (mkGlobals [] [LocalConstraint.mk 0 1 (f1 : spec_float)] [] []
                  5 true f1)
  = None.
Proof.
  apply (proj2 (simulate_fault_iff
                  (mkGlobals [] [LocalConstraint.mk 0 1 (f1 : spec_float)]
                             [] [] 5 true f1))).
  split; [simpl; lia|]. left. reflexivity.
Defined.

Lemma simulate_preserves_witness :
  exists G',
    exec simulate grid3 = Some G' /\
    localConstraints G' = localConstraints grid3 /\
    zlength (P G') = zlength (P grid3).
Proof.
  destruct (simulate_total grid3 eq_refl) as [G' [E _]].
  exists G'. split; [exact E|].
  destruct (simulate_preserves grid3 G' E)
    as [A [_ [_ [_ [_ [_ [B _]]]]]]].
  split; [exact A|exact B].
Defined.

Lemma simulate_velocity_bookkeeping_witness :
  exists G' q',
    exec simulate grid3 = Some G' /\
    vget (P G') 4 = Some q' /\
    old_p q' = p (particle_of grid3 4).
Proof.
  destruct (simulate_total grid3 eq_refl) as [G' [E _]].
  destruct (simulate_velocity_bookkeeping grid3 G' 4 (particle_of grid3 4) E)
    as [q' [Hq [Ho _]]].
  - reflexivity.
  - reflexivity.
  - exists G', q'. split; [exact E|]. split; [exact Hq|exact Ho].
Defined.

Lemma simulate_ignores_unused_witness :
  exec simulate
       (with_lra [LRAConstraint.mk 99 (-1) (f1 : spec_float)] [7]
                 (set_params 5 false f1 grid3))
  = option_map (with_lra [LRAConstraint.mk 99 (-1) (f1 : spec_float)] [7])
               (exec simulate (set_params 5 false f1 grid3)).
Proof.
  apply (simulate_ignores_unused
           [LRAConstraint.mk 99 (-1) (f1 : spec_float)] [7]
           (set_params 5 false f1 grid3)).
  left. reflexivity.
Defined.

Lemma run_memory_safe_witness :
  0 <= 3 /\ 0 <= 3 /\
  snd (run 3 3 (f1 : spec_float)
           [Idle 16; Keyboard 93; MouseMotion 3 4; Keyboard 114; Idle 33])
  <> Undefined.
Proof.
  split; [lia|]. split; [lia|].
  destruct (run_memory_safe 3 3 (f1 : spec_float)
              [Idle 16; Keyboard 93; MouseMotion 3 4; Keyboard 114; Idle 33])
    as [H _]; [lia|lia|].
  exact H.
Defined.

Lemma run_keeps_structure_witness :
  match snd (run 3 3 (f1 : spec_float)
                 [Idle 16; Keyboard 50; Idle 33; Keyboard 76]) with
  | Running w =>
      0 <= 3 /\ 0 <= 3 /\
      exists w0,
        main 3 3 (f1 : spec_float) = Running w0 /\
        localConstraints (sim w) = localConstraints (sim w0) /\
        lraConstraints (sim w) = lraConstraints (sim w0)
  | _ => False
  end.
Proof.
  destruct (snd (run 3 3 (f1 : spec_float)
                     [Idle 16; Keyboard 50; Idle 33; Keyboard 76]))
    as [w| |] eqn:E.
  - split; [lia|]. split; [lia|].
    destruct (run_keeps_structure 3 3 (f1 : spec_float)
                [Idle 16; Keyboard 50; Idle 33; Keyboard 76] w)
      as [w0 [E0 [A [B _]]]]; [lia|lia|exact E|].
    exists w0. split; [exact E0|]. split; [exact A|exact B].
  - vm_compute in E. discriminate E.
  - vm_compute in E. discriminate E.
Defined.

Lemma reset_restores_start_witness :
  0 <= 3 /\ 0 <= 3 /\
  exists w0 w',
    main 3 3 (f1 : spec_float) = Running w0 /\
    keyboard 3 3 (f1 : spec_float) 114
             (mkWorld (set_iterations 2 grid3) initial_camera 7 0)
    = Running w' /\
    P (sim w') = P (sim w0) /\ g_iterations (sim w') = 2 /\ frame w' = 7.
Proof.
  split; [lia|]. split; [lia|].
  destruct (reset_restores_start 3 3 (f1 : spec_float)
              (mkWorld (set_iterations 2 grid3) initial_camera 7 0))
    as [w0 [w' [E0 [E1 [_ [HP [_ [_ [_ [Hi [_ [_ [_ [Hf _]]]]]]]]]]]]]];
    [lia|lia|].
  exists w0, w'. split; [exact E0|]. split; [exact E1|].
  split; [exact HP|]. split; [exact Hi|exact Hf].
Defined.

Lemma keyboard_frame_witness :
  0 <= 3 /\ 0 <= 3 /\
  keyboard 3 3 (f1 : spec_float) 50 (mkWorld grid3 initial_camera 0 0)
  = Running (mkWorld (set_iterations 2 grid3) initial_camera 0 0) /\
  P (set_iterations 2 grid3) = P grid3.
Proof.
  split; [lia|]. split; [lia|]. split; [reflexivity|].
  destruct (keyboard_frame 3 3 (f1 : spec_float) 50
              (mkWorld grid3 initial_camera 0 0)
              (mkWorld (set_iterations 2 grid3) initial_camera 0 0))
    as [_ [_ [_ [H _]]]]; [lia|lia|reflexivity|].
  destruct H as [HP _]; [lia|lia|]. exact HP.
Defined.

Lemma camera_follows_mouse_witness :
  match snd (run 3 3 (f1 : spec_float)
                 [MouseButton 0 0 10 10; Idle 5; MouseMotion 20 30]) with
  | Running w =>
      0 <= 3 /\ 0 <= 3 /\ lastMouseX (cam w) = 20 /\ frame w = 1
  | _ => False
  end.
Proof.
  destruct (snd (run 3 3 (f1 : spec_float)
                     [MouseButton 0 0 10 10; Idle 5; MouseMotion 20 30]))
    as [w| |] eqn:E.
  - split; [lia|]. split; [lia|].
    destruct (camera_follows_mouse 3 3 (f1 : spec_float)
                [MouseButton 0 0 10 10; Idle 5; MouseMotion 20 30] w)
      as [Hc [Hf _]]; [lia|lia|exact E|].
    rewrite Hc, Hf. split; reflexivity.
  - vm_compute in E. discriminate E.
  - vm_compute in E. discriminate E.
Defined.

Lemma run_slack_at_least_one_witness :
  (0 <= 3 /\ 0 <= 3) /\
  exists w,
    snd (run 3 3 1%R [Keyboard 93; Keyboard 52]) = Running w /\
    (1 <= g_lraSlack (sim w))%R.
Proof.
  split; [lia|].
  assert (E : snd (run 3 3 1%R [Keyboard 93; Keyboard 52])
              = Running
                  (with_sim
                     (set_params 10 true (fadd f1 (frat 5 100))
                                 (built_scene 3 3 1%R initial_globals))
                     (mkWorld (built_scene 3 3 1%R initial_globals)
                              initial_camera 0 0))).
  { unfold run.
    rewrite (main_world 3 3 1%R ltac:(lia) ltac:(lia)). reflexivity. }
  eexists. split; [exact E|].
  apply (run_slack_at_least_one 3 3 1%R [Keyboard 93; Keyboard 52]);
    [lia|lia|exact E].
Defined.

Lemma run_tick_settles_witness :
  (0 <= 3 /\ 0 <= 3) /\
  exists w w' : World spec_float,
    snd (run 3 3 (frat 200 1 : spec_float) [Keyboard 93; Keyboard 52])
    = Running w /\
    g_useLRA (sim w) = true /\
    idle 16 w = Running w' /\
    forall c, In c (lraConstraints (sim w')) ->
              lra_settled (P (sim w')) (g_lraSlack (sim w')) c.
Proof.
  split; [lia|].
  set (Gb := built_scene 3 3 (frat 200 1 : spec_float) initial_globals).
  assert (E : snd (run 3 3 (frat 200 1 : spec_float)
                       [Keyboard 93; Keyboard 52])
              = Running
                  (with_sim (set_params 10 true (fadd f1 (frat 5 100)) Gb)
                            (mkWorld Gb initial_camera 0 0))).
  { unfold run.
    rewrite (main_world 3 3 (frat 200 1 : spec_float)
                        ltac:(lia) ltac:(lia)).
    reflexivity. }
  destruct (run_tick_settles 3 3 (frat 200 1 : spec_float)
              [Keyboard 93; Keyboard 52] 16 _
              ltac:(lia) ltac:(lia) E eq_refl) as [w' [Ei Hc]].
  eexists. exists w'. split; [exact E|]. split; [reflexivity|].
  split; [exact Ei|exact Hc].
Defined.

Lemma display_fault_iff_witness :
  display (mkWorld (mkGlobals [] [LocalConstraint.mk 0 1 (f1 : spec_float)]
                              [] [] 5 true f1)
                   initial_camera 0 0)
  = None.
Proof.
  apply (proj2 (display_fault_iff
                  (mkWorld (mkGlobals []
                              [LocalConstraint.mk 0 1 (f1 : spec_float)]
                              [] [] 5 true f1)
                           initial_camera 0 0))).
  left. reflexivity.
Defined.

Lemma display_vertex_count_witness :
  match display (mkWorld grid3 initial_camera 0 0) with
  | Some calls => length (vertices calls) = 47%nat
  | None => False
  end.
Proof.
  destruct (display (mkWorld grid3 initial_camera 0 0)) as [calls|] eqn:E.
  - destruct (display_vertex_count _ calls E) as [H _]. exact H.
  - vm_compute in E. discriminate E.
Defined.

Lemma idx_row_major_witness :
  0 <= 3 /\ 0 <= 2 /\
  map (fun c => idx 3 (snd c) (fst c)) (grid_cells 3 2) = zrange (3 * 2).
Proof.
  split; [lia|]. split; [lia|].
  apply (idx_row_major 3 2); lia.
Defined.
Lemma projectLocal_spreads_nan_witness :
  exists G' q,
    exec (projectLocal (LocalConstraint.mk 0 1 (f1 : spec_float))) sick_pair
    = Some G' /\
    vget (P G') 1 = Some q /\ p q = nan3.
Proof.
  destruct (projectLocal_spreads_nan
              (LocalConstraint.mk 0 1 (f1 : spec_float)) sick_pair
              (particle_of sick_pair 0) (particle_of sick_pair 1))
    as [G' [E [_ Hj]]].
  - discriminate.
  - reflexivity.
  - reflexivity.
  - left. left. reflexivity.
  - vm_compute. reflexivity.
  - exists G'. eexists. split; [exact E|]. split; [exact Hj|reflexivity].
Defined.

Lemma projectLRA_skips_nan_witness :
  exec (projectLRA (LRAConstraint.mk 0 1 (f1 : spec_float))) sick_pair
  = Some sick_pair.
Proof.
  apply (projectLRA_skips_nan
           (LRAConstraint.mk 0 1 (f1 : spec_float)) sick_pair
           (particle_of sick_pair 0) (particle_of sick_pair 1)).
  - reflexivity.
  - reflexivity.
  - left. left. reflexivity.
Defined.

Lemma simulate_keeps_nan_witness :
  match exec simulate sick_pair with
  | Some G' => exists q', vget (P G') 0 = Some q' /\ has_nan (p q')
  | None => False
  end.
Proof.
  destruct (exec simulate sick_pair) as [G'|] eqn:E.
  - apply (simulate_keeps_nan sick_pair G' 0 (particle_of sick_pair 0) E).
    + reflexivity.
    + left. reflexivity.
  - vm_compute in E. discriminate E.
Defined.
End ExtraWitnesses.
